(** * go-winjob: the limit protocol and the notification subscription

    A shallow embedding of the Go package [winjob] (job_object.go, limits.go,
    limits_ui.go, the CPU-rate limits and the notification subscription) with
    the parts of package [jobapi] it relies on.

    - Unsigned machine integers are [Z]; the bit operations of the source
      ([|], [&], [&^], [<<], [>>]) are [Z.lor], [Z.land], [Z.ldiff],
      [Z.shiftl], [Z.shiftr].
    - A Go [error] value is an [option Go.error]; [None] is [nil].
    - The operating system is not part of the repository.  It is represented
      by a [World]: the kernel-side copy of the job's information blocks, the
      table of open handles, a schedule of injected failures and the log of
      everything the program did.  Code that talks to the kernel is written
      in the state monad [IO]. *)

From Stdlib Require Import ZArith List Lia Bool.
From stdpp Require Import base decidable countable gmap list strings.
Import ListNotations.
Local Open Scope Z_scope.

(** ** Go runtime and standard library *)

Module Go.

(** The error values that occur: a raw [syscall.Errno] and the
    [*os.SyscallError] wrapper made by [os.NewSyscallError]. *)
Inductive error :=
| Errno (code : Z)
| SyscallError (Syscall : string) (Err : error).

#[global] Instance error_eq_dec : EqDecision error.
Proof. solve_decision. Defined.

(** [os.NewSyscallError]: [nil] stays [nil]. *)
Definition NewSyscallError (syscall : string) (err : option error) : option error :=
  match err with
  | None => None
  | Some e => Some (SyscallError syscall e)
  end.

(** [errors.Is] for a non-nil target: walk the [Unwrap] chain and compare.
    Neither [Errno] nor [SyscallError] has an [Is] method that matches
    another [Errno]. *)
Fixpoint chain_Is (err target : error) : bool :=
  if decide (err = target) then true
  else match err with
       | Errno _ => false
       | SyscallError _ inner => chain_Is inner target
       end.

Definition errors_Is (err : option error) (target : error) : bool :=
  match err with
  | None => false
  | Some e => chain_Is e target
  end.

(** [syscall.UTF16PtrFromString] rejects a string with a NUL byte. *)
Definition EINVAL : error := Errno 536870951.
Definition ERROR_INVALID_HANDLE : error := Errno 6.
Definition InvalidHandle : Z := Z.ones 64.

Fixpoint hasNUL (s : string) : bool :=
  match s with
  | EmptyString => false
  | String c rest => if Ascii.eqb c Ascii.zero then true else hasNUL rest
  end.

(** [encoding/binary], little endian.  A byte is a [Z] below 256. *)
Definition byte_of (v : Z) : Z := Z.land v 255.

(** [binary.Write(&b, binary.LittleEndian, v)] for a [uint16]. *)
Definition Write_uint16 (b : list Z) (v : Z) : list Z :=
  b ++ [byte_of v; byte_of (Z.shiftr v 8)].

(** [binary.Write(&b, binary.LittleEndian, v)] for a [uint32]. *)
Definition Write_uint32 (b : list Z) (v : Z) : list Z :=
  b ++ [byte_of v; byte_of (Z.shiftr v 8);
        byte_of (Z.shiftr v 16); byte_of (Z.shiftr v 24)].

(** [binary.LittleEndian.Uint16]; [None] is the index-out-of-range panic
    on a slice shorter than two bytes. *)
Definition Uint16 (b : list Z) : option Z :=
  match b with
  | b0 :: b1 :: _ => Some (Z.lor b0 (Z.shiftl b1 8))
  | _ => None
  end.

(** [binary.LittleEndian.Uint32]; [None] is the panic on a short slice. *)
Definition Uint32 (b : list Z) : option Z :=
  match b with
  | b0 :: b1 :: b2 :: b3 :: _ =>
      Some (Z.lor (Z.lor (Z.lor b0 (Z.shiftl b1 8)) (Z.shiftl b2 16)) (Z.shiftl b3 24))
  | _ => None
  end.

End Go.

(** ** Package jobapi: constants and information blocks *)

Module jobapi.

(** [ErrAbandoned = syscall.Errno(0x2df)] *)
Definition ErrAbandoned : Go.error := Go.Errno 735.

(** The information classes the package uses, with their numeric codes. *)
Inductive JobObjectInformationClass :=
| JobObjectBasicUIRestrictions
| JobObjectBasicAndIoAccountingInformation
| JobObjectExtendedLimitInformation
| JobObjectCpuRateControlInformation
| JobObjectNetRateControlInformation.

Definition class_code (c : JobObjectInformationClass) : Z :=
  match c with
  | JobObjectBasicUIRestrictions => 4
  | JobObjectBasicAndIoAccountingInformation => 8
  | JobObjectExtendedLimitInformation => 9
  | JobObjectCpuRateControlInformation => 15
  | JobObjectNetRateControlInformation => 32
  end.

Definition class_of_code (z : Z) : option JobObjectInformationClass :=
  if decide (z = 4) then Some JobObjectBasicUIRestrictions
  else if decide (z = 8) then Some JobObjectBasicAndIoAccountingInformation
  else if decide (z = 9) then Some JobObjectExtendedLimitInformation
  else if decide (z = 15) then Some JobObjectCpuRateControlInformation
  else if decide (z = 32) then Some JobObjectNetRateControlInformation
  else None.

#[global] Instance class_eq_dec : EqDecision JobObjectInformationClass.
Proof. solve_decision. Defined.

#[global] Instance class_countable : Countable JobObjectInformationClass.
Proof. apply (inj_countable class_code class_of_code). intros []; reflexivity. Defined.

(** [LimitFlag]: [1 << iota]. *)
Definition JOB_OBJECT_LIMIT_WORKINGSET : Z := Z.shiftl 1 0.
Definition JOB_OBJECT_LIMIT_PROCESS_TIME : Z := Z.shiftl 1 1.
Definition JOB_OBJECT_LIMIT_JOB_TIME : Z := Z.shiftl 1 2.
Definition JOB_OBJECT_LIMIT_ACTIVE_PROCESS : Z := Z.shiftl 1 3.
Definition JOB_OBJECT_LIMIT_AFFINITY : Z := Z.shiftl 1 4.
Definition JOB_OBJECT_LIMIT_PRIORITY_CLASS : Z := Z.shiftl 1 5.
Definition JOB_OBJECT_LIMIT_PRESERVE_JOB_TIME : Z := Z.shiftl 1 6.
Definition JOB_OBJECT_LIMIT_SCHEDULING_CLASS : Z := Z.shiftl 1 7.
Definition JOB_OBJECT_LIMIT_PROCESS_MEMORY : Z := Z.shiftl 1 8.
Definition JOB_OBJECT_LIMIT_JOB_MEMORY : Z := Z.shiftl 1 9.
Definition JOB_OBJECT_LIMIT_DIE_ON_UNHANDLED_EXCEPTION : Z := Z.shiftl 1 10.
Definition JOB_OBJECT_LIMIT_BREAKAWAY_OK : Z := Z.shiftl 1 11.
Definition JOB_OBJECT_LIMIT_SILENT_BREAKAWAY_OK : Z := Z.shiftl 1 12.
Definition JOB_OBJECT_LIMIT_KILL_ON_JOB_CLOSE : Z := Z.shiftl 1 13.
Definition JOB_OBJECT_LIMIT_SUBSET_AFFINITY : Z := Z.shiftl 1 14.

(** [UIRestrictionsClass]: [1 << iota]. *)
Definition JOB_OBJECT_UILIMIT_HANDLES : Z := Z.shiftl 1 0.
Definition JOB_OBJECT_UILIMIT_READCLIPBOARD : Z := Z.shiftl 1 1.
Definition JOB_OBJECT_UILIMIT_WRITECLIPBOARD : Z := Z.shiftl 1 2.
Definition JOB_OBJECT_UILIMIT_SYSTEMPARAMETERS : Z := Z.shiftl 1 3.
Definition JOB_OBJECT_UILIMIT_DISPLAYSETTINGS : Z := Z.shiftl 1 4.
Definition JOB_OBJECT_UILIMIT_GLOBALATOMS : Z := Z.shiftl 1 5.
Definition JOB_OBJECT_UILIMIT_DESKTOP : Z := Z.shiftl 1 6.
Definition JOB_OBJECT_UILIMIT_EXITWINDOWS : Z := Z.shiftl 1 7.

(** [CPUControlFlag]: [1 << iota]. *)
Definition JOB_OBJECT_CPU_RATE_CONTROL_ENABLE : Z := Z.shiftl 1 0.
Definition JOB_OBJECT_CPU_RATE_CONTROL_WEIGHT_BASED : Z := Z.shiftl 1 1.
Definition JOB_OBJECT_CPU_RATE_CONTROL_HARD_CAP : Z := Z.shiftl 1 2.
Definition JOB_OBJECT_CPU_RATE_CONTROL_NOTIFY : Z := Z.shiftl 1 3.
Definition JOB_OBJECT_CPU_RATE_CONTROL_MIN_MAX_RATE : Z := Z.shiftl 1 4.

Record JOBOBJECT_BASIC_LIMIT_INFORMATION := {
  PerProcessUserTimeLimit : Z;
  PerJobUserTimeLimit : Z;
  LimitFlags : Z;
  MinimumWorkingSetSize : Z;
  MaximumWorkingSetSize : Z;
  ActiveProcessLimit : Z;
  Affinity : Z;
  PriorityClass : Z;
  SchedulingClass : Z
}.

Record IO_COUNTERS := {
  ReadOperationCount : Z;
  WriteOperationCount : Z;
  OtherOperationCount : Z;
  ReadTransferCount : Z;
  WriteTransferCount : Z;
  OtherTransferCount : Z
}.

Record JOBOBJECT_EXTENDED_LIMIT_INFORMATION := {
  BasicLimitInformation : JOBOBJECT_BASIC_LIMIT_INFORMATION;
  IoInfo : IO_COUNTERS;
  ProcessMemoryLimit : Z;
  JobMemoryLimit : Z;
  PeakProcessMemoryUsed : Z;
  PeakJobMemoryUsed : Z
}.

Record JOBOBJECT_BASIC_UI_RESTRICTIONS := {
  UIRestrictionsClass : Z
}.

Record JOBOBJECT_BASIC_ACCOUNTING_INFORMATION := {
  TotalUserTime : Z;
  TotalKernelTime : Z;
  ThisPeriodTotalUserTime : Z;
  ThisPeriodTotalKernelTime : Z;
  TotalPageFaultCount : Z;
  TotalProcesses : Z;
  ActiveProcesses : Z;
  TotalTerminatedProcesses : Z
}.

(** Two embedded structs; Go promotes their fields. *)
Record JOBOBJECT_BASIC_AND_IO_ACCOUNTING_INFORMATION := {
  Basic : JOBOBJECT_BASIC_ACCOUNTING_INFORMATION;
  Io : IO_COUNTERS
}.

Record JOBOBJECT_CPU_RATE_CONTROL_INFORMATION := {
  ControlFlags : Z;
  Value : Z
}.

(** The field [ControlFlags] of the net-rate block is [NetControlFlags]
    here: a Rocq module has one name space for record fields. *)
Record JOBOBJECT_NET_RATE_CONTROL_INFORMATION := {
  MaxBandwidth : Z;
  NetControlFlags : Z;
  DscpTag : Z
}.

Definition zero_BASIC_LIMIT : JOBOBJECT_BASIC_LIMIT_INFORMATION :=
  Build_JOBOBJECT_BASIC_LIMIT_INFORMATION 0 0 0 0 0 0 0 0 0.
Definition zero_IO : IO_COUNTERS := Build_IO_COUNTERS 0 0 0 0 0 0.
Definition zero_EXTENDED : JOBOBJECT_EXTENDED_LIMIT_INFORMATION :=
  Build_JOBOBJECT_EXTENDED_LIMIT_INFORMATION zero_BASIC_LIMIT zero_IO 0 0 0 0.
Definition zero_UI : JOBOBJECT_BASIC_UI_RESTRICTIONS :=
  Build_JOBOBJECT_BASIC_UI_RESTRICTIONS 0.
Definition zero_ACCOUNTING : JOBOBJECT_BASIC_AND_IO_ACCOUNTING_INFORMATION :=
  Build_JOBOBJECT_BASIC_AND_IO_ACCOUNTING_INFORMATION
    (Build_JOBOBJECT_BASIC_ACCOUNTING_INFORMATION 0 0 0 0 0 0 0 0) zero_IO.
Definition zero_CPU : JOBOBJECT_CPU_RATE_CONTROL_INFORMATION :=
  Build_JOBOBJECT_CPU_RATE_CONTROL_INFORMATION 0 0.
Definition zero_NET : JOBOBJECT_NET_RATE_CONTROL_INFORMATION :=
  Build_JOBOBJECT_NET_RATE_CONTROL_INFORMATION 0 0 0.

End jobapi.

(** ** Package winjob: data *)

Record Counters := {
  TotalUserTime : Z;
  TotalKernelTime : Z;
  ThisPeriodTotalUserTime : Z;
  ThisPeriodTotalKernelTime : Z;
  TotalPageFaultCount : Z;
  TotalProcesses : Z;
  ActiveProcesses : Z;
  TotalTerminatedProcesses : Z;
  ReadOperationCount : Z;
  WriteOperationCount : Z;
  OtherOperationCount : Z;
  ReadTransferCount : Z;
  WriteTransferCount : Z;
  OtherTransferCount : Z
}.

Record JobInfo := {
  ExtendedLimits : jobapi.JOBOBJECT_EXTENDED_LIMIT_INFORMATION;
  UIRestrictions : jobapi.JOBOBJECT_BASIC_UI_RESTRICTIONS;
  AccountingInfo : jobapi.JOBOBJECT_BASIC_AND_IO_ACCOUNTING_INFORMATION;
  CPURateControl : jobapi.JOBOBJECT_CPU_RATE_CONTROL_INFORMATION;
  NetRateControl : jobapi.JOBOBJECT_NET_RATE_CONTROL_INFORMATION
}.

(** [JobInfo{}] *)
Definition zero_JobInfo : JobInfo :=
  {| ExtendedLimits := jobapi.zero_EXTENDED;
     UIRestrictions := jobapi.zero_UI;
     AccountingInfo := jobapi.zero_ACCOUNTING;
     CPURateControl := jobapi.zero_CPU;
     NetRateControl := jobapi.zero_NET |}.

(** [JobObject]; the embedded [JobInfo] is the field [Info]. *)
Record JobObject := {
  Name : string;
  Handle : Z;
  Info : JobInfo
}.

Record CPURate := {
  Min : Z;
  Max : Z;
  Weight : Z;
  HardCap : Z
}.

(** The implementations of the interface [Limit].  A struct that embeds
    [basicLimit] carries the embedded flag as its first argument. *)
Inductive Limit :=
| basicLimit (l : Z)
| affinityLimit (l : Z) (affinity : Z)
| jobMemoryLimit (l : Z) (jobMemory : Z)
| jobTimeLimit (l : Z) (jobTime : Z)
| processMemoryLimit (l : Z) (processMemory : Z)
| processTimeLimit (l : Z) (processTime : Z)
| activeProcessLimit (l : Z) (procs : Z)
| workingSetLimit (l : Z) (wsMin wsMax : Z)
| priorityClassLimit (l : Z) (prio : Z)
| schedulingClassLimit (l : Z) (schedClass : Z)
| uiRestriction (r : Z)
| cpuLimit (r : CPURate)
| netBandwidthLimit (v : Z)
| netDSCPTagLimit (v : Z).

#[global] Instance CPURate_eq_dec : EqDecision CPURate.
Proof. solve_decision. Defined.

#[global] Instance Limit_eq_dec : EqDecision Limit.
Proof. solve_decision. Defined.

(** [Notification]: a known type is its name, an unknown code keeps its
    number (printed with [%v] in the source). *)
Inductive NotificationType :=
| Named (name : string)
| Unknown (mType : Z).

Record Notification := {
  Type_ : NotificationType;
  PID : Z
}.

#[global] Instance NotificationType_eq_dec : EqDecision NotificationType.
Proof. solve_decision. Defined.

#[global] Instance Notification_eq_dec : EqDecision Notification.
Proof. solve_decision. Defined.

(** [Subscription]: the [Port] handle, the mutex (held or free), the
    terminal error and the closed flag. *)
Record Subscription := {
  Port : Z;
  mu : bool;
  err : option Go.error;
  closed : bool
}.

(** ** The world outside the program *)

(** What the program does that the outside can see, in order.  A kernel
    call is logged whether it succeeds or not, with the last error it
    returned ([None] when it went through).  [EvMerge] marks a limit being
    merged into (set = true) or cleared from the cache; the remaining events
    are the steps of the subscription. *)
Inductive Event :=
| EvCreateJobObject (name : string) (r : option Go.error)
| EvQueryInformationJobObject (h : Z) (c : jobapi.JobObjectInformationClass)
    (r : option Go.error)
| EvSetInformationJobObject (h : Z) (c : jobapi.JobObjectInformationClass)
    (r : option Go.error)
| EvCloseHandle (h : Z) (r : option Go.error)
| EvMerge (set : bool) (l : Limit)
| EvGetQueuedCompletionStatus (h : Z) (r : option Go.error)
| EvLock
| EvUnlock
| EvSetClosed
| EvSetErr (e : option Go.error)
| EvSend (n : Notification)
| EvCloseChan.

#[global] Instance Event_eq_dec : EqDecision Event.
Proof. solve_decision. Defined.

(** - [kernel]: the job's information blocks as the kernel holds them;
    - [live]: the handles that are open;
    - [next]: the value of the next handle the kernel hands out, never 0;
    - [faults]: one entry per kernel call still to come, [Some e] makes
      that call fail with last error [e] (an exhausted schedule injects
      nothing);
    - [trace]: the log. *)
Record World := {
  kernel : JobInfo;
  live : list Z;
  next : positive;
  faults : list (option Go.error);
  trace : list Event
}.

Definition IO (A : Type) : Type := World -> A * World.

Definition ret {A} (a : A) : IO A := fun w => (a, w).

Definition bind {A B} (m : IO A) (k : A -> IO B) : IO B :=
  fun w => let (a, w') := m w in k a w'.

Notation "'let*' x ':=' m 'in' k" := (bind m (fun x => k))
  (at level 10, x pattern, m at level 100, k at level 200).

Definition emit (e : Event) : IO unit :=
  fun w => (tt, {| kernel := kernel w; live := live w; next := next w;
                   faults := faults w; trace := trace w ++ [e] |}).

(** The next entry of the failure schedule. *)
Definition fault : IO (option Go.error) :=
  fun w => match faults w with
           | [] => (None, w)
           | f :: rest => (f, {| kernel := kernel w; live := live w; next := next w;
                                 faults := rest; trace := trace w |})
           end.

Definition is_live (h : Z) : IO bool :=
  fun w => (bool_decide (h ∈ live w), w).

Definition get_kernel : IO JobInfo := fun w => (kernel w, w).

Definition put_kernel (k : JobInfo) : IO unit :=
  fun w => (tt, {| kernel := k; live := live w; next := next w;
                   faults := faults w; trace := trace w |}).

Definition put_live (l : list Z) : IO unit :=
  fun w => (tt, {| kernel := kernel w; live := l; next := next w;
                   faults := faults w; trace := trace w |}).

Definition get_live : IO (list Z) := fun w => (live w, w).

(** A kernel call on handle [h]: failed by the schedule, or with
    ERROR_INVALID_HANDLE when [h] is not open.  The result is the last
    error, [None] when the call goes through; the call is logged with it. *)
Definition kernel_call (ev : option Go.error -> Event) (h : Z) : IO (option Go.error) :=
  let* f := fault in
  let* ok := is_live h in
  let r := match f with
           | Some e => Some e
           | None => if ok then None else Some Go.ERROR_INVALID_HANDLE
           end in
  let* _ := emit (ev r) in
  ret r.

(** The kernel hands out a fresh handle, unless the schedule fails the call. *)
Definition kernel_create (name : string) : IO (Z * option Go.error) :=
  let* f := fault in
  let* _ := emit (EvCreateJobObject name f) in
  match f with
  | Some e => ret (0, Some e)
  | None =>
      fun w => ((Z.pos (next w), None),
                {| kernel := kernel w; live := Z.pos (next w) :: live w;
                   next := Pos.succ (next w);
                   faults := faults w; trace := trace w |})
  end.

(** [CloseHandle]: the handle leaves the table. *)
Definition kernel_close (h : Z) : IO (option Go.error) :=
  let* r := kernel_call (EvCloseHandle h) h in
  match r with
  | Some e => ret (Some e)
  | None =>
      let* l := get_live in
      let* _ := put_live (filter (fun x => x ≠ h) l) in
      ret None
  end.

(** ** Package jobapi: the calls *)

Module jobapi_calls.

(** [jobapi.CreateJobObject]: the name is converted first; the kernel is
    called only when that succeeds, and a zero handle is its failure. *)
Definition CreateJobObject (jobName : string) : IO (Z * option Go.error) :=
  if Go.hasNUL jobName then ret (Go.InvalidHandle, Some Go.EINVAL)
  else
    let* (h, lastErr) := kernel_create jobName in
    if h =? 0 then ret (Go.InvalidHandle, Go.NewSyscallError "CreateJobObject" lastErr)
    else ret (h, None).

(** [jobapi.QueryInformationJobObject] *)
Definition QueryInformationJobObject (hJobObject : Z)
    (infoClass : jobapi.JobObjectInformationClass) : IO (option Go.error) :=
  let* lastErr := kernel_call (EvQueryInformationJobObject hJobObject infoClass) hJobObject in
  ret (Go.NewSyscallError "QueryInformationJobObject" lastErr).

(** [jobapi.SetInformationJobObject] *)
Definition SetInformationJobObject (hJobObject : Z)
    (infoClass : jobapi.JobObjectInformationClass) : IO (option Go.error) :=
  let* lastErr := kernel_call (EvSetInformationJobObject hJobObject infoClass) hJobObject in
  ret (Go.NewSyscallError "SetInformationJobObject" lastErr).

(** [syscall.GetQueuedCompletionStatus] as the loop sees it: the outcome
    of each call is given from outside, a packet [(mType, pid)] or a
    failure. *)
Definition GetQueuedCompletionStatus (hPort : Z) (outcome : Z * Z + Go.error)
    : IO (Z * Z * option Go.error) :=
  match outcome with
  | inl (mType, pid) =>
      let* _ := emit (EvGetQueuedCompletionStatus hPort None) in
      ret (mType, pid, None)
  | inr e =>
      let* _ := emit (EvGetQueuedCompletionStatus hPort (Some e)) in
      ret (0, 0, Go.NewSyscallError "GetQueuedCompletionStatus" (Some e))
  end.

End jobapi_calls.

(** ** Package winjob: the cache and its slots *)

(** What [job.infoPtr(infoClass)] points to: one of the five cache slots. *)
Inductive Block :=
| BlockAccounting (b : jobapi.JOBOBJECT_BASIC_AND_IO_ACCOUNTING_INFORMATION)
| BlockExtended (b : jobapi.JOBOBJECT_EXTENDED_LIMIT_INFORMATION)
| BlockUI (b : jobapi.JOBOBJECT_BASIC_UI_RESTRICTIONS)
| BlockCPU (b : jobapi.JOBOBJECT_CPU_RATE_CONTROL_INFORMATION)
| BlockNet (b : jobapi.JOBOBJECT_NET_RATE_CONTROL_INFORMATION).

(** [infoPtr], read through: the content of the slot of [infoClass]. *)
Definition infoPtr (info : JobInfo) (infoClass : jobapi.JobObjectInformationClass) : Block :=
  match infoClass with
  | jobapi.JobObjectBasicAndIoAccountingInformation => BlockAccounting (AccountingInfo info)
  | jobapi.JobObjectExtendedLimitInformation => BlockExtended (ExtendedLimits info)
  | jobapi.JobObjectBasicUIRestrictions => BlockUI (UIRestrictions info)
  | jobapi.JobObjectCpuRateControlInformation => BlockCPU (CPURateControl info)
  | jobapi.JobObjectNetRateControlInformation => BlockNet (NetRateControl info)
  end.

(** [infoPtr], written through: the block goes to the slot of its kind and
    the other four slots stay. *)
Definition store (info : JobInfo) (b : Block) : JobInfo :=
  match b with
  | BlockAccounting x =>
      {| ExtendedLimits := ExtendedLimits info; UIRestrictions := UIRestrictions info;
         AccountingInfo := x; CPURateControl := CPURateControl info;
         NetRateControl := NetRateControl info |}
  | BlockExtended x =>
      {| ExtendedLimits := x; UIRestrictions := UIRestrictions info;
         AccountingInfo := AccountingInfo info; CPURateControl := CPURateControl info;
         NetRateControl := NetRateControl info |}
  | BlockUI x =>
      {| ExtendedLimits := ExtendedLimits info; UIRestrictions := x;
         AccountingInfo := AccountingInfo info; CPURateControl := CPURateControl info;
         NetRateControl := NetRateControl info |}
  | BlockCPU x =>
      {| ExtendedLimits := ExtendedLimits info; UIRestrictions := UIRestrictions info;
         AccountingInfo := AccountingInfo info; CPURateControl := x;
         NetRateControl := NetRateControl info |}
  | BlockNet x =>
      {| ExtendedLimits := ExtendedLimits info; UIRestrictions := UIRestrictions info;
         AccountingInfo := AccountingInfo info; CPURateControl := CPURateControl info;
         NetRateControl := x |}
  end.

Definition with_Info (job : JobObject) (info : JobInfo) : JobObject :=
  {| Name := Name job; Handle := Handle job; Info := info |}.

(** [jobapi.QueryInfo(h, infoClass, job.infoPtr(infoClass))]: on success the
    kernel's block of that class overwrites the cache slot; on failure the
    slot is left as it was. *)
Definition QueryInfo (hJobObject : Z) (infoClass : jobapi.JobObjectInformationClass)
    (info : JobInfo) : IO (JobInfo * option Go.error) :=
  let* e := jobapi_calls.QueryInformationJobObject hJobObject infoClass in
  match e with
  | Some _ => ret (info, e)
  | None =>
      let* k := get_kernel in
      ret (store info (infoPtr k infoClass), None)
  end.

(** [jobapi.SetInfo(h, infoClass, job.infoPtr(infoClass))]: on success the
    cache slot overwrites the kernel's block of that class. *)
Definition SetInfo (hJobObject : Z) (infoClass : jobapi.JobObjectInformationClass)
    (info : JobInfo) : IO (JobInfo * option Go.error) :=
  let* e := jobapi_calls.SetInformationJobObject hJobObject infoClass in
  match e with
  | Some _ => ret (info, e)
  | None =>
      let* k := get_kernel in
      let* _ := put_kernel (store k (infoPtr info infoClass)) in
      ret (info, None)
  end.

Definition infoClassSync : Type :=
  Z -> jobapi.JobObjectInformationClass -> JobInfo -> IO (JobInfo * option Go.error).

(** [job.sync(fn, infoClasses...)] *)
Fixpoint sync (fn : infoClassSync) (infoClasses : list jobapi.JobObjectInformationClass)
    (job : JobObject) : IO (JobObject * option Go.error) :=
  match infoClasses with
  | [] => ret (job, None)
  | infoClass :: rest =>
      let* (info, e) := fn (Handle job) infoClass (Info job) in
      match e with
      | Some _ => ret (with_Info job info, e)
      | None => sync fn rest (with_Info job info)
      end
  end.

(** [job.Close()] is [syscall.Close(job.Handle)]. *)
Definition JobObject_Close (job : JobObject) : IO (option Go.error) :=
  kernel_close (Handle job).

(** [job.QueryCounters(c)] *)
Definition QueryCounters (job : JobObject) (c : Counters)
    : IO (JobObject * Counters * option Go.error) :=
  let* (job, e) := sync QueryInfo [jobapi.JobObjectBasicAndIoAccountingInformation] job in
  match e with
  | Some _ => ret (job, c, e)
  | None =>
      let a := jobapi.Basic (AccountingInfo (Info job)) in
      let io := jobapi.Io (AccountingInfo (Info job)) in
      ret (job,
           {| TotalUserTime := jobapi.TotalUserTime a;
              TotalKernelTime := jobapi.TotalUserTime a;
              ThisPeriodTotalUserTime := jobapi.TotalUserTime a;
              ThisPeriodTotalKernelTime := jobapi.TotalUserTime a;
              TotalPageFaultCount := jobapi.TotalPageFaultCount a;
              TotalProcesses := jobapi.TotalProcesses a;
              ActiveProcesses := jobapi.ActiveProcesses a;
              TotalTerminatedProcesses := jobapi.TotalTerminatedProcesses a;
              ReadOperationCount := jobapi.ReadOperationCount io;
              WriteOperationCount := jobapi.WriteOperationCount io;
              OtherOperationCount := jobapi.OtherOperationCount io;
              ReadTransferCount := jobapi.ReadTransferCount io;
              WriteTransferCount := jobapi.WriteTransferCount io;
              OtherTransferCount := jobapi.OtherOperationCount io |},
           None)
  end.

(** [job.QueryLimits()] *)
Definition QueryLimits (job : JobObject) : IO (JobObject * option Go.error) :=
  sync QueryInfo
    [jobapi.JobObjectExtendedLimitInformation;
     jobapi.JobObjectBasicUIRestrictions;
     jobapi.JobObjectCpuRateControlInformation;
     jobapi.JobObjectNetRateControlInformation] job.

(** [job.limitInfoClassesSet()] *)
Definition limitInfoClassesSet (job : JobObject) : list jobapi.JobObjectInformationClass :=
  let table :=
    [ (0 <? jobapi.LimitFlags (jobapi.BasicLimitInformation (ExtendedLimits (Info job))),
       jobapi.JobObjectExtendedLimitInformation);
      (0 <? jobapi.UIRestrictionsClass (UIRestrictions (Info job)),
       jobapi.JobObjectBasicUIRestrictions);
      (0 <? jobapi.ControlFlags (CPURateControl (Info job)),
       jobapi.JobObjectCpuRateControlInformation);
      (0 <? jobapi.NetControlFlags (NetRateControl (Info job)),
       jobapi.JobObjectNetRateControlInformation) ] in
  fold_left (fun classes (info : bool * jobapi.JobObjectInformationClass) =>
               if fst info then classes ++ [snd info] else classes) table [].

(** [job.HasLimits()] *)
Definition HasLimits (job : JobObject) : IO (JobObject * bool * option Go.error) :=
  let* (job, e) := QueryLimits job in
  match e with
  | Some _ => ret (job, false, e)
  | None => ret (job, bool_decide (0 < length (limitInfoClassesSet job))%nat, None)
  end.

(** [job.ResetLimits()] *)
Definition ResetLimits (job : JobObject) : IO (JobObject * option Go.error) :=
  let* (job, e) := QueryLimits job in
  match e with
  | Some _ => ret (job, e)
  | None =>
      let infoClasses := limitInfoClassesSet job in
      let job := with_Info job zero_JobInfo in
      sync SetInfo infoClasses job
  end.

(** ** Limits: merging into and reading from the cache *)

Definition upd_ExtendedLimits
    (f : jobapi.JOBOBJECT_EXTENDED_LIMIT_INFORMATION -> jobapi.JOBOBJECT_EXTENDED_LIMIT_INFORMATION)
    (job : JobObject) : JobObject :=
  with_Info job (store (Info job) (BlockExtended (f (ExtendedLimits (Info job))))).

Definition upd_BasicLimitInformation
    (f : jobapi.JOBOBJECT_BASIC_LIMIT_INFORMATION -> jobapi.JOBOBJECT_BASIC_LIMIT_INFORMATION)
    (job : JobObject) : JobObject :=
  upd_ExtendedLimits
    (fun e => {| jobapi.BasicLimitInformation := f (jobapi.BasicLimitInformation e);
                 jobapi.IoInfo := jobapi.IoInfo e;
                 jobapi.ProcessMemoryLimit := jobapi.ProcessMemoryLimit e;
                 jobapi.JobMemoryLimit := jobapi.JobMemoryLimit e;
                 jobapi.PeakProcessMemoryUsed := jobapi.PeakProcessMemoryUsed e;
                 jobapi.PeakJobMemoryUsed := jobapi.PeakJobMemoryUsed e |}) job.

Definition set_LimitFlags (v : Z) (b : jobapi.JOBOBJECT_BASIC_LIMIT_INFORMATION) :=
  {| jobapi.PerProcessUserTimeLimit := jobapi.PerProcessUserTimeLimit b;
     jobapi.PerJobUserTimeLimit := jobapi.PerJobUserTimeLimit b;
     jobapi.LimitFlags := v;
     jobapi.MinimumWorkingSetSize := jobapi.MinimumWorkingSetSize b;
     jobapi.MaximumWorkingSetSize := jobapi.MaximumWorkingSetSize b;
     jobapi.ActiveProcessLimit := jobapi.ActiveProcessLimit b;
     jobapi.Affinity := jobapi.Affinity b;
     jobapi.PriorityClass := jobapi.PriorityClass b;
     jobapi.SchedulingClass := jobapi.SchedulingClass b |}.

Definition set_PerProcessUserTimeLimit (v : Z) (b : jobapi.JOBOBJECT_BASIC_LIMIT_INFORMATION) :=
  {| jobapi.PerProcessUserTimeLimit := v;
     jobapi.PerJobUserTimeLimit := jobapi.PerJobUserTimeLimit b;
     jobapi.LimitFlags := jobapi.LimitFlags b;
     jobapi.MinimumWorkingSetSize := jobapi.MinimumWorkingSetSize b;
     jobapi.MaximumWorkingSetSize := jobapi.MaximumWorkingSetSize b;
     jobapi.ActiveProcessLimit := jobapi.ActiveProcessLimit b;
     jobapi.Affinity := jobapi.Affinity b;
     jobapi.PriorityClass := jobapi.PriorityClass b;
     jobapi.SchedulingClass := jobapi.SchedulingClass b |}.

Definition set_PerJobUserTimeLimit (v : Z) (b : jobapi.JOBOBJECT_BASIC_LIMIT_INFORMATION) :=
  {| jobapi.PerProcessUserTimeLimit := jobapi.PerProcessUserTimeLimit b;
     jobapi.PerJobUserTimeLimit := v;
     jobapi.LimitFlags := jobapi.LimitFlags b;
     jobapi.MinimumWorkingSetSize := jobapi.MinimumWorkingSetSize b;
     jobapi.MaximumWorkingSetSize := jobapi.MaximumWorkingSetSize b;
     jobapi.ActiveProcessLimit := jobapi.ActiveProcessLimit b;
     jobapi.Affinity := jobapi.Affinity b;
     jobapi.PriorityClass := jobapi.PriorityClass b;
     jobapi.SchedulingClass := jobapi.SchedulingClass b |}.

Definition set_WorkingSetSize (vmin vmax : Z) (b : jobapi.JOBOBJECT_BASIC_LIMIT_INFORMATION) :=
  {| jobapi.PerProcessUserTimeLimit := jobapi.PerProcessUserTimeLimit b;
     jobapi.PerJobUserTimeLimit := jobapi.PerJobUserTimeLimit b;
     jobapi.LimitFlags := jobapi.LimitFlags b;
     jobapi.MinimumWorkingSetSize := vmin;
     jobapi.MaximumWorkingSetSize := vmax;
     jobapi.ActiveProcessLimit := jobapi.ActiveProcessLimit b;
     jobapi.Affinity := jobapi.Affinity b;
     jobapi.PriorityClass := jobapi.PriorityClass b;
     jobapi.SchedulingClass := jobapi.SchedulingClass b |}.

Definition set_ActiveProcessLimit (v : Z) (b : jobapi.JOBOBJECT_BASIC_LIMIT_INFORMATION) :=
  {| jobapi.PerProcessUserTimeLimit := jobapi.PerProcessUserTimeLimit b;
     jobapi.PerJobUserTimeLimit := jobapi.PerJobUserTimeLimit b;
     jobapi.LimitFlags := jobapi.LimitFlags b;
     jobapi.MinimumWorkingSetSize := jobapi.MinimumWorkingSetSize b;
     jobapi.MaximumWorkingSetSize := jobapi.MaximumWorkingSetSize b;
     jobapi.ActiveProcessLimit := v;
     jobapi.Affinity := jobapi.Affinity b;
     jobapi.PriorityClass := jobapi.PriorityClass b;
     jobapi.SchedulingClass := jobapi.SchedulingClass b |}.

Definition set_Affinity (v : Z) (b : jobapi.JOBOBJECT_BASIC_LIMIT_INFORMATION) :=
  {| jobapi.PerProcessUserTimeLimit := jobapi.PerProcessUserTimeLimit b;
     jobapi.PerJobUserTimeLimit := jobapi.PerJobUserTimeLimit b;
     jobapi.LimitFlags := jobapi.LimitFlags b;
     jobapi.MinimumWorkingSetSize := jobapi.MinimumWorkingSetSize b;
     jobapi.MaximumWorkingSetSize := jobapi.MaximumWorkingSetSize b;
     jobapi.ActiveProcessLimit := jobapi.ActiveProcessLimit b;
     jobapi.Affinity := v;
     jobapi.PriorityClass := jobapi.PriorityClass b;
     jobapi.SchedulingClass := jobapi.SchedulingClass b |}.

Definition set_PriorityClass (v : Z) (b : jobapi.JOBOBJECT_BASIC_LIMIT_INFORMATION) :=
  {| jobapi.PerProcessUserTimeLimit := jobapi.PerProcessUserTimeLimit b;
     jobapi.PerJobUserTimeLimit := jobapi.PerJobUserTimeLimit b;
     jobapi.LimitFlags := jobapi.LimitFlags b;
     jobapi.MinimumWorkingSetSize := jobapi.MinimumWorkingSetSize b;
     jobapi.MaximumWorkingSetSize := jobapi.MaximumWorkingSetSize b;
     jobapi.ActiveProcessLimit := jobapi.ActiveProcessLimit b;
     jobapi.Affinity := jobapi.Affinity b;
     jobapi.PriorityClass := v;
     jobapi.SchedulingClass := jobapi.SchedulingClass b |}.

Definition set_SchedulingClass (v : Z) (b : jobapi.JOBOBJECT_BASIC_LIMIT_INFORMATION) :=
  {| jobapi.PerProcessUserTimeLimit := jobapi.PerProcessUserTimeLimit b;
     jobapi.PerJobUserTimeLimit := jobapi.PerJobUserTimeLimit b;
     jobapi.LimitFlags := jobapi.LimitFlags b;
     jobapi.MinimumWorkingSetSize := jobapi.MinimumWorkingSetSize b;
     jobapi.MaximumWorkingSetSize := jobapi.MaximumWorkingSetSize b;
     jobapi.ActiveProcessLimit := jobapi.ActiveProcessLimit b;
     jobapi.Affinity := jobapi.Affinity b;
     jobapi.PriorityClass := jobapi.PriorityClass b;
     jobapi.SchedulingClass := v |}.

Definition set_ProcessMemoryLimit (v : Z) (e : jobapi.JOBOBJECT_EXTENDED_LIMIT_INFORMATION) :=
  {| jobapi.BasicLimitInformation := jobapi.BasicLimitInformation e;
     jobapi.IoInfo := jobapi.IoInfo e;
     jobapi.ProcessMemoryLimit := v;
     jobapi.JobMemoryLimit := jobapi.JobMemoryLimit e;
     jobapi.PeakProcessMemoryUsed := jobapi.PeakProcessMemoryUsed e;
     jobapi.PeakJobMemoryUsed := jobapi.PeakJobMemoryUsed e |}.

Definition set_JobMemoryLimit (v : Z) (e : jobapi.JOBOBJECT_EXTENDED_LIMIT_INFORMATION) :=
  {| jobapi.BasicLimitInformation := jobapi.BasicLimitInformation e;
     jobapi.IoInfo := jobapi.IoInfo e;
     jobapi.ProcessMemoryLimit := jobapi.ProcessMemoryLimit e;
     jobapi.JobMemoryLimit := v;
     jobapi.PeakProcessMemoryUsed := jobapi.PeakProcessMemoryUsed e;
     jobapi.PeakJobMemoryUsed := jobapi.PeakJobMemoryUsed e |}.

Definition LimitFlags_of (job : JobObject) : Z :=
  jobapi.LimitFlags (jobapi.BasicLimitInformation (ExtendedLimits (Info job))).

(** [basicLimit]: [set] is [LimitFlags |= l], [reset] is [LimitFlags &^= l],
    [IsSet] is [LimitFlags & l > 0]. *)
Definition basicLimit_set (l : Z) (job : JobObject) : JobObject :=
  upd_BasicLimitInformation (set_LimitFlags (Z.lor (LimitFlags_of job) l)) job.

Definition basicLimit_reset (l : Z) (job : JobObject) : JobObject :=
  upd_BasicLimitInformation (set_LimitFlags (Z.ldiff (LimitFlags_of job) l)) job.

Definition basicLimit_IsSet (l : Z) (job : JobObject) : bool :=
  0 <? Z.land (LimitFlags_of job) l.

(** The limits that carry a value store it and then set their flag. *)
Definition affinityLimit_set (l affinity : Z) (job : JobObject) : JobObject :=
  basicLimit_set l (upd_BasicLimitInformation (set_Affinity affinity) job).

Definition jobMemoryLimit_set (l jobMemory : Z) (job : JobObject) : JobObject :=
  basicLimit_set l (upd_ExtendedLimits (set_JobMemoryLimit jobMemory) job).

Definition jobTimeLimit_set (l jobTime : Z) (job : JobObject) : JobObject :=
  basicLimit_set l (upd_BasicLimitInformation (set_PerJobUserTimeLimit jobTime) job).

Definition processMemoryLimit_set (l processMemory : Z) (job : JobObject) : JobObject :=
  basicLimit_set l (upd_ExtendedLimits (set_ProcessMemoryLimit processMemory) job).

Definition processTimeLimit_set (l processTime : Z) (job : JobObject) : JobObject :=
  basicLimit_set l (upd_BasicLimitInformation (set_PerProcessUserTimeLimit processTime) job).

Definition activeProcessLimit_set (l procs : Z) (job : JobObject) : JobObject :=
  basicLimit_set l (upd_BasicLimitInformation (set_ActiveProcessLimit procs) job).

Definition workingSetLimit_set (l wsMin wsMax : Z) (job : JobObject) : JobObject :=
  basicLimit_set l (upd_BasicLimitInformation (set_WorkingSetSize wsMin wsMax) job).

Definition priorityClassLimit_set (l prio : Z) (job : JobObject) : JobObject :=
  basicLimit_set l (upd_BasicLimitInformation (set_PriorityClass prio) job).

Definition schedulingClassLimit_set (l schedClass : Z) (job : JobObject) : JobObject :=
  basicLimit_set l (upd_BasicLimitInformation (set_SchedulingClass schedClass) job).

(** [uiRestriction] *)
Definition UIClass_of (job : JobObject) : Z :=
  jobapi.UIRestrictionsClass (UIRestrictions (Info job)).

Definition uiRestriction_set (r : Z) (job : JobObject) : JobObject :=
  with_Info job (store (Info job)
    (BlockUI {| jobapi.UIRestrictionsClass := Z.lor (UIClass_of job) r |})).

Definition uiRestriction_reset (r : Z) (job : JobObject) : JobObject :=
  with_Info job (store (Info job)
    (BlockUI {| jobapi.UIRestrictionsClass := Z.ldiff (UIClass_of job) r |})).

Definition uiRestriction_IsSet (r : Z) (job : JobObject) : bool :=
  0 <? Z.land (UIClass_of job) r.

(** [cpuLimit] *)
Definition cpuLimit_reset (l : CPURate) (job : JobObject) : JobObject :=
  with_Info job (store (Info job)
    (BlockCPU {| jobapi.ControlFlags := 0;
                 jobapi.Value := jobapi.Value (CPURateControl (Info job)) |})).

Definition cpuLimit_IsSet (l : CPURate) (job : JobObject) : bool :=
  negb (jobapi.ControlFlags (CPURateControl (Info job)) =? 0).

(** [cpuLimit.LimitValue]: the first matching case of the switch decides
    how [Value] is read.  In the min/max case the four bytes written from
    [Value] are split in two halves. *)
Definition cpuLimit_LimitValue (l : CPURate) (job : JobObject) : CPURate :=
  let cpu := CPURateControl (Info job) in
  if 0 <? Z.land (jobapi.ControlFlags cpu) jobapi.JOB_OBJECT_CPU_RATE_CONTROL_HARD_CAP then
    {| Min := 0; Max := 0; Weight := 0; HardCap := jobapi.Value cpu |}
  else if 0 <? Z.land (jobapi.ControlFlags cpu) jobapi.JOB_OBJECT_CPU_RATE_CONTROL_WEIGHT_BASED then
    {| Min := 0; Max := 0; Weight := jobapi.Value cpu; HardCap := 0 |}
  else if 0 <? Z.land (jobapi.ControlFlags cpu) jobapi.JOB_OBJECT_CPU_RATE_CONTROL_MIN_MAX_RATE then
    let b := Go.Write_uint32 [] (jobapi.Value cpu) in
    {| Min := default 0 (Go.Uint16 (take 2 b));
       Max := default 0 (Go.Uint16 (drop 2 b));
       Weight := 0; HardCap := 0 |}
  else
    {| Min := 0; Max := 0; Weight := 0; HardCap := 0 |}.

(** [cpuLimit.set]: the switch picks the value and the sub-mode flag [f];
    when no case matches, [f] keeps its zero value and [Value] is left.
    The control flags are then overwritten.  ([default 0] stands at the two
    places where a short slice would panic; the buffers hold four bytes.) *)
Definition cpuLimit_set (l : CPURate) (job : JobObject) : JobObject :=
  let cpu := CPURateControl (Info job) in
  let '(value, f) :=
    if 0 <? HardCap l then
      (HardCap l, jobapi.JOB_OBJECT_CPU_RATE_CONTROL_HARD_CAP)
    else if 0 <? Weight l then
      (Weight l, jobapi.JOB_OBJECT_CPU_RATE_CONTROL_WEIGHT_BASED)
    else if 0 <? Max l then
      let b := Go.Write_uint16 (Go.Write_uint16 [] (Min l)) (Max l) in
      (default 0 (Go.Uint32 b), jobapi.JOB_OBJECT_CPU_RATE_CONTROL_MIN_MAX_RATE)
    else
      (jobapi.Value cpu, 0) in
  with_Info job (store (Info job)
    (BlockCPU {| jobapi.ControlFlags :=
                   Z.lor (Z.lor f jobapi.JOB_OBJECT_CPU_RATE_CONTROL_ENABLE)
                         jobapi.JOB_OBJECT_CPU_RATE_CONTROL_NOTIFY;
                 jobapi.Value := value |})).

(** The constructors of the limits. *)
Definition LimitBreakawayOK := basicLimit jobapi.JOB_OBJECT_LIMIT_BREAKAWAY_OK.
Definition LimitDieOnUnhandledException :=
  basicLimit jobapi.JOB_OBJECT_LIMIT_DIE_ON_UNHANDLED_EXCEPTION.
Definition LimitKillOnJobClose := basicLimit jobapi.JOB_OBJECT_LIMIT_KILL_ON_JOB_CLOSE.
Definition LimitPreserveJobTime := basicLimit jobapi.JOB_OBJECT_LIMIT_PRESERVE_JOB_TIME.
Definition LimitSubsetAffinity := basicLimit jobapi.JOB_OBJECT_LIMIT_SUBSET_AFFINITY.
Definition LimitSilentBreakawayOK := basicLimit jobapi.JOB_OBJECT_LIMIT_SILENT_BREAKAWAY_OK.

Definition LimitDesktop := uiRestriction jobapi.JOB_OBJECT_UILIMIT_DESKTOP.
Definition LimitDisplaySettings := uiRestriction jobapi.JOB_OBJECT_UILIMIT_DISPLAYSETTINGS.
Definition LimitExitWindows := uiRestriction jobapi.JOB_OBJECT_UILIMIT_EXITWINDOWS.
Definition LimitGlobalAtoms := uiRestriction jobapi.JOB_OBJECT_UILIMIT_GLOBALATOMS.
Definition LimitHandles := uiRestriction jobapi.JOB_OBJECT_UILIMIT_HANDLES.
Definition LimitSystemParameters := uiRestriction jobapi.JOB_OBJECT_UILIMIT_SYSTEMPARAMETERS.
Definition LimitWriteClipboard := uiRestriction jobapi.JOB_OBJECT_UILIMIT_WRITECLIPBOARD.
Definition LimitReadClipboard := uiRestriction jobapi.JOB_OBJECT_UILIMIT_READCLIPBOARD.

Definition WithAffinity (x : Z) := affinityLimit jobapi.JOB_OBJECT_LIMIT_AFFINITY x.
Definition WithJobMemoryLimit (x : Z) := jobMemoryLimit jobapi.JOB_OBJECT_LIMIT_JOB_MEMORY x.
Definition WithProcessMemoryLimit (x : Z) :=
  processMemoryLimit jobapi.JOB_OBJECT_LIMIT_PROCESS_MEMORY x.
Definition WithActiveProcessLimit (x : Z) :=
  activeProcessLimit jobapi.JOB_OBJECT_LIMIT_ACTIVE_PROCESS x.
Definition WithWorkingSetLimit (min max : Z) :=
  workingSetLimit jobapi.JOB_OBJECT_LIMIT_WORKINGSET min max.
Definition WithPriorityClassLimit (x : Z) :=
  priorityClassLimit jobapi.JOB_OBJECT_LIMIT_PRIORITY_CLASS x.
Definition WithSchedulingClassLimit (x : Z) :=
  schedulingClassLimit jobapi.JOB_OBJECT_LIMIT_SCHEDULING_CLASS x.

Definition WithCPUHardCapLimit (v : Z) : Limit :=
  cpuLimit {| Min := 0; Max := 0; Weight := 0; HardCap := v |}.
Definition WithCPUWeightedLimit (v : Z) : Limit :=
  cpuLimit {| Min := 0; Max := 0; Weight := v; HardCap := 0 |}.
Definition WithCPUMinMaxLimit (min max : Z) : Limit :=
  cpuLimit {| Min := min; Max := max; Weight := 0; HardCap := 0 |}.

(** The limits that are a single boolean flag. *)
Definition booleanFlagLimits : list Limit :=
  [ LimitBreakawayOK; LimitDieOnUnhandledException; LimitKillOnJobClose;
    LimitPreserveJobTime; LimitSubsetAffinity; LimitSilentBreakawayOK;
    LimitDesktop; LimitDisplaySettings; LimitExitWindows; LimitGlobalAtoms;
    LimitHandles; LimitSystemParameters; LimitWriteClipboard; LimitReadClipboard ].

(** [resolveRequiredInfoClass] *)
Definition resolveRequiredInfoClass (limit : Limit) : jobapi.JobObjectInformationClass :=
  match limit with
  | uiRestriction _ => jobapi.JobObjectBasicUIRestrictions
  | cpuLimit _ => jobapi.JobObjectCpuRateControlInformation
  | netBandwidthLimit _ | netDSCPTagLimit _ => jobapi.JobObjectNetRateControlInformation
  | _ => jobapi.JobObjectExtendedLimitInformation
  end.

(** ** The limit protocol *)

Section LimitProtocol.

(** Modelled from the spec: the methods of [netBandwidthLimit] and
    [netDSCPTagLimit] are in a file of the package that is not at hand.
    The spec says a limit belongs to exactly one InfoBlock and that the two
    network limits are independently settable bits of one control block, so
    each method is taken as an arbitrary function on the net-rate block. *)
Variable netBandwidthLimit_set netBandwidthLimit_reset :
  Z -> jobapi.JOBOBJECT_NET_RATE_CONTROL_INFORMATION -> jobapi.JOBOBJECT_NET_RATE_CONTROL_INFORMATION.
Variable netDSCPTagLimit_set netDSCPTagLimit_reset :
  Z -> jobapi.JOBOBJECT_NET_RATE_CONTROL_INFORMATION -> jobapi.JOBOBJECT_NET_RATE_CONTROL_INFORMATION.
Variable netBandwidthLimit_IsSet netDSCPTagLimit_IsSet :
  Z -> jobapi.JOBOBJECT_NET_RATE_CONTROL_INFORMATION -> bool.

(** The order in which [for k := range classesSet] visits the keys of the
    map: Go leaves it unspecified, any order of the keys can occur. *)
Variable rangeOrder : gset jobapi.JobObjectInformationClass -> list jobapi.JobObjectInformationClass.
Hypothesis rangeOrder_perm : forall s, rangeOrder s ≡ₚ elements s.

Definition upd_NetRateControl
    (f : jobapi.JOBOBJECT_NET_RATE_CONTROL_INFORMATION -> jobapi.JOBOBJECT_NET_RATE_CONTROL_INFORMATION)
    (job : JobObject) : JobObject :=
  with_Info job (store (Info job) (BlockNet (f (NetRateControl (Info job))))).

(** [limit.set(job)], by the dynamic type of the limit. *)
Definition Limit_set (limit : Limit) (job : JobObject) : JobObject :=
  match limit with
  | basicLimit l => basicLimit_set l job
  | affinityLimit l affinity => affinityLimit_set l affinity job
  | jobMemoryLimit l jobMemory => jobMemoryLimit_set l jobMemory job
  | jobTimeLimit l jobTime => jobTimeLimit_set l jobTime job
  | processMemoryLimit l processMemory => processMemoryLimit_set l processMemory job
  | processTimeLimit l processTime => processTimeLimit_set l processTime job
  | activeProcessLimit l procs => activeProcessLimit_set l procs job
  | workingSetLimit l wsMin wsMax => workingSetLimit_set l wsMin wsMax job
  | priorityClassLimit l prio => priorityClassLimit_set l prio job
  | schedulingClassLimit l schedClass => schedulingClassLimit_set l schedClass job
  | uiRestriction r => uiRestriction_set r job
  | cpuLimit r => cpuLimit_set r job
  | netBandwidthLimit v => upd_NetRateControl (netBandwidthLimit_set v) job
  | netDSCPTagLimit v => upd_NetRateControl (netDSCPTagLimit_set v) job
  end.

(** [limit.reset(job)]: the structs that embed [basicLimit] have no
    [reset] of their own, the promoted one clears the flag only. *)
Definition Limit_reset (limit : Limit) (job : JobObject) : JobObject :=
  match limit with
  | uiRestriction r => uiRestriction_reset r job
  | cpuLimit r => cpuLimit_reset r job
  | netBandwidthLimit v => upd_NetRateControl (netBandwidthLimit_reset v) job
  | netDSCPTagLimit v => upd_NetRateControl (netDSCPTagLimit_reset v) job
  | basicLimit l | affinityLimit l _ | jobMemoryLimit l _ | jobTimeLimit l _
  | processMemoryLimit l _ | processTimeLimit l _ | activeProcessLimit l _
  | workingSetLimit l _ _ | priorityClassLimit l _ | schedulingClassLimit l _ =>
      basicLimit_reset l job
  end.

(** The body of the loop of [applyLimit] on the cache: [set] or [reset]. *)
Definition merged (set : bool) (limit : Limit) (job : JobObject) : JobObject :=
  if set then Limit_set limit job else Limit_reset limit job.

(** [limit.IsSet(job)] *)
Definition IsSet (limit : Limit) (job : JobObject) : bool :=
  match limit with
  | uiRestriction r => uiRestriction_IsSet r job
  | cpuLimit r => cpuLimit_IsSet r job
  | netBandwidthLimit v => netBandwidthLimit_IsSet v (NetRateControl (Info job))
  | netDSCPTagLimit v => netDSCPTagLimit_IsSet v (NetRateControl (Info job))
  | basicLimit l | affinityLimit l _ | jobMemoryLimit l _ | jobTimeLimit l _
  | processMemoryLimit l _ | processTimeLimit l _ | activeProcessLimit l _
  | workingSetLimit l _ _ | priorityClassLimit l _ | schedulingClassLimit l _ =>
      basicLimit_IsSet l job
  end.

(** The first loop of [applyLimit]: [classesSet] is the map of the
    classes queried so far. *)
Fixpoint applyLoop (set : bool) (limits : list Limit)
    (classesSet : gset jobapi.JobObjectInformationClass) (job : JobObject)
    : IO (JobObject * gset jobapi.JobObjectInformationClass * option Go.error) :=
  match limits with
  | [] => ret (job, classesSet, None)
  | limit :: rest =>
      let infoClass := resolveRequiredInfoClass limit in
      let* (job, e) :=
        (if bool_decide (infoClass ∈ classesSet) then ret (job, None)
         else sync QueryInfo [infoClass] job) in
      match e with
      | Some _ => ret (job, classesSet, e)
      | None =>
          let classesSet := {[infoClass]} ∪ classesSet in
          let* _ := emit (EvMerge set limit) in
          let job := if set then Limit_set limit job else Limit_reset limit job in
          applyLoop set rest classesSet job
      end
  end.

(** [job.applyLimit(set, limits...)] *)
Definition applyLimit (set : bool) (limits : list Limit) (job : JobObject)
    : IO (JobObject * option Go.error) :=
  let* (job, classesSet, e) := applyLoop set limits ∅ job in
  match e with
  | Some _ => ret (job, e)
  | None =>
      let infoClasses := rangeOrder classesSet in
      sync SetInfo infoClasses job
  end.

(** [job.SetLimit(limits...)] and [job.ResetLimit(limits...)] *)
Definition SetLimit (limits : list Limit) (job : JobObject) := applyLimit true limits job.
Definition ResetLimit (limits : list Limit) (job : JobObject) := applyLimit false limits job.

(** [Create(name, limits...)]: the result is the job, [None] for the nil
    pointer, and the error. *)
Definition Create (name : string) (limits : list Limit)
    : IO (option JobObject * option Go.error) :=
  let* (hJobObject, e) := jobapi_calls.CreateJobObject name in
  match e with
  | Some _ => ret (None, e)
  | None =>
      let job := {| Name := name; Handle := hJobObject; Info := zero_JobInfo |} in
      if bool_decide (length limits ≠ 0%nat) then
        let* (job', e) := SetLimit limits job in
        match e with
        | Some _ =>
            let* _ := JobObject_Close job' in
            ret (None, e)
        | None => ret (Some job', None)
        end
      else ret (Some job, None)
  end.

End LimitProtocol.

(** ** The notification subscription *)

(** [notificationTypes], looked up by [resolveNotificationType]. *)
Definition resolveNotificationType (mType : Z) : option string :=
  if decide (mType = 1) then Some "EndOfJobTime"%string
  else if decide (mType = 2) then Some "EndOfProcessTime"%string
  else if decide (mType = 3) then Some "ActiveProcessLimit"%string
  else if decide (mType = 4) then Some "ActiveProcessZero"%string
  else if decide (mType = 6) then Some "NewProcess"%string
  else if decide (mType = 7) then Some "ExitProcess"%string
  else if decide (mType = 8) then Some "AbnormalExitProcess"%string
  else if decide (mType = 9) then Some "ProcessMemoryExit"%string
  else if decide (mType = 10) then Some "JobMemoryLimit"%string
  else if decide (mType = 11) then Some "NotificationLimit"%string
  else if decide (mType = 12) then Some "JobCycleLimit"%string
  else if decide (mType = 13) then Some "SiloTerminated"%string
  else None.

(** [p.Close()] is [syscall.CloseHandle] on the port handle. *)
Definition Port_Close (p : Z) : IO (option Go.error) := kernel_close p.

(** [p.NextMessage()], for a given outcome of the dequeue. *)
Definition NextMessage (p : Z) (outcome : Z * Z + Go.error)
    : IO (Notification * option Go.error) :=
  let* (mType, pid, e) := jobapi_calls.GetQueuedCompletionStatus p outcome in
  match e with
  | Some _ => ret ({| Type_ := Named ""; PID := 0 |}, e)
  | None =>
      let typ := match resolveNotificationType mType with
                 | Some t => Named t
                 | None => Unknown mType
                 end in
      ret ({| Type_ := typ; PID := pid |}, None)
  end.

(** [s.mu.Lock()] and [s.mu.Unlock()].  A function of the subscription is
    entered with the mutex free: a goroutine that finds it held waits, and
    runs when the holder has left. *)
Definition Lock (s : Subscription) : IO Subscription :=
  let* _ := emit EvLock in
  ret {| Port := Port s; mu := true; err := err s; closed := closed s |}.

Definition Unlock (s : Subscription) : IO Subscription :=
  let* _ := emit EvUnlock in
  ret {| Port := Port s; mu := false; err := err s; closed := closed s |}.

(** [s.Close()]; the deferred [Unlock] runs at each return. *)
Definition Subscription_Close (s : Subscription) : IO (Subscription * option Go.error) :=
  let* s := Lock s in
  if closed s then
    let* s := Unlock s in
    ret (s, None)
  else
    let* e := Port_Close (Port s) in
    match e with
    | Some _ =>
        let* s := Unlock s in
        ret (s, e)
    | None =>
        let* _ := emit EvSetClosed in
        let s := {| Port := Port s; mu := mu s; err := err s; closed := true |} in
        let* s := Unlock s in
        ret (s, None)
    end.

(** [s.Err()] *)
Definition Subscription_Err (s : Subscription) : IO (Subscription * option Go.error) :=
  let* s := Lock s in
  let e := err s in
  let* s := Unlock s in
  ret (s, e).

(** [s.handlePortErr(err)] *)
Definition handlePortErr (s : Subscription) (e : option Go.error) : IO Subscription :=
  let* s := Lock s in
  if Go.errors_Is e jobapi.ErrAbandoned && closed s then
    Unlock s
  else
    let* _ := emit (EvSetErr e) in
    let s := {| Port := Port s; mu := mu s; err := e; closed := closed s |} in
    Unlock s.

(** One turn of the loop in [s.notify(c)]: [true] when the loop goes on.
    On an error the loop returns and the deferred [close(c)] runs. *)
Definition notify_turn (s : Subscription) (outcome : Z * Z + Go.error)
    : IO (Subscription * bool) :=
  let* (m, e) := NextMessage (Port s) outcome in
  match e with
  | Some _ =>
      let* s := handlePortErr s e in
      let* _ := emit EvCloseChan in
      ret (s, false)
  | None =>
      let* _ := emit (EvSend m) in
      ret (s, true)
  end.

(** [s.notify(c)] against the outcomes of its successive dequeues.  The
    result is [true] while the loop is still waiting for the next one. *)
Fixpoint notify (s : Subscription) (outcomes : list (Z * Z + Go.error))
    : IO (Subscription * bool) :=
  match outcomes with
  | [] => ret (s, true)
  | outcome :: rest =>
      let* (s, going) := notify_turn s outcome in
      if going then notify s rest else ret (s, false)
  end.

(** The subscription with its goroutine, by whole actions: a call of
    [Close] from outside or a turn of the loop.  The critical sections of
    [Close] and [handlePortErr] exclude one another and the fields they
    read and write are touched nowhere else, so for the state of the
    subscription and for what the functions return an interleaving is a
    sequence of whole actions.  The events the loop logs outside the mutex
    (the wait on the port, the send, the closing of the sink) are placed
    at its turn, though in the program they can fall within a [Close];
    the statements are scheduled one by one in [turns] below. *)
Inductive Action :=
| ActClose
| ActDequeue (outcome : Z * Z + Go.error).

Record System := {
  sub : Subscription;
  looping : bool;
  closes : list (option Go.error)
}.

Definition act (a : Action) (sys : System) : IO System :=
  match a with
  | ActClose =>
      let* (s, e) := Subscription_Close (sub sys) in
      ret {| sub := s; looping := looping sys; closes := closes sys ++ [e] |}
  | ActDequeue outcome =>
      if looping sys then
        let* (s, going) := notify_turn (sub sys) outcome in
        ret {| sub := s; looping := going; closes := closes sys |}
      else ret sys
  end.

Fixpoint run (acts : list Action) (sys : System) : IO System :=
  match acts with
  | [] => ret sys
  | a :: rest =>
      let* sys := act a sys in
      run rest sys
  end.

(** [Notify] hands out the subscription with the loop started. *)
Definition started (p : Z) : System :=
  {| sub := {| Port := p; mu := false; err := None; closed := false |};
     looping := true; closes := [] |}.

(** What an observer of the log knows about the subscription on port [p]:
    is the mutex held, is the closed flag set, is the port handle released
    (a [CloseHandle] on it went through). *)
Record View := {
  held : bool;
  flagged : bool;
  released : bool
}.

Definition observe (p : Z) (v : View) (e : Event) : View :=
  match e with
  | EvLock => {| held := true; flagged := flagged v; released := released v |}
  | EvUnlock => {| held := false; flagged := flagged v; released := released v |}
  | EvSetClosed => {| held := held v; flagged := true; released := released v |}
  | EvCloseHandle h None =>
      {| held := held v; flagged := flagged v;
         released := if decide (h = p) then true else released v |}
  | _ => v
  end.

(** The views after each event of a log, the starting view first. *)
Fixpoint views (p : Z) (v : View) (evs : list Event) : list View :=
  match evs with
  | [] => [v]
  | e :: rest => v :: views p (observe p v e) rest
  end.

(** Counting and locating events. *)
Definition query_of (e : Event) : option jobapi.JobObjectInformationClass :=
  match e with EvQueryInformationJobObject _ c _ => Some c | _ => None end.

Definition write_of (e : Event) : option jobapi.JobObjectInformationClass :=
  match e with EvSetInformationJobObject _ c _ => Some c | _ => None end.

Definition merge_of (e : Event) : option Limit :=
  match e with EvMerge _ l => Some l | _ => None end.

Definition is_close (e : Event) : bool :=
  match e with EvCloseHandle _ _ => true | _ => false end.

(** The last error of a kernel call of the log; [None] for a call that
    went through and for an event that is no kernel call. *)
Definition failure_of (e : Event) : option Go.error :=
  match e with
  | EvCreateJobObject _ r
  | EvQueryInformationJobObject _ _ r
  | EvSetInformationJobObject _ _ r
  | EvCloseHandle _ r
  | EvGetQueuedCompletionStatus _ r => r
  | _ => None
  end.

(** How many queries and how many write-backs of class [c] a log holds. *)
Definition queries (c : jobapi.JobObjectInformationClass) (evs : list Event) : nat :=
  length (filter (fun e => query_of e = Some c) evs).

Definition writes (c : jobapi.JobObjectInformationClass) (evs : list Event) : nat :=
  length (filter (fun e => write_of e = Some c) evs).

Definition count (e : Event) (evs : list Event) : nat :=
  length (filter (fun x => x = e) evs).

(** The classes a list of limits targets. *)
Definition targets (limits : list Limit) : list jobapi.JobObjectInformationClass :=
  map resolveRequiredInfoClass limits.

(** ** Vocabulary of the statements *)

(** The events logged between two worlds. *)
Definition since (w w' : World) : list Event :=
  drop (length (trace w)) (trace w').

(** The receiver [LimitCPU] of the CPU accessors: the zero [cpuLimit]. *)
Definition LimitCPU : CPURate := {| Min := 0; Max := 0; Weight := 0; HardCap := 0 |}.

(** The sub-mode flags of the CPU-rate block that are on in [flags]. *)
Definition active_submodes (flags : Z) : list Z :=
  filter (fun f => 0 < Z.land flags f)
    [ jobapi.JOB_OBJECT_CPU_RATE_CONTROL_HARD_CAP;
      jobapi.JOB_OBJECT_CPU_RATE_CONTROL_WEIGHT_BASED;
      jobapi.JOB_OBJECT_CPU_RATE_CONTROL_MIN_MAX_RATE ].

Definition CPUFlags_of (job : JobObject) : Z :=
  jobapi.ControlFlags (CPURateControl (Info job)).

(** A limit block is non-empty when its flag field has a bit on. *)
Definition nonempty (info : JobInfo) (c : jobapi.JobObjectInformationClass) : Prop :=
  match c with
  | jobapi.JobObjectExtendedLimitInformation =>
      0 < jobapi.LimitFlags (jobapi.BasicLimitInformation (ExtendedLimits info))
  | jobapi.JobObjectBasicUIRestrictions => 0 < jobapi.UIRestrictionsClass (UIRestrictions info)
  | jobapi.JobObjectCpuRateControlInformation => 0 < jobapi.ControlFlags (CPURateControl info)
  | jobapi.JobObjectNetRateControlInformation => 0 < jobapi.NetControlFlags (NetRateControl info)
  | jobapi.JobObjectBasicAndIoAccountingInformation => False
  end.

(** The four limit blocks, in the order [QueryLimits] asks for them. *)
Definition limitClasses : list jobapi.JobObjectInformationClass :=
  [ jobapi.JobObjectExtendedLimitInformation;
    jobapi.JobObjectBasicUIRestrictions;
    jobapi.JobObjectCpuRateControlInformation;
    jobapi.JobObjectNetRateControlInformation ].

(** The flag field a boolean limit lives in, and that field replaced. *)
Definition flag_field (limit : Limit) (job : JobObject) : Z :=
  match limit with
  | uiRestriction _ => UIClass_of job
  | _ => LimitFlags_of job
  end.

Definition with_flag_field (limit : Limit) (v : Z) (job : JobObject) : JobObject :=
  match limit with
  | uiRestriction _ =>
      with_Info job (store (Info job) (BlockUI {| jobapi.UIRestrictionsClass := v |}))
  | _ => upd_BasicLimitInformation (set_LimitFlags v) job
  end.

Definition flag_of (limit : Limit) : Z :=
  match limit with
  | uiRestriction r => r
  | basicLimit l => l
  | _ => 0
  end.

(** A world with more events in its log and nothing else changed. *)
Definition logged (w : World) (evs : list Event) : World :=
  {| kernel := kernel w; live := live w; next := next w; faults := faults w;
     trace := trace w ++ evs |}.

(** The notification [NextMessage] makes of a packet. *)
Definition message (packet : Z * Z) : Notification :=
  {| Type_ := match resolveNotificationType (fst packet) with
              | Some t => Named t
              | None => Unknown (fst packet)
              end;
     PID := snd packet |}.

(** The subscription with the mutex free and the terminal error [e]. *)
Definition with_err (s : Subscription) (e : option Go.error) : Subscription :=
  {| Port := Port s; mu := false; err := e; closed := closed s |}.

(** A world after a kernel call: one entry of the failure schedule is
    used up and the call is in the log. *)
Definition called (w : World) (ev : Event) : World :=
  {| kernel := kernel w; live := live w; next := next w; faults := tail (faults w);
     trace := trace w ++ [ev] |}.

Definition with_kernel (w : World) (k : JobInfo) : World :=
  {| kernel := k; live := live w; next := next w; faults := faults w; trace := trace w |}.

(** The log of the first loop of [applyLimit] when every query goes
    through: a limit whose class is not among [seen] is preceded by the
    query of that class. *)
Fixpoint loop_log (set : bool) (h : Z) (limits : list Limit)
    (seen : gset jobapi.JobObjectInformationClass) : list Event :=
  match limits with
  | [] => []
  | limit :: rest =>
      let c := resolveRequiredInfoClass limit in
      (if bool_decide (c ∈ seen) then [] else [EvQueryInformationJobObject h c None])
      ++ EvMerge set limit :: loop_log set h rest ({[c]} ∪ seen)
  end.

(** The view of a subscription that has just been handed out. *)
Definition start_view : View := {| held := false; flagged := false; released := false |}.

(** What the kernel answers to the next call on handle [h]. *)
Definition kernel_verdict (h : Z) (w : World) : option Go.error :=
  match faults w with
  | Some e :: _ => Some e
  | _ => if bool_decide (h ∈ live w) then None else Some Go.ERROR_INVALID_HANDLE
  end.

Definition is_send (e : Event) : bool :=
  match e with EvSend _ => true | _ => false end.

Definition is_failure (a : Action) : bool :=
  match a with ActDequeue (inr _) => true | _ => false end.

Definition is_ActClose (a : Action) : bool :=
  match a with ActClose => true | _ => false end.

(** What one action of the subscription does to the state and the log. *)
Record step_facts (a : Action) (sys sys' : System) (evs : list Event) : Prop := {
  sf_stopped : looping sys = false ->
               looping sys' = false /\ forall e, e ∈ evs -> is_send e = false /\ e <> EvCloseChan;
  sf_going : looping sys' = true -> forall e, e ∈ evs -> e <> EvCloseChan;
  sf_exit : looping sys = true -> looping sys' = false ->
            exists pre, evs = pre ++ [EvCloseChan] /\ EvCloseChan ∉ pre;
  sf_closed : closed (sub sys) = true ->
              closed (sub sys') = true /\
              closes sys' = closes sys ++ (if is_ActClose a then [None] else []) /\
              forall e, e ∈ evs -> is_close e = false;
  sf_closes : (None ∈ closes sys -> closed (sub sys) = true) ->
              (None ∈ closes sys' -> closed (sub sys') = true);
  sf_looping : looping sys' = looping sys && negb (is_failure a)
}.

(** Sample data. *)
Module Sample.

Definition accounting : jobapi.JOBOBJECT_BASIC_AND_IO_ACCOUNTING_INFORMATION :=
  {| jobapi.Basic :=
       {| jobapi.TotalUserTime := 1; jobapi.TotalKernelTime := 2;
          jobapi.ThisPeriodTotalUserTime := 3; jobapi.ThisPeriodTotalKernelTime := 4;
          jobapi.TotalPageFaultCount := 5; jobapi.TotalProcesses := 6;
          jobapi.ActiveProcesses := 7; jobapi.TotalTerminatedProcesses := 8 |};
     jobapi.Io :=
       {| jobapi.ReadOperationCount := 9; jobapi.WriteOperationCount := 10;
          jobapi.OtherOperationCount := 11; jobapi.ReadTransferCount := 12;
          jobapi.WriteTransferCount := 13; jobapi.OtherTransferCount := 14 |} |}.

(** A job on the open handle 7 with an empty cache. *)
Definition job : JobObject := {| Name := ""; Handle := 7; Info := zero_JobInfo |}.

(** A kernel that holds [accounting] and no limits; handle 7 is open and
    no failure is scheduled. *)
Definition world : World :=
  {| kernel := store zero_JobInfo (BlockAccounting accounting);
     live := [7]; next := 8%positive; faults := []; trace := [] |}.

(** The same kernel after handle 7 has been closed. *)
Definition world_closed : World :=
  {| kernel := store zero_JobInfo (BlockAccounting accounting);
     live := []; next := 8%positive; faults := []; trace := [] |}.

(** A kernel in which the job already has limits of two blocks. *)
Definition world_limited : World :=
  {| kernel :=
       store (store zero_JobInfo
                (BlockUI {| jobapi.UIRestrictionsClass := jobapi.JOB_OBJECT_UILIMIT_DESKTOP |}))
             (BlockCPU {| jobapi.ControlFlags := 5; jobapi.Value := 500 |});
     live := [7]; next := 8%positive; faults := []; trace := [] |}.

Definition counters : Counters :=
  {| TotalUserTime := 0; TotalKernelTime := 0; ThisPeriodTotalUserTime := 0;
     ThisPeriodTotalKernelTime := 0; TotalPageFaultCount := 0; TotalProcesses := 0;
     ActiveProcesses := 0; TotalTerminatedProcesses := 0; ReadOperationCount := 0;
     WriteOperationCount := 0; OtherOperationCount := 0; ReadTransferCount := 0;
     WriteTransferCount := 0; OtherTransferCount := 0 |}.

(** The job on handle 7 with a stale cache: the desktop restriction is on. *)
Definition job_stale : JobObject :=
  {| Name := ""; Handle := 7;
     Info := store zero_JobInfo
               (BlockUI {| jobapi.UIRestrictionsClass := jobapi.JOB_OBJECT_UILIMIT_DESKTOP |}) |}.

(** A kernel with no handle open yet that lets the first call through and
    fails the second with ERROR_ACCESS_DENIED. *)
Definition world_second_fails : World :=
  {| kernel := zero_JobInfo; live := []; next := 8%positive;
     faults := [None; Some (Go.Errno 5)]; trace := [] |}.

(** A subscription on port 7, open and with its mutex free. *)
Definition subscription : Subscription :=
  {| Port := 7; mu := false; err := None; closed := false |}.

(** Stand-ins for the methods of the two network limits. *)
Definition net_flag (bit : Z) (on : bool) (v : Z)
    (b : jobapi.JOBOBJECT_NET_RATE_CONTROL_INFORMATION)
    : jobapi.JOBOBJECT_NET_RATE_CONTROL_INFORMATION :=
  {| jobapi.MaxBandwidth := jobapi.MaxBandwidth b;
     jobapi.NetControlFlags :=
       if on then Z.lor (jobapi.NetControlFlags b) bit
       else Z.ldiff (jobapi.NetControlFlags b) bit;
     jobapi.DscpTag := jobapi.DscpTag b |}.

(** Two orders in which a map can be ranged over. *)
Definition as_listed (s : gset jobapi.JobObjectInformationClass) := elements s.
Definition reversed (s : gset jobapi.JobObjectInformationClass) := reverse (elements s).

Definition SetLimit := SetLimit (net_flag 2 true) (net_flag 2 false)
                                (net_flag 4 true) (net_flag 4 false) reversed.
Definition ResetLimit := ResetLimit (net_flag 2 true) (net_flag 2 false)
                                    (net_flag 4 true) (net_flag 4 false) reversed.
Definition Create := Create (net_flag 2 true) (net_flag 2 false)
                            (net_flag 4 true) (net_flag 4 false) reversed.
Definition Limit_set := Limit_set (net_flag 2 true) (net_flag 4 true).
Definition Limit_reset := Limit_reset (net_flag 2 false) (net_flag 4 false).
Definition IsSet := IsSet (fun _ b => 0 <? Z.land (jobapi.NetControlFlags b) 2)
                          (fun _ b => 0 <? Z.land (jobapi.NetControlFlags b) 4).

End Sample.

(** ** Limits: reading the values back *)

(** Arithmetic on [int64] wraps around. *)
Definition wrap_int64 (z : Z) : Z := (z + 2 ^ 63) mod 2 ^ 64 - 2 ^ 63.

(** Time limits and counters are specified in 100-nanosecond ticks. *)
Definition timeFraction : Z := 100.

(** [LimitJobTime.WithValue(x)] and [LimitProcessTime.WithValue(x)] keep
    [x.Nanoseconds() / timeFraction]; the division of Go truncates toward
    zero. *)
Definition WithJobTimeLimit (x : Z) : Limit :=
  jobTimeLimit jobapi.JOB_OBJECT_LIMIT_JOB_TIME (x ÷ timeFraction).
Definition WithProcessTimeLimit (x : Z) : Limit :=
  processTimeLimit jobapi.JOB_OBJECT_LIMIT_PROCESS_TIME (x ÷ timeFraction).

Definition BasicLimits_of (job : JobObject) : jobapi.JOBOBJECT_BASIC_LIMIT_INFORMATION :=
  jobapi.BasicLimitInformation (ExtendedLimits (Info job)).

(** The [LimitValue] methods. *)
Definition affinityLimit_LimitValue (job : JobObject) : Z :=
  jobapi.Affinity (BasicLimits_of job).

Definition jobMemoryLimit_LimitValue (job : JobObject) : Z :=
  jobapi.JobMemoryLimit (ExtendedLimits (Info job)).

Definition jobTimeLimit_LimitValue (job : JobObject) : Z :=
  wrap_int64 (jobapi.PerJobUserTimeLimit (BasicLimits_of job) * timeFraction).

Definition processMemoryLimit_LimitValue (job : JobObject) : Z :=
  jobapi.ProcessMemoryLimit (ExtendedLimits (Info job)).

Definition processTimeLimit_LimitValue (job : JobObject) : Z :=
  wrap_int64 (jobapi.PerProcessUserTimeLimit (BasicLimits_of job) * timeFraction).

Definition activeProcessLimit_LimitValue (job : JobObject) : Z :=
  jobapi.ActiveProcessLimit (BasicLimits_of job).

Definition workingSetLimit_MinWorkingSetSize (job : JobObject) : Z :=
  jobapi.MinimumWorkingSetSize (BasicLimits_of job).

Definition workingSetLimit_MaxWorkingSetSize (job : JobObject) : Z :=
  jobapi.MaximumWorkingSetSize (BasicLimits_of job).

Definition priorityClassLimit_LimitValue (job : JobObject) : Z :=
  jobapi.PriorityClass (BasicLimits_of job).

Definition schedulingClassLimit_LimitValue (job : JobObject) : Z :=
  jobapi.SchedulingClass (BasicLimits_of job).

(** What [Value] returns as an [interface{}]: the value with its dynamic
    type. *)
Inductive GoValue :=
| VBool (b : bool)
| VUintptr (v : Z)
| VDuration (d : Z)
| VUint32 (v : Z)
| VUint64 (v : Z)
| VByte (v : Z)
| VPriorityClass (v : Z)
| VCPURate (r : CPURate).

Section LimitValues.

(** The [Value] methods of the two network limits, as their other methods. *)
Variable netBandwidthLimit_Value netDSCPTagLimit_Value :
  Z -> jobapi.JOBOBJECT_NET_RATE_CONTROL_INFORMATION -> GoValue.

(** [limit.Value(job)], by the dynamic type of the limit.  [basicLimit] and
    [uiRestriction] return [IsSet]; [workingSetLimit] has no [Value] of its
    own and the promoted one of [basicLimit] is called; the others return
    their [LimitValue]. *)
Definition Limit_Value (limit : Limit) (job : JobObject) : GoValue :=
  match limit with
  | basicLimit l => VBool (basicLimit_IsSet l job)
  | affinityLimit _ _ => VUintptr (affinityLimit_LimitValue job)
  | jobMemoryLimit _ _ => VUintptr (jobMemoryLimit_LimitValue job)
  | jobTimeLimit _ _ => VDuration (jobTimeLimit_LimitValue job)
  | processMemoryLimit _ _ => VUintptr (processMemoryLimit_LimitValue job)
  | processTimeLimit _ _ => VDuration (processTimeLimit_LimitValue job)
  | activeProcessLimit _ _ => VUint32 (activeProcessLimit_LimitValue job)
  | workingSetLimit l _ _ => VBool (basicLimit_IsSet l job)
  | priorityClassLimit _ _ => VPriorityClass (priorityClassLimit_LimitValue job)
  | schedulingClassLimit _ _ => VUint32 (schedulingClassLimit_LimitValue job)
  | uiRestriction r => VBool (uiRestriction_IsSet r job)
  | cpuLimit r => VCPURate (cpuLimit_LimitValue r job)
  | netBandwidthLimit v => netBandwidthLimit_Value v (NetRateControl (Info job))
  | netDSCPTagLimit v => netDSCPTagLimit_Value v (NetRateControl (Info job))
  end.

End LimitValues.

(** [job.Counters()]: a fresh [Counters] is filled; [None] is the nil
    pointer returned with an error. *)
Definition zero_Counters : Counters :=
  {| TotalUserTime := 0; TotalKernelTime := 0; ThisPeriodTotalUserTime := 0;
     ThisPeriodTotalKernelTime := 0; TotalPageFaultCount := 0; TotalProcesses := 0;
     ActiveProcesses := 0; TotalTerminatedProcesses := 0; ReadOperationCount := 0;
     WriteOperationCount := 0; OtherOperationCount := 0; ReadTransferCount := 0;
     WriteTransferCount := 0; OtherTransferCount := 0 |}.

Definition JobObject_Counters (job : JobObject)
    : IO (JobObject * option Counters * option Go.error) :=
  let* (job, c, e) := QueryCounters job zero_Counters in
  match e with
  | Some _ => ret (job, None, e)
  | None => ret (job, Some c, None)
  end.

(** The limits of the network block. *)
Definition is_net (limit : Limit) : bool :=
  match limit with
  | netBandwidthLimit _ | netDSCPTagLimit _ => true
  | _ => false
  end.

(** The limits the package hands out: the variables [Limit...] and what
    their [WithValue] methods and the [With...] functions return.  The
    limit types and their fields are not exported, so the flag of a limit
    is always the one its variable was declared with. *)
Definition exported (limit : Limit) : bool :=
  match limit with
  | basicLimit l => bool_decide (basicLimit l ∈ booleanFlagLimits)
  | uiRestriction r => bool_decide (uiRestriction r ∈ booleanFlagLimits)
  | affinityLimit l _ => bool_decide (l = jobapi.JOB_OBJECT_LIMIT_AFFINITY)
  | jobMemoryLimit l _ => bool_decide (l = jobapi.JOB_OBJECT_LIMIT_JOB_MEMORY)
  | jobTimeLimit l _ => bool_decide (l = jobapi.JOB_OBJECT_LIMIT_JOB_TIME)
  | processMemoryLimit l _ => bool_decide (l = jobapi.JOB_OBJECT_LIMIT_PROCESS_MEMORY)
  | processTimeLimit l _ => bool_decide (l = jobapi.JOB_OBJECT_LIMIT_PROCESS_TIME)
  | activeProcessLimit l _ => bool_decide (l = jobapi.JOB_OBJECT_LIMIT_ACTIVE_PROCESS)
  | workingSetLimit l _ _ => bool_decide (l = jobapi.JOB_OBJECT_LIMIT_WORKINGSET)
  | priorityClassLimit l _ => bool_decide (l = jobapi.JOB_OBJECT_LIMIT_PRIORITY_CLASS)
  | schedulingClassLimit l _ => bool_decide (l = jobapi.JOB_OBJECT_LIMIT_SCHEDULING_CLASS)
  | cpuLimit _ | netBandwidthLimit _ | netDSCPTagLimit _ => true
  end.

(** The limits that are one bit of a flag field: the types [basicLimit]
    and [uiRestriction]. *)
Definition is_flag_limit (limit : Limit) : bool :=
  match limit with
  | basicLimit _ | uiRestriction _ => true
  | _ => false
  end.

(** The rate a [CPURate] stands for: the first of hard cap, weight and
    min/max whose value is positive, alone. *)
Definition effective_rate (r : CPURate) : CPURate :=
  if 0 <? HardCap r then {| Min := 0; Max := 0; Weight := 0; HardCap := HardCap r |}
  else if 0 <? Weight r then {| Min := 0; Max := 0; Weight := Weight r; HardCap := 0 |}
  else if 0 <? Max r then {| Min := Min r; Max := Max r; Weight := 0; HardCap := 0 |}
  else {| Min := 0; Max := 0; Weight := 0; HardCap := 0 |}.

Section MergeAll.

Variable netBandwidthLimit_set netBandwidthLimit_reset :
  Z -> jobapi.JOBOBJECT_NET_RATE_CONTROL_INFORMATION -> jobapi.JOBOBJECT_NET_RATE_CONTROL_INFORMATION.
Variable netDSCPTagLimit_set netDSCPTagLimit_reset :
  Z -> jobapi.JOBOBJECT_NET_RATE_CONTROL_INFORMATION -> jobapi.JOBOBJECT_NET_RATE_CONTROL_INFORMATION.

(** The limits of a list merged into a job one after the other, as the
    loop of [applyLimit] does between its queries. *)
Definition merge_all (set : bool) (limits : list Limit) (job : JobObject) : JobObject :=
  fold_left (fun j limit =>
               merged netBandwidthLimit_set netBandwidthLimit_reset
                      netDSCPTagLimit_set netDSCPTagLimit_reset set limit j)
            limits job.

End MergeAll.


(** Reading the log of one function of the subscription that runs on its
    own, from a state in which the mutex is held or not.  [Lock] needs it
    free and [Unlock] held; the closed flag and the terminal error are
    written, and the port handle is closed, while it is held; the wait on
    the port, a send to the sink and the closing of the sink are issued by
    the loop while it does not hold it.  The result is the state at the
    end, [None] when the log is not of this shape. *)
Fixpoint locking (held : bool) (evs : list Event) : option bool :=
  match evs with
  | [] => Some held
  | EvLock :: rest => if held then None else locking true rest
  | EvUnlock :: rest => if held then locking false rest else None
  | EvSetClosed :: rest | EvSetErr _ :: rest | EvCloseHandle _ _ :: rest =>
      if held then locking true rest else None
  | EvGetQueuedCompletionStatus _ _ :: rest | EvSend _ :: rest | EvCloseChan :: rest =>
      if held then None else locking false rest
  | _ :: rest => locking held rest
  end.


(** ** The subscription, statement by statement *)

(** The functions of the subscription cut at their statements, for the
    goroutines that run them at the same time: the loop of [notify], calls
    of [Close] and calls of [Err].  A position names the statement a
    goroutine executes next.

    [Close]: [s.mu.Lock()]; [if s.closed]; [s.Port.Close()];
    [s.closed = true]; the deferred [s.mu.Unlock()], with the value to
    return; returned. *)
Inductive ClosePc :=
| CloseLock
| CloseTest
| ClosePort
| CloseFlag
| CloseUnlock (r : option Go.error)
| CloseDone (r : option Go.error).

(** [Err]: [s.mu.Lock()]; [err := s.err]; [s.mu.Unlock()]; returned. *)
Inductive ErrPc :=
| ErrLock
| ErrRead
| ErrUnlock (e : option Go.error)
| ErrDone (e : option Go.error).

(** [notify] and [handlePortErr]: [s.Port.NextMessage()]; [c <- m]; in
    [handlePortErr(err)], [s.mu.Lock()], the test
    [errors.Is(err, jobapi.ErrAbandoned) && s.closed], [s.err = err] and
    the deferred [s.mu.Unlock()]; the deferred [close(c)]; returned. *)
Inductive LoopPc :=
| LoopNext
| LoopSend (m : Notification)
| LoopLock (e : option Go.error)
| LoopTest (e : option Go.error)
| LoopSetErr (e : option Go.error)
| LoopUnlock
| LoopCloseChan
| LoopDone.

(** One statement of [Close] at position [pc].  [None]: the goroutine does
    not move, it waits for the mutex or has returned. *)
Definition Close_step (s : Subscription) (pc : ClosePc)
    : IO (option (Subscription * ClosePc)) :=
  match pc with
  | CloseLock =>
      if mu s then ret None
      else
        let* s := Lock s in
        ret (Some (s, CloseTest))
  | CloseTest => ret (Some (s, if closed s then CloseUnlock None else ClosePort))
  | ClosePort =>
      let* e := Port_Close (Port s) in
      ret (Some (s, match e with
                    | Some _ => CloseUnlock e
                    | None => CloseFlag
                    end))
  | CloseFlag =>
      let* _ := emit EvSetClosed in
      ret (Some ({| Port := Port s; mu := mu s; err := err s; closed := true |},
                 CloseUnlock None))
  | CloseUnlock r =>
      let* s := Unlock s in
      ret (Some (s, CloseDone r))
  | CloseDone _ => ret None
  end.

(** One statement of [Err]. *)
Definition Err_step (s : Subscription) (pc : ErrPc) : IO (option (Subscription * ErrPc)) :=
  match pc with
  | ErrLock =>
      if mu s then ret None
      else
        let* s := Lock s in
        ret (Some (s, ErrRead))
  | ErrRead => ret (Some (s, ErrUnlock (err s)))
  | ErrUnlock e =>
      let* s := Unlock s in
      ret (Some (s, ErrDone e))
  | ErrDone _ => ret None
  end.

(** One statement of the loop; [outcome] is what the kernel answers when
    the statement is the dequeue. *)
Definition Loop_step (s : Subscription) (pc : LoopPc) (outcome : Z * Z + Go.error)
    : IO (option (Subscription * LoopPc)) :=
  match pc with
  | LoopNext =>
      let* (m, e) := NextMessage (Port s) outcome in
      ret (Some (s, match e with
                    | Some _ => LoopLock e
                    | None => LoopSend m
                    end))
  | LoopSend m =>
      let* _ := emit (EvSend m) in
      ret (Some (s, LoopNext))
  | LoopLock e =>
      if mu s then ret None
      else
        let* s := Lock s in
        ret (Some (s, LoopTest e))
  | LoopTest e =>
      ret (Some (s, if Go.errors_Is e jobapi.ErrAbandoned && closed s then LoopUnlock
                    else LoopSetErr e))
  | LoopSetErr e =>
      let* _ := emit (EvSetErr e) in
      ret (Some ({| Port := Port s; mu := mu s; err := e; closed := closed s |}, LoopUnlock))
  | LoopUnlock =>
      let* s := Unlock s in
      ret (Some (s, LoopCloseChan))
  | LoopCloseChan =>
      let* _ := emit EvCloseChan in
      ret (Some (s, LoopDone))
  | LoopDone => ret None
  end.

(** The subscription with the goroutines that use it: the loop, the calls
    of [Close] and the calls of [Err], each at its position. *)
Record Goroutines := {
  shared : Subscription;
  loop_at : LoopPc;
  Close_at : list ClosePc;
  Err_at : list ErrPc
}.

(** The scheduler gives the next statement to the loop, to the [i]-th call
    of [Close] or to the [i]-th call of [Err]. *)
Inductive Turn :=
| TurnLoop (outcome : Z * Z + Go.error)
| TurnClose (i : nat)
| TurnErr (i : nat).

Definition turn (t : Turn) (g : Goroutines) : IO Goroutines :=
  match t with
  | TurnLoop outcome =>
      let* r := Loop_step (shared g) (loop_at g) outcome in
      match r with
      | Some (s, pc) =>
          ret {| shared := s; loop_at := pc; Close_at := Close_at g; Err_at := Err_at g |}
      | None => ret g
      end
  | TurnClose i =>
      match Close_at g !! i with
      | Some pc =>
          let* r := Close_step (shared g) pc in
          match r with
          | Some (s, pc) =>
              ret {| shared := s; loop_at := loop_at g;
                     Close_at := <[i := pc]> (Close_at g); Err_at := Err_at g |}
          | None => ret g
          end
      | None => ret g
      end
  | TurnErr i =>
      match Err_at g !! i with
      | Some pc =>
          let* r := Err_step (shared g) pc in
          match r with
          | Some (s, pc) =>
              ret {| shared := s; loop_at := loop_at g;
                     Close_at := Close_at g; Err_at := <[i := pc]> (Err_at g) |}
          | None => ret g
          end
      | None => ret g
      end
  end.

Fixpoint turns (ts : list Turn) (g : Goroutines) : IO Goroutines :=
  match ts with
  | [] => ret g
  | t :: rest =>
      let* g := turn t g in
      turns rest g
  end.

(** The subscription [Notify] hands out, its loop about to wait, with
    [nClose] calls of [Close] and [nErr] calls of [Err] about to be made. *)
Definition go_started (p : Z) (nClose nErr : nat) : Goroutines :=
  {| shared := {| Port := p; mu := false; err := None; closed := false |};
     loop_at := LoopNext;
     Close_at := replicate nClose CloseLock;
     Err_at := replicate nErr ErrLock |}.

(** The positions at which a goroutine is between its [Lock] and its
    [Unlock]. *)
Definition holding_Close (pc : ClosePc) : bool :=
  match pc with
  | CloseTest | ClosePort | CloseFlag | CloseUnlock _ => true
  | CloseLock | CloseDone _ => false
  end.

Definition holding_Err (pc : ErrPc) : bool :=
  match pc with
  | ErrRead | ErrUnlock _ => true
  | ErrLock | ErrDone _ => false
  end.

Definition holding_Loop (pc : LoopPc) : bool :=
  match pc with
  | LoopTest _ | LoopSetErr _ | LoopUnlock => true
  | _ => false
  end.

(** How many goroutines are between their [Lock] and their [Unlock]. *)
Definition holders (g : Goroutines) : nat :=
  ((if holding_Loop (loop_at g) then 1 else 0)
   + length (filter (fun pc => holding_Close pc = true) (Close_at g))
   + length (filter (fun pc => holding_Err pc = true) (Err_at g)))%nat.

(** Reading a log for the discipline of the mutex, whoever issued the
    events: [Lock] needs it free and [Unlock] held, and the closed flag
    and the terminal error are written, and the port handle is closed,
    while it is held.  The result is the state at the end, [None] when the
    log breaks the discipline. *)
Fixpoint disciplined (held : bool) (evs : list Event) : option bool :=
  match evs with
  | [] => Some held
  | EvLock :: rest => if held then None else disciplined true rest
  | EvUnlock :: rest => if held then disciplined false rest else None
  | EvSetClosed :: rest | EvSetErr _ :: rest | EvCloseHandle _ _ :: rest =>
      if held then disciplined true rest else None
  | _ :: rest => disciplined held rest
  end.

(** What the goroutines keep at every statement, with the log so far, for
    the subscription on port [p]: the mutex is held exactly when one
    goroutine is between its [Lock] and its [Unlock], and no two are; the
    log keeps the discipline; the port handle has been closed exactly when
    the flag is on or a [Close] is about to turn it on; an abandoned wait
    is not recorded once the handle has been closed. *)
Record Safe (p : Z) (g : Goroutines) (log : list Event) : Prop := {
  safe_port : Port (shared g) = p;
  safe_holders : holders g = if mu (shared g) then 1%nat else 0%nat;
  safe_log : disciplined false log = Some (mu (shared g));
  safe_released : EvCloseHandle p None ∈ log ->
                  closed (shared g) = true \/ CloseFlag ∈ Close_at g;
  safe_at_flag : CloseFlag ∈ Close_at g -> EvCloseHandle p None ∈ log;
  safe_flag : closed (shared g) = true -> EvCloseHandle p None ∈ log;
  safe_loop_err : forall e, loop_at g = LoopSetErr e ->
                  Go.errors_Is e jobapi.ErrAbandoned = true -> EvCloseHandle p None ∉ log;
  safe_recorded : forall pre post e, log = pre ++ EvSetErr e :: post ->
                  ~ (Go.errors_Is e jobapi.ErrAbandoned = true /\ EvCloseHandle p None ∈ pre);
  safe_err : forall x, err (shared g) = Some x -> EvSetErr (Some x) ∈ log
}.

(** ** Processes, threads and the completion port *)

(** Constants of [golang.org/x/sys/windows] and of [jobapi] that the
    functions below pass to the kernel. *)
Module winapi.

Definition TH32CS_SNAPTHREAD : Z := 4.
Definition THREAD_SUSPEND_RESUME : Z := 2.
Definition CREATE_SUSPENDED : Z := 4.
Definition ERROR_NO_MORE_FILES : Go.error := Go.Errno 18.

Definition PROCESS_QUERY_LIMITED_INFORMATION : Z := 4096.
Definition PROCESS_ALL_ACCESS : Z := 2035711.
Definition JobObjectAssociateCompletionPortInformation : Z := 7.

(** [THREADENTRY32], the two fields that are read. *)
Record ThreadEntry32 := {
  OwnerProcessID : Z;
  ThreadID : Z
}.

End winapi.

(** The conversion [uint32(x)] of an [int]. *)
Definition to_uint32 (x : Z) : Z := x mod 2 ^ 32.

(** The kernel calls of this part, as they are issued, with their
    arguments.  What the kernel answers to a call is given to the function
    that issues it: a handle or an error for the calls of [syscall] and
    [windows], the return value and the last error for the calls made
    through [proc.Call].  A call that makes a handle is logged with its
    answer [r]. *)
Inductive Call :=
| CallOpenProcess (da : Z) (inheritHandle : bool) (pid : Z) (r : Z + Go.error)
| CallCloseHandle (h : Z)
| CallAssignProcessToJobObject (hJobObject hProcess : Z)
| CallIsProcessInJob (hProcess hJobObject : Z)
| CallCreateIoCompletionPort (filehandle cpport key threadcnt : Z) (r : Z + Go.error)
| CallSetInformationJobObject (hJobObject infoClass : Z) (CompletionKey CompletionPort : Z)
| CallCreateToolhelp32Snapshot (flags processId : Z) (r : Z + Go.error)
| CallThread32First (snapshot : Z)
| CallThread32Next (snapshot : Z)
| CallOpenThread (desiredAccess : Z) (inheritHandle : bool) (threadId : Z) (r : Z + Go.error)
| CallResumeThread (thread : Z).

#[global] Instance Call_eq_dec : EqDecision Call.
Proof. solve_decision. Defined.

(** A result together with the calls issued to obtain it. *)
Definition Logged (A : Type) : Type := (A * list Call)%type.

(** [jobapi.AssignProcessToJobObject]; [answer] is what [proc.Call]
    returns: the return value and the last error. *)
Definition AssignProcessToJobObject (hJobObject hProcess : Z) (answer : Z * Go.error)
    : Logged (option Go.error) :=
  (if fst answer =? 0 then Some (Go.SyscallError "AssignProcessToJobObject" (snd answer))
   else None,
   [CallAssignProcessToJobObject hJobObject hProcess]).

(** [jobapi.IsProcessInJob]; the kernel writes [found] through the
    pointer it is given. *)
Definition IsProcessInJob (hProcess hJobObject : Z) (answer : Z * Go.error) (found : bool)
    : Logged (bool * option Go.error) :=
  ((found,
    if fst answer =? 0 then Some (Go.SyscallError "IsProcessInJob" (snd answer)) else None),
   [CallIsProcessInJob hProcess hJobObject]).

(** [withProcessHandle]: the process is opened, [fn] runs on the handle,
    and the deferred [CloseHandle] follows, its result dropped.  [A] is
    what the closure [fn] assigns to the variables it captures, [a0] their
    value before. *)
Definition withProcessHandle {A} (pid access : Z) (opened : Z + Go.error) (a0 : A)
    (fn : Z -> Logged (A * option Go.error)) : Logged (A * option Go.error) :=
  let open := CallOpenProcess (to_uint32 access) false (to_uint32 pid) opened in
  match opened with
  | inr e => ((a0, Some e), [open])
  | inl hProcess =>
      let '(r, calls) := fn hProcess in
      (r, open :: calls ++ [CallCloseHandle hProcess])
  end.

(** [job.Assign(p)], for the process id of [p]. *)
Definition JobObject_Assign (job : JobObject) (pid : Z) (opened : Z + Go.error)
    (answer : Z * Go.error) : Logged (option Go.error) :=
  let '((_, err), calls) :=
    withProcessHandle pid winapi.PROCESS_ALL_ACCESS opened tt
      (fun h =>
         let '(err, calls) := AssignProcessToJobObject (Handle job) h answer in
         ((tt, err), calls)) in
  (err, calls).

(** [job.Contains(p)]: the closure assigns the named result [found],
    false before. *)
Definition JobObject_Contains (job : JobObject) (pid : Z) (opened : Z + Go.error)
    (answer : Z * Go.error) (found : bool) : Logged (bool * option Go.error) :=
  withProcessHandle pid winapi.PROCESS_QUERY_LIMITED_INFORMATION opened false
    (fun h => IsProcessInJob h (Handle job) answer found).

(** [jobapi.AssociateCompletionPort]: the error of
    [SetInformationJobObject], which is a [SyscallError] already, is
    wrapped once more. *)
Definition AssociateCompletionPort (hJobObject hPort : Z) (answer : Z * Go.error)
    : Logged (option Go.error) :=
  let err := if fst answer =? 0
             then Some (Go.SyscallError "SetInformationJobObject" (snd answer))
             else None in
  (Go.NewSyscallError "SetInformationJobObject" err,
   [CallSetInformationJobObject hJobObject
      winapi.JobObjectAssociateCompletionPortInformation hJobObject hPort]).

(** [CreatePort(job)]: the port and the error. *)
Definition CreatePort (job : JobObject) (created : Z + Go.error) (answer : Z * Go.error)
    : Logged (Z * option Go.error) :=
  let create := CallCreateIoCompletionPort Go.InvalidHandle 0 0 1 created in
  match created with
  | inr e => ((0, Some e), [create])
  | inl handle =>
      let '(err, calls) := AssociateCompletionPort (Handle job) handle answer in
      match err with
      | Some _ => ((handle, err), create :: calls ++ [CallCloseHandle handle])
      | None => ((handle, None), create :: calls)
      end
  end.

(** [Notify(c, job)]: the subscription with its goroutine started, or no
    subscription and the error of [CreatePort]. *)
Definition Notify (job : JobObject) (created : Z + Go.error) (answer : Z * Go.error)
    : Logged (option System * option Go.error) :=
  let '((p, err), calls) := CreatePort job created answer in
  match err with
  | Some _ => ((None, err), calls)
  | None => ((Some (started p), None), calls)
  end.

(** The errors [fmt.Errorf] makes: a message, or a prefix and the error
    it wraps with [%w]. *)
Inductive fmt_error :=
| Errorf (msg : string)
| Errorf_w (prefix : string) (e : Go.error).

(** [ResumeThread(tid)]: [opened] and [resumed] are the answers to
    [OpenThread] and [ResumeThread]; the deferred [Close] of the thread
    handle follows. *)
Definition ResumeThread (tid : Z) (opened : Z + Go.error) (resumed : Z + Go.error)
    : Logged (option fmt_error) :=
  let open := CallOpenThread winapi.THREAD_SUSPEND_RESUME false tid opened in
  match opened with
  | inr e => (Some (Errorf_w "OpenThread" e), [open])
  | inl hThread =>
      (match resumed with
       | inr e => Some (Errorf_w "ResumeThread" e)
       | inl _ => None
       end,
       [open; CallResumeThread hThread; CallCloseHandle hThread])
  end.

(** The loop of [ResumeProcess] against the answers to its successive
    [Thread32Next] calls, an entry or an error; when the answers are used
    up the enumeration is over and the kernel says ERROR_NO_MORE_FILES.
    [threads] gives, for a thread id, the answers to the two calls of
    [ResumeThread]. *)
Fixpoint next_thread (pid s : Z) (nexts : list (winapi.ThreadEntry32 + Go.error))
    (threads : Z -> (Z + Go.error) * (Z + Go.error)) : Logged (option fmt_error) :=
  match nexts with
  | [] => (Some (Errorf "no threads found"), [CallThread32Next s])
  | inr e :: _ =>
      (if decide (e = winapi.ERROR_NO_MORE_FILES) then Some (Errorf "no threads found")
       else Some (Errorf_w "Thread32Next" e),
       [CallThread32Next s])
  | inl e :: rest =>
      if (winapi.OwnerProcessID e =? pid) && negb (winapi.ThreadID e =? 0) then
        let '(r, calls) := ResumeThread (winapi.ThreadID e)
                             (fst (threads (winapi.ThreadID e)))
                             (snd (threads (winapi.ThreadID e))) in
        (r, CallThread32Next s :: calls)
      else
        let '(r, calls) := next_thread pid s rest threads in
        (r, CallThread32Next s :: calls)
  end.

(** [ResumeProcess(pid)]: [snapshot] and [first] are the answers to
    [CreateToolhelp32Snapshot] and [Thread32First]; the deferred [Close] of
    the snapshot follows. *)
Definition ResumeProcess (pid : Z) (snapshot : Z + Go.error)
    (first : winapi.ThreadEntry32 + Go.error)
    (nexts : list (winapi.ThreadEntry32 + Go.error))
    (threads : Z -> (Z + Go.error) * (Z + Go.error)) : Logged (option fmt_error) :=
  let snap := CallCreateToolhelp32Snapshot winapi.TH32CS_SNAPTHREAD (to_uint32 pid) snapshot in
  match snapshot with
  | inr e => (Some (Errorf_w "CreateToolhelp32Snapshot" e), [snap])
  | inl s =>
      match first with
      | inr e =>
          (Some (Errorf_w "Thread32First" e), [snap; CallThread32First s; CallCloseHandle s])
      | inl _ =>
          let '(r, calls) := next_thread pid s nexts threads in
          (r, snap :: CallThread32First s :: calls ++ [CallCloseHandle s])
      end
  end.

(** Where the loop of [ResumeProcess] stops: at an answer that is an
    error, or at an entry of the process with a thread id. *)
Definition stops_at (pid : Z) (x : winapi.ThreadEntry32 + Go.error) : bool :=
  match x with
  | inl e => (winapi.OwnerProcessID e =? pid) && negb (winapi.ThreadID e =? 0)
  | inr _ => true
  end.


(** The handle a call makes, when the kernel gives one. *)
Definition made (c : Call) : option Z :=
  match c with
  | CallOpenProcess _ _ _ (inl h)
  | CallCreateIoCompletionPort _ _ _ _ (inl h)
  | CallCreateToolhelp32Snapshot _ _ (inl h)
  | CallOpenThread _ _ _ (inl h) => Some h
  | _ => None
  end.

(** The handle of a process, thread, snapshot or port a call works on.
    The job handle is the caller's and is not followed. *)
Definition used (c : Call) : option Z :=
  match c with
  | CallCloseHandle h => Some h
  | CallAssignProcessToJobObject _ hProcess => Some hProcess
  | CallIsProcessInJob hProcess _ => Some hProcess
  | CallSetInformationJobObject _ _ _ port => Some port
  | CallThread32First s | CallThread32Next s => Some s
  | CallResumeThread h => Some h
  | _ => None
  end.

Fixpoint remove_one (h : Z) (l : list Z) : list Z :=
  match l with
  | [] => []
  | x :: l' => if decide (x = h) then l' else x :: remove_one h l'
  end.

(** The handles a log leaves open, from the handles [held] before it: a
    handle the kernel gives is held from then on, [CloseHandle] gives one
    up.  [None] when a call works on, or closes, a handle that is not
    held. *)
Fixpoint handles (held : list Z) (calls : list Call) : option (list Z) :=
  match calls with
  | [] => Some held
  | c :: rest =>
      match used c with
      | Some h =>
          if bool_decide (h ∈ held) then
            handles (match c with
                     | CallCloseHandle _ => remove_one h held
                     | _ => held
                     end) rest
          else None
      | None =>
          handles (match made c with
                   | Some h => h :: held
                   | None => held
                   end) rest
      end
  end.

(** More sample data. *)
Module Cases.

Definition net_set := Sample.net_flag 2 true.
Definition net_reset := Sample.net_flag 2 false.
Definition dscp_set := Sample.net_flag 4 true.
Definition dscp_reset := Sample.net_flag 4 false.

Definition merged := merged net_set net_reset dscp_set dscp_reset.
Definition merge_all := merge_all net_set net_reset dscp_set dscp_reset.
Definition applyLimit := applyLimit net_set net_reset dscp_set dscp_reset Sample.reversed.
Definition Limit_Value :=
  Limit_Value (fun _ b => VUint64 (jobapi.MaxBandwidth b)) (fun _ b => VByte (jobapi.DscpTag b)).

(** A job whose cache holds a CPU-rate block in the min/max sub-mode, the
    pair (500, 1000) in its value slot. *)
Definition job_minmax : JobObject :=
  {| Name := ""; Handle := 7;
     Info := store zero_JobInfo
               (BlockCPU {| jobapi.ControlFlags := 25; jobapi.Value := 65536500 |}) |}.

(** A rate that names a weight and a min/max pair. *)
Definition rate_mixed : CPURate := {| Min := 100; Max := 200; Weight := 7; HardCap := 0 |}.

End Cases.

(** * Facts *)

(** ** Bytes and bits *)

Lemma byte_of_mod (v : Z) : Go.byte_of v = v mod 256.
Proof. unfold Go.byte_of. change 255 with (Z.ones 8). apply Z.land_ones. lia. Qed.

Lemma lor_shiftl_add (a b n : Z) :
  0 <= n -> 0 <= a < 2 ^ n -> Z.lor a (Z.shiftl b n) = a + b * 2 ^ n.
Proof.
  intros Hn Ha.
  assert (Hd : Z.land a (Z.shiftl b n) = 0).
  { apply Z.bits_inj'. intros i Hi. rewrite Z.land_spec, Z.bits_0.
    destruct (Z.lt_ge_cases i n) as [Hlt | Hge].
    - rewrite Z.shiftl_spec_low by lia. apply andb_false_r.
    - rewrite <- (Z.mod_small a (2 ^ n)) by lia.
      rewrite Z.mod_pow2_bits_high by lia. reflexivity. }
  rewrite <- Z.lxor_lor by exact Hd.
  rewrite <- Z.add_nocarry_lxor by exact Hd.
  rewrite Z.shiftl_mul_pow2 by lia. reflexivity.
Qed.

Lemma Uint16_bytes (b0 b1 : Z) (rest : list Z) :
  0 <= b0 < 256 -> Go.Uint16 (b0 :: b1 :: rest) = Some (b0 + b1 * 256).
Proof.
  intros H. unfold Go.Uint16. f_equal.
  rewrite lor_shiftl_add; [reflexivity | lia | simpl; lia].
Qed.

Lemma Uint32_bytes (b0 b1 b2 b3 : Z) (rest : list Z) :
  0 <= b0 < 256 -> 0 <= b1 < 256 -> 0 <= b2 < 256 ->
  Go.Uint32 (b0 :: b1 :: b2 :: b3 :: rest)
  = Some (b0 + b1 * 256 + b2 * 65536 + b3 * 16777216).
Proof.
  intros H0 H1 H2. unfold Go.Uint32. f_equal.
  rewrite (lor_shiftl_add b0 b1 8) by (simpl; lia).
  rewrite (lor_shiftl_add _ b2 16) by (simpl; lia).
  rewrite (lor_shiftl_add _ b3 24) by (simpl; lia).
  reflexivity.
Qed.

Ltac bytes_to_arith :=
  cbn [app take drop];
  rewrite !byte_of_mod, !Z.shiftr_div_pow2 by lia;
  change (2 ^ 8) with 256; change (2 ^ 16) with 65536; change (2 ^ 24) with 16777216.

(** Two 16-bit numbers written one after the other and read as one 32-bit
    number come back when that number is written and its halves are read. *)
Lemma pack_unpack (mn mx : Z) :
  0 <= mn < 65536 -> 0 <= mx < 65536 ->
  exists v,
    Go.Uint32 (Go.Write_uint16 (Go.Write_uint16 [] mn) mx) = Some v /\
    Go.Uint16 (take 2 (Go.Write_uint32 [] v)) = Some mn /\
    Go.Uint16 (drop 2 (Go.Write_uint32 [] v)) = Some mx.
Proof.
  intros Hmn Hmx. unfold Go.Write_uint16, Go.Write_uint32. bytes_to_arith.
  rewrite Uint32_bytes by (apply Z.mod_pos_bound; lia).
  eexists. split; [reflexivity|].
  bytes_to_arith.
  rewrite !Uint16_bytes by (apply Z.mod_pos_bound; lia).
  split; f_equal; Z.div_mod_to_equations; lia.
Qed.

(** A single bit stays on under [|] and goes off under [&^]; the other bits
    are left alone. *)
Lemma land_lor_bit (x b : Z) : Z.land (Z.lor x b) b = b.
Proof.
  apply Z.bits_inj'. intros i Hi.
  rewrite Z.land_spec, Z.lor_spec.
  destruct (Z.testbit x i), (Z.testbit b i); reflexivity.
Qed.

Lemma land_ldiff_bit (x b : Z) : Z.land (Z.ldiff x b) b = 0.
Proof.
  apply Z.bits_inj'. intros i Hi.
  rewrite Z.land_spec, Z.ldiff_spec, Z.bits_0.
  destruct (Z.testbit x i), (Z.testbit b i); reflexivity.
Qed.

Lemma shiftl_1_pos (k : Z) : 0 <= k -> 0 < Z.shiftl 1 k.
Proof. intros Hk. rewrite Z.shiftl_1_l. apply Z.pow_pos_nonneg; lia. Qed.

Lemma testbit_shiftl_1 (k i : Z) : 0 <= k -> 0 <= i -> Z.testbit (Z.shiftl 1 k) i = bool_decide (i = k).
Proof.
  intros Hk Hi. rewrite Z.shiftl_1_l.
  destruct (decide (i = k)) as [-> | Hne].
  - rewrite Z.pow2_bits_true by lia. symmetry. apply bool_decide_eq_true. reflexivity.
  - rewrite Z.pow2_bits_false by lia. symmetry. apply bool_decide_eq_false. exact Hne.
Qed.

(** ** Counters *)

(** What [QueryCounters] puts in the destination when the query goes
    through: ten fields come from the field of the same name, four do not. *)
Lemma QueryCounters_fields (job job' : JobObject) (c c' : Counters) (w w' : World) :
  QueryCounters job c w = (job', c', None, w') ->
  let a := jobapi.Basic (AccountingInfo (Info job')) in
  let io := jobapi.Io (AccountingInfo (Info job')) in
  TotalUserTime c' = jobapi.TotalUserTime a /\
  TotalKernelTime c' = jobapi.TotalUserTime a /\
  ThisPeriodTotalUserTime c' = jobapi.TotalUserTime a /\
  ThisPeriodTotalKernelTime c' = jobapi.TotalUserTime a /\
  TotalPageFaultCount c' = jobapi.TotalPageFaultCount a /\
  TotalProcesses c' = jobapi.TotalProcesses a /\
  ActiveProcesses c' = jobapi.ActiveProcesses a /\
  TotalTerminatedProcesses c' = jobapi.TotalTerminatedProcesses a /\
  ReadOperationCount c' = jobapi.ReadOperationCount io /\
  WriteOperationCount c' = jobapi.WriteOperationCount io /\
  OtherOperationCount c' = jobapi.OtherOperationCount io /\
  ReadTransferCount c' = jobapi.ReadTransferCount io /\
  WriteTransferCount c' = jobapi.WriteTransferCount io /\
  OtherTransferCount c' = jobapi.OtherOperationCount io.
Proof.
  unfold QueryCounters, bind.
  destruct (sync QueryInfo _ job w) as [[job1 e] w1].
  destruct e as [e|]; unfold ret; intros H; inversion H; subst.
  cbn. repeat split; reflexivity.
Qed.

(** C2, at a job whose four time counters differ: the query goes through
    and returns the accounting block of [Sample.accounting], yet the
    destination gets the total user time, 1, in [TotalKernelTime] (block: 2),
    [ThisPeriodTotalUserTime] (3) and [ThisPeriodTotalKernelTime] (4), and
    the other-operation count, 11, in [OtherTransferCount] (14). *)
Theorem QueryCounters_copies_wrong_fields :
  let '(job', c', e, w') := QueryCounters Sample.job Sample.counters Sample.world in
  e = None /\
  AccountingInfo (Info job') = Sample.accounting /\
  since Sample.world w'
    = [EvQueryInformationJobObject 7 jobapi.JobObjectBasicAndIoAccountingInformation None] /\
  (TotalKernelTime c' = 1 /\
   jobapi.TotalKernelTime (jobapi.Basic (AccountingInfo (Info job'))) = 2) /\
  (ThisPeriodTotalUserTime c' = 1 /\
   jobapi.ThisPeriodTotalUserTime (jobapi.Basic (AccountingInfo (Info job'))) = 3) /\
  (ThisPeriodTotalKernelTime c' = 1 /\
   jobapi.ThisPeriodTotalKernelTime (jobapi.Basic (AccountingInfo (Info job'))) = 4) /\
  (OtherTransferCount c' = 11 /\
   jobapi.OtherTransferCount (jobapi.Io (AccountingInfo (Info job'))) = 14).
Proof. vm_compute. repeat split; reflexivity. Qed.

(** ** The log *)

Lemma since_app (w w' : World) (evs : list Event) :
  trace w' = trace w ++ evs -> since w w' = evs.
Proof. intros H. unfold since. rewrite H. apply drop_app_length. Qed.

Lemma since_refl (w : World) : since w w = [].
Proof. apply since_app. symmetry. apply app_nil_r. Qed.

Lemma count_app (e : Event) (l1 l2 : list Event) :
  count e (l1 ++ l2) = (count e l1 + count e l2)%nat.
Proof. unfold count. rewrite filter_app. apply length_app. Qed.

(** ** Subscription.Close *)

Ltac io := unfold bind, ret, emit, fault, is_live, get_live, put_live, get_kernel, put_kernel.

Lemma kernel_call_run (ev : option Go.error -> Event) (h : Z) (w : World) :
  kernel_call ev h w
  = (kernel_verdict h w,
     {| kernel := kernel w; live := live w; next := next w;
        faults := tail (faults w); trace := trace w ++ [ev (kernel_verdict h w)] |}).
Proof.
  unfold kernel_call, kernel_verdict. io.
  destruct w as [k l n f t]. destruct f as [|[e|] f]; cbn; reflexivity.
Qed.

Lemma kernel_close_run (h : Z) (w : World) :
  kernel_close h w
  = (kernel_verdict h w,
     {| kernel := kernel w;
        live := match kernel_verdict h w with
                | None => filter (fun x => x ≠ h) (live w)
                | Some _ => live w
                end;
        next := next w; faults := tail (faults w);
        trace := trace w ++ [EvCloseHandle h (kernel_verdict h w)] |}).
Proof.
  unfold kernel_close, bind. rewrite kernel_call_run.
  destruct (kernel_verdict h w); io; cbn; reflexivity.
Qed.

(** What [Close] does, case by case. *)
Lemma Close_run (s : Subscription) (w : World) :
  Subscription_Close s w =
  if closed s then
    ({| Port := Port s; mu := false; err := err s; closed := true |}, None,
     {| kernel := kernel w; live := live w; next := next w; faults := faults w;
        trace := trace w ++ [EvLock; EvUnlock] |})
  else
    match kernel_verdict (Port s) w with
    | None =>
        ({| Port := Port s; mu := false; err := err s; closed := true |}, None,
         {| kernel := kernel w; live := filter (fun x => x ≠ Port s) (live w);
            next := next w; faults := tail (faults w);
            trace := trace w ++ [EvLock; EvCloseHandle (Port s) None; EvSetClosed; EvUnlock] |})
    | Some e =>
        ({| Port := Port s; mu := false; err := err s; closed := false |}, Some e,
         {| kernel := kernel w; live := live w; next := next w; faults := tail (faults w);
            trace := trace w ++ [EvLock; EvCloseHandle (Port s) (Some e); EvUnlock] |})
    end.
Proof.
  unfold Subscription_Close, Lock, Unlock, Port_Close, bind at 1 2. io. cbn.
  destruct (closed s) eqn:Hc; cbn.
  - rewrite <- app_assoc. reflexivity.
  - rewrite kernel_close_run. cbn.
    change (kernel_verdict (Port s) _) with (kernel_verdict (Port s) w).
    destruct (kernel_verdict (Port s) w); cbn; rewrite <- !app_assoc; reflexivity.
Qed.

Lemma Port_Close_verdict (p : Z) (w : World) : fst (Port_Close p w) = kernel_verdict p w.
Proof. unfold Port_Close. rewrite kernel_close_run. reflexivity. Qed.

(** C3 as stated fails on an open subscription whose port closes: the log
    of [Close] has no setting of the flag before the closing of the handle,
    and it passes through a point where the handle is released and the flag
    is still off. *)
Lemma Close_flag_not_first :
  let '(_, _, w') := Subscription_Close Sample.subscription Sample.world in
  let evs := since Sample.world w' in
  ~ (exists pre post r, evs = pre ++ EvSetClosed :: post /\ EvCloseHandle 7 r ∈ post) /\
  ~ (forall v, v ∈ views 7 start_view evs -> released v = true -> flagged v = true).
Proof.
  vm_compute. split.
  - intros (pre & post & r & Heq & Hin).
    destruct pre as [|e1 pre]; [discriminate|].
    destruct pre as [|e2 pre]; [discriminate|].
    destruct pre as [|e3 pre].
    { inversion Heq; subst. apply list_elem_of_In in Hin. cbn in Hin.
      destruct Hin as [Hin | []]. discriminate. }
    destruct pre as [|e4 pre]; [discriminate|].
    destruct pre; discriminate.
  - intros H.
    specialize (H {| held := true; flagged := false; released := true |}).
    assert (Hf : false = true); [|discriminate].
    apply H; [|reflexivity].
    apply list_elem_of_In. cbn. tauto.
Qed.

(** C3, amended: on a subscription that is not closed, [Close] closes the
    port handle first and sets the flag afterwards, and only when the handle
    was closed; when the close fails the flag is not set.  Both steps lie
    between [Lock] and [Unlock]: wherever the handle is released and the
    flag is still off, the mutex is held. *)
Theorem Close_releases_then_flags (s : Subscription) (w : World) :
  closed s = false ->
  let '(s', e, w') := Subscription_Close s w in
  let evs := since w w' in
  (e = None ->
   evs = [EvLock; EvCloseHandle (Port s) None; EvSetClosed; EvUnlock] /\ closed s' = true) /\
  (forall x, e = Some x ->
   evs = [EvLock; EvCloseHandle (Port s) (Some x); EvUnlock] /\ closed s' = false) /\
  (forall v, v ∈ views (Port s) start_view evs ->
   released v = true -> flagged v = false -> held v = true).
Proof.
  intros Hc. rewrite Close_run, Hc.
  destruct (kernel_verdict (Port s) w) as [x|].
  - erewrite since_app by reflexivity.
    split; [discriminate|]. split.
    + intros y Hy. inversion Hy; subst. split; reflexivity.
    + intros v Hv. apply list_elem_of_In in Hv. cbn in Hv.
      intuition (subst; cbn in *; congruence).
  - erewrite since_app by reflexivity.
    split; [intros _; split; reflexivity|]. split; [discriminate|].
    intros v Hv. apply list_elem_of_In in Hv. cbn in Hv.
    destruct (decide (Port s = Port s)) as [_|Hne]; [|congruence].
    intuition (subst; cbn in *; congruence).
Qed.

(** The amended C3 on the sample subscription, whose port closes. *)
Lemma Close_releases_then_flags_witness :
  let '(s', e, w') := Subscription_Close Sample.subscription Sample.world in
  let evs := since Sample.world w' in
  (e = None ->
   evs = [EvLock; EvCloseHandle 7 None; EvSetClosed; EvUnlock] /\ closed s' = true) /\
  (forall x, e = Some x ->
   evs = [EvLock; EvCloseHandle 7 (Some x); EvUnlock] /\ closed s' = false) /\
  (forall v, v ∈ views 7 start_view evs ->
   released v = true -> flagged v = false -> held v = true).
Proof.
  exact (Close_releases_then_flags Sample.subscription Sample.world eq_refl).
Defined.

(** C10: when the close of the port handle fails inside [Close], [Close]
    returns that error and leaves the subscription as it was, the flag off;
    any later [Close] issues the close of the handle again and returns what
    the kernel then answers. *)
Theorem Close_failure_keeps_state (s : Subscription) (w : World) (e : Go.error) :
  mu s = false ->
  closed s = false ->
  fst (Port_Close (Port s) w) = Some e ->
  let '(s', r, w') := Subscription_Close s w in
  r = Some e /\
  s' = s /\
  closed s' = false /\
  since w w' = [EvLock; EvCloseHandle (Port s) (Some e); EvUnlock] /\
  (forall w2,
     let '(_, r2, w2') := Subscription_Close s' w2 in
     EvCloseHandle (Port s) r2 ∈ since w2 w2' /\
     r2 = fst (Port_Close (Port s) w2)).
Proof.
  intros Hmu Hc Hfail. rewrite Port_Close_verdict in Hfail.
  rewrite Close_run, Hc, Hfail.
  assert (Hs : {| Port := Port s; mu := false; err := err s; closed := false |} = s).
  { destruct s; cbn in *; subst; reflexivity. }
  rewrite Hs. erewrite since_app by reflexivity.
  repeat split; try assumption.
  intros w2. rewrite Close_run, Hc, Port_Close_verdict.
  destruct (kernel_verdict (Port s) w2); erewrite since_app by reflexivity;
    split; try reflexivity; apply list_elem_of_In; cbn; tauto.
Qed.

(** C10 on the sample subscription when its port handle is already closed. *)
Lemma Close_failure_keeps_state_witness :
  let '(s', r, w') := Subscription_Close Sample.subscription Sample.world_closed in
  r = Some Go.ERROR_INVALID_HANDLE /\
  s' = Sample.subscription /\
  closed s' = false /\
  since Sample.world_closed w'
    = [EvLock; EvCloseHandle 7 (Some Go.ERROR_INVALID_HANDLE); EvUnlock] /\
  (forall w2,
     let '(_, r2, w2') := Subscription_Close s' w2 in
     EvCloseHandle 7 r2 ∈ since w2 w2' /\
     r2 = fst (Port_Close 7 w2)).
Proof.
  exact (Close_failure_keeps_state Sample.subscription Sample.world_closed
           Go.ERROR_INVALID_HANDLE eq_refl eq_refl eq_refl).
Defined.

(** ** The dequeue loop *)

Lemma handlePortErr_run (s : Subscription) (e : option Go.error) (w : World) :
  handlePortErr s e w =
  if Go.errors_Is e jobapi.ErrAbandoned && closed s
  then (with_err s (err s), logged w [EvLock; EvUnlock])
  else (with_err s e, logged w [EvLock; EvSetErr e; EvUnlock]).
Proof.
  unfold handlePortErr, Lock, Unlock, with_err, logged. io. cbn -[Go.errors_Is].
  destruct (Go.errors_Is e jobapi.ErrAbandoned && closed s); cbn -[Go.errors_Is];
    rewrite <- !app_assoc; reflexivity.
Qed.

Lemma notify_turn_packet (s : Subscription) (packet : Z * Z) (w : World) :
  notify_turn s (inl packet) w
  = (s, true, logged w [EvGetQueuedCompletionStatus (Port s) None; EvSend (message packet)]).
Proof.
  destruct packet as [mType pid].
  unfold notify_turn, NextMessage, jobapi_calls.GetQueuedCompletionStatus, logged, message.
  io. cbn. rewrite <- !app_assoc. reflexivity.
Qed.

Lemma notify_turn_error (s : Subscription) (e0 : Go.error) (w : World) :
  let e := Some (Go.SyscallError "GetQueuedCompletionStatus" e0) in
  notify_turn s (inr e0) w =
  if Go.errors_Is e jobapi.ErrAbandoned && closed s
  then (with_err s (err s), false,
        logged w [EvGetQueuedCompletionStatus (Port s) (Some e0);
                  EvLock; EvUnlock; EvCloseChan])
  else (with_err s e, false,
        logged w [EvGetQueuedCompletionStatus (Port s) (Some e0);
                  EvLock; EvSetErr e; EvUnlock; EvCloseChan]).
Proof.
  unfold notify_turn, NextMessage, jobapi_calls.GetQueuedCompletionStatus.
  io. cbn -[Go.errors_Is handlePortErr]. rewrite handlePortErr_run.
  destruct (Go.errors_Is _ jobapi.ErrAbandoned && closed s);
    unfold logged; cbn -[Go.errors_Is]; rewrite <- !app_assoc; reflexivity.
Qed.


Lemma since_logged (w : World) (evs : list Event) : since w (logged w evs) = evs.
Proof. apply since_app. reflexivity. Qed.

(** The loop passes the packets on and stops at the first failure. *)
Lemma notify_packets (packets : list (Z * Z)) (rest : list (Z * Z + Go.error))
    (s : Subscription) (w : World) :
  exists evs,
    notify s (map inl packets ++ rest) w
    = notify s rest (logged w evs) /\
    forall e, e ∈ evs -> e <> EvCloseChan /\ forall x, e <> EvSetErr x.
Proof.
  revert w. induction packets as [|p packets IH]; intros w.
  - exists []. split.
    + cbn. unfold logged. rewrite app_nil_r. destruct w; reflexivity.
    + intros e He. inversion He.
  - cbn [map app notify]. unfold bind. rewrite notify_turn_packet.
    destruct (IH (logged w [EvGetQueuedCompletionStatus (Port s) None; EvSend (message p)]))
      as (evs & Heq & Hevs).
    exists ([EvGetQueuedCompletionStatus (Port s) None; EvSend (message p)] ++ evs).
    split.
    + rewrite Heq. unfold logged. cbn. rewrite <- !app_assoc. reflexivity.
    + intros e He. apply elem_of_app in He. destruct He as [He | He]; [|auto].
      apply list_elem_of_In in He. cbn in He.
      destruct He as [<- | [<- | []]]; split; intros; discriminate.
Qed.

(** C4: when [NextMessage] fails in the loop, the error it returns is
    recorded unless it is the abandoned-wait error and the closed flag,
    read between [Lock] and [Unlock], is on.  A recorded error is the
    terminal error and [Err] returns it.  Either way the turn ends the
    loop, whatever was to come, and closes the sink as its last step. *)
Theorem dequeue_failure_classified (s : Subscription) (e0 : Go.error) (w : World) :
  let e := Go.SyscallError "GetQueuedCompletionStatus" e0 in
  let expected := Go.errors_Is (Some e) jobapi.ErrAbandoned && closed s in
  let '(s', going, w') := notify_turn s (inr e0) w in
  let evs := since w w' in
  ((forall x, EvSetErr x ∉ evs) <-> expected = true) /\
  (expected = true -> err s' = err s) /\
  (expected = false ->
   err s' = Some e /\ forall w2, snd (fst (Subscription_Err s' w2)) = Some e) /\
  evs = [EvGetQueuedCompletionStatus (Port s) (Some e0); EvLock]
        ++ (if expected then [] else [EvSetErr (Some e)])
        ++ [EvUnlock; EvCloseChan] /\
  going = false /\
  (forall packets rest,
     snd (fst (notify s (map inl packets ++ inr e0 :: rest) w)) = false).
Proof.
  intros e expected.
  pose proof (notify_turn_error s e0 w) as Hrun. cbn zeta in Hrun.
  fold e in Hrun. fold expected in Hrun. rewrite Hrun.
  assert (Hloop : forall packets rest,
             snd (fst (notify s (map inl packets ++ inr e0 :: rest) w)) = false).
  { intros packets rest.
    destruct (notify_packets packets (inr e0 :: rest) s w) as (evs & -> & _).
    cbn [notify]. unfold bind. rewrite notify_turn_error. cbn zeta.
    destruct (Go.errors_Is _ jobapi.ErrAbandoned && closed s); reflexivity. }
  destruct expected eqn:Hexp; rewrite since_logged.
  - split; [|repeat split; try discriminate; auto].
    split; [reflexivity|]. intros _ x Hx. apply list_elem_of_In in Hx. cbn in Hx.
    intuition discriminate.
  - split; [|repeat split; try discriminate; auto].
    split; [|discriminate]. intros H. exfalso. apply (H (Some e)).
    apply list_elem_of_In. cbn. tauto.
Qed.

Lemma errors_Is_wrapped (name : string) (e0 : Go.error) :
  Go.errors_Is (Some (Go.SyscallError name e0)) jobapi.ErrAbandoned
  = Go.chain_Is e0 jobapi.ErrAbandoned.
Proof.
  cbn. destruct (decide (Go.SyscallError name e0 = jobapi.ErrAbandoned)) as [H|_];
    [discriminate H | reflexivity].
Qed.


(** ** The subscription and its goroutine *)

Ltac in_list H :=
  apply list_elem_of_In in H; cbn in H;
  repeat match type of H with
         | _ \/ _ => destruct H as [H | H]
         | False => destruct H
         end; subst.

Ltac close_goal :=
  repeat (intros; try match goal with |- _ /\ _ => split end);
  try assumption; try reflexivity; try congruence; try solve [auto];
  try match goal with
      | H : _ ∈ _ ++ _ |- _ =>
          apply elem_of_app in H; destruct H as [H | H];
          [ match goal with Hi : ?P -> _ |- _ => specialize (Hi H) end; congruence
          | in_list H; discriminate ]
      end;
  try match goal with
      | H : _ ∈ _ |- _ => in_list H; try reflexivity; try discriminate
      end.

Ltac facts :=
  constructor;
  cbn [fst snd trace sub looping closes is_ActClose is_failure closed with_err logged];
  rewrite ?andb_true_r, ?andb_false_r, ?app_nil_r;
  close_goal.

Lemma act_facts (a : Action) (sys : System) (w : World) :
  exists evs,
    trace (snd (act a sys w)) = trace w ++ evs /\
    step_facts a sys (fst (act a sys w)) evs.
Proof.
  destruct a as [|[packet | e0]]; unfold act.
  - unfold bind. rewrite Close_run.
    destruct (closed (sub sys)) eqn:Hc; [|destruct (kernel_verdict _ w) eqn:Hv];
      unfold ret; cbn [fst snd trace]; eexists; (split; [reflexivity|]); facts.
  - destruct (looping sys) eqn:Hl.
    + unfold bind. rewrite notify_turn_packet.
      unfold ret; cbn [fst snd trace logged]; eexists; (split; [reflexivity|]); facts.
    + unfold ret. cbn [fst snd]. exists []. split; [symmetry; apply app_nil_r|]. facts.
  - destruct (looping sys) eqn:Hl.
    + unfold bind. pose proof (notify_turn_error (sub sys) e0 w) as Hrun.
      cbn zeta in Hrun. rewrite Hrun. clear Hrun.
      destruct (Go.errors_Is _ jobapi.ErrAbandoned && closed (sub sys));
        unfold ret; cbn [fst snd trace logged]; eexists; (split; [reflexivity|]); facts.
      * eexists [_; _; _]. split; [reflexivity|]. intros He. in_list He; discriminate.
      * eexists [_; _; _; _]. split; [reflexivity|]. intros He. in_list He; discriminate.
    + unfold ret. cbn [fst snd]. exists []. split; [symmetry; apply app_nil_r|]. facts.
Qed.

(** The facts of the single actions, carried along an interleaving. *)
Lemma run_cons (a : Action) (acts : list Action) (sys : System) (w : World) :
  run (a :: acts) sys w = run acts (fst (act a sys w)) (snd (act a sys w)).
Proof. cbn [run]. unfold bind. destruct (act a sys w). reflexivity. Qed.

Lemma run_trace (acts : list Action) (sys : System) (w : World) :
  exists evs, trace (snd (run acts sys w)) = trace w ++ evs.
Proof.
  revert sys w. induction acts as [|a acts IH]; intros sys w.
  - exists []. symmetry. apply app_nil_r.
  - rewrite run_cons. destruct (act_facts a sys w) as (ea & Ha & _).
    destruct (IH (fst (act a sys w)) (snd (act a sys w))) as (er & Hr).
    exists (ea ++ er). rewrite Hr, Ha. symmetry. apply app_assoc.
Qed.

Lemma since_trans (w w1 w2 : World) (e1 e2 : list Event) :
  trace w1 = trace w ++ e1 -> trace w2 = trace w1 ++ e2 -> since w w2 = e1 ++ e2.
Proof. intros H1 H2. apply since_app. rewrite H2, H1. symmetry. apply app_assoc. Qed.

(** Once the loop has left, nothing is sent and the sink is not closed again. *)
Lemma run_stopped (acts : list Action) (sys : System) (w : World) :
  looping sys = false ->
  looping (fst (run acts sys w)) = false /\
  forall e, e ∈ since w (snd (run acts sys w)) -> is_send e = false /\ e <> EvCloseChan.
Proof.
  revert sys w. induction acts as [|a acts IH]; intros sys w Hl.
  - cbn. split; [exact Hl|]. rewrite since_refl. intros e He. inversion He.
  - rewrite run_cons. destruct (act_facts a sys w) as (ea & Ha & Hf).
    destruct (sf_stopped _ _ _ _ Hf Hl) as [Hl1 Hea].
    destruct (IH _ (snd (act a sys w)) Hl1) as [Hl2 Her].
    split; [exact Hl2|].
    destruct (run_trace acts (fst (act a sys w)) (snd (act a sys w))) as (er & Hr).
    rewrite (since_trans _ _ _ _ _ Ha Hr).
    rewrite (since_app _ _ _ Hr) in Her.
    intros e He. apply elem_of_app in He. destruct He; auto.
Qed.

(** While the loop runs the sink is open; when it has left, the log holds
    one closing of the sink, and nothing is sent after it. *)
Lemma run_sink (acts : list Action) (sys : System) (w : World) :
  looping sys = true ->
  let evs := since w (snd (run acts sys w)) in
  if looping (fst (run acts sys w))
  then forall e, e ∈ evs -> e <> EvCloseChan
  else exists pre post,
      evs = pre ++ EvCloseChan :: post /\
      (EvCloseChan ∉ pre) /\
      forall e, e ∈ post -> is_send e = false /\ e <> EvCloseChan.
Proof.
  revert sys w. induction acts as [|a acts IH]; intros sys w Hl.
  - cbn. rewrite Hl, since_refl. intros e He. inversion He.
  - cbn zeta. rewrite run_cons. destruct (act_facts a sys w) as (ea & Ha & Hf).
    destruct (run_trace acts (fst (act a sys w)) (snd (act a sys w))) as (er & Hr).
    rewrite (since_trans _ _ _ _ _ Ha Hr).
    destruct (looping (fst (act a sys w))) eqn:Hl1.
    + specialize (IH _ (snd (act a sys w)) Hl1). cbn zeta in IH.
      rewrite (since_app _ _ _ Hr) in IH.
      pose proof (sf_going _ _ _ _ Hf Hl1) as Hea.
      destruct (looping (fst (run acts _ _))).
      * intros e He. apply elem_of_app in He. destruct He; auto.
      * destruct IH as (pre & post & -> & Hpre & Hpost).
        exists (ea ++ pre), post. split; [apply app_assoc|]. split; [|exact Hpost].
        intros He. apply elem_of_app in He. destruct He as [He | He]; [|auto].
        exact (Hea _ He eq_refl).
    + destruct (sf_exit _ _ _ _ Hf Hl Hl1) as (pre & -> & Hpre).
      destruct (run_stopped acts _ (snd (act a sys w)) Hl1) as [Hl2 Her].
      rewrite Hl2. rewrite (since_app _ _ _ Hr) in Her.
      exists pre, er. split; [rewrite <- app_assoc; reflexivity|]. split; assumption.
Qed.

(** After a [Close] that went through, the flag stays on: every further
    [Close] returns nil and no handle is closed. *)
Lemma run_closed (acts : list Action) (sys : System) (w : World) :
  closed (sub sys) = true ->
  closed (sub (fst (run acts sys w))) = true /\
  closes (fst (run acts sys w))
  = closes sys ++ replicate (length (filter (fun a => is_ActClose a = true) acts)) None /\
  forall e, e ∈ since w (snd (run acts sys w)) -> is_close e = false.
Proof.
  revert sys w. induction acts as [|a acts IH]; intros sys w Hc.
  - cbn. rewrite since_refl, app_nil_r. repeat split; auto. intros e He. inversion He.
  - rewrite run_cons. destruct (act_facts a sys w) as (ea & Ha & Hf).
    destruct (sf_closed _ _ _ _ Hf Hc) as (Hc1 & Hcl & Hea).
    destruct (IH _ (snd (act a sys w)) Hc1) as (Hc2 & Hcl2 & Her).
    destruct (run_trace acts (fst (act a sys w)) (snd (act a sys w))) as (er & Hr).
    rewrite (since_trans _ _ _ _ _ Ha Hr). rewrite (since_app _ _ _ Hr) in Her.
    split; [exact Hc2|]. split.
    + rewrite Hcl2, Hcl. destruct a; cbn; rewrite <- ?app_assoc, ?app_nil_r; reflexivity.
    + intros e He. apply elem_of_app in He. destruct He; auto.
Qed.

Lemma run_closes (acts : list Action) (sys : System) (w : World) :
  (None ∈ closes sys -> closed (sub sys) = true) ->
  None ∈ closes (fst (run acts sys w)) -> closed (sub (fst (run acts sys w))) = true.
Proof.
  revert sys w. induction acts as [|a acts IH]; intros sys w Hinv.
  - exact Hinv.
  - rewrite run_cons. destruct (act_facts a sys w) as (ea & Ha & Hf).
    apply IH. exact (sf_closes _ _ _ _ Hf Hinv).
Qed.

Lemma run_looping (acts : list Action) (sys : System) (w : World) :
  looping (fst (run acts sys w)) = looping sys && negb (existsb is_failure acts).
Proof.
  revert sys w. induction acts as [|a acts IH]; intros sys w.
  - cbn. symmetry. apply andb_true_r.
  - rewrite run_cons, IH. destruct (act_facts a sys w) as (ea & Ha & Hf).
    rewrite (sf_looping _ _ _ _ Hf). cbn [existsb].
    destruct (looping sys), (is_failure a), (existsb is_failure acts); reflexivity.
Qed.

Lemma run_app (acts1 acts2 : list Action) (sys : System) (w : World) :
  run (acts1 ++ acts2) sys w
  = run acts2 (fst (run acts1 sys w)) (snd (run acts1 sys w)).
Proof.
  revert sys w. induction acts1 as [|a acts1 IH]; intros sys w.
  - reflexivity.
  - rewrite <- app_comm_cons, !run_cons. apply IH.
Qed.

Lemma count_absent (x : Event) (l : list Event) :
  (forall e, e ∈ l -> e <> x) -> count x l = 0%nat.
Proof.
  intros H. unfold count. induction l as [|e l IH]; [reflexivity|].
  rewrite filter_cons. destruct (decide (e = x)) as [->|Hne].
  - exfalso. apply (H x); [left | reflexivity].
  - apply IH. intros e' He'. apply H. right. exact He'.
Qed.

Lemma count_once (x : Event) (pre post : list Event) :
  x ∉ pre -> (forall e, e ∈ post -> e <> x) -> count x (pre ++ x :: post) = 1%nat.
Proof.
  intros Hpre Hpost. rewrite count_app.
  rewrite (count_absent x pre) by (intros e He ->; exact (Hpre He)).
  change (x :: post) with ([x] ++ post). rewrite count_app.
  rewrite (count_absent x post) by exact Hpost.
  unfold count. rewrite filter_cons. destruct (decide (x = x)); [reflexivity | congruence].
Qed.

Lemma Close_never_closes_sink (s : Subscription) (w : World) :
  EvCloseChan ∉ since w (snd (Subscription_Close s w)).
Proof.
  rewrite Close_run.
  destruct (closed s); [|destruct (kernel_verdict (Port s) w)];
    cbn [snd]; erewrite since_app by reflexivity;
    intros He; in_list He; discriminate.
Qed.

(** C8: in every interleaving of [Close] calls and turns of the loop,
    - once a [Close] has returned nil, each further [Close] returns nil and
      no close of a handle is issued any more;
    - the sink is closed by the loop alone: not while the loop runs, once
      when it has left, with nothing sent afterwards, and the loop leaves
      exactly when a dequeue fails;
    - no [Close] call closes the sink. *)
Theorem Close_idempotent_sink_once (p : Z) (w : World) (acts1 acts2 : list Action) :
  let '(sys1, w1) := run acts1 (started p) w in
  let '(sys2, w2) := run acts2 sys1 w1 in
  let evs := since w w2 in
  (None ∈ closes sys1 ->
   closes sys2
   = closes sys1 ++ replicate (length (filter (fun a => is_ActClose a = true) acts2)) None /\
   forall e, e ∈ since w1 w2 -> is_close e = false) /\
  (if looping sys2
   then forall e, e ∈ evs -> e <> EvCloseChan
   else exists pre post,
       evs = pre ++ EvCloseChan :: post /\
       (EvCloseChan ∉ pre) /\
       forall e, e ∈ post -> is_send e = false /\ e <> EvCloseChan) /\
  count EvCloseChan evs = (if looping sys2 then 0 else 1)%nat /\
  looping sys2 = negb (existsb is_failure (acts1 ++ acts2)) /\
  (forall s w0, EvCloseChan ∉ since w0 (snd (Subscription_Close s w0))).
Proof.
  pose proof (run_app acts1 acts2 (started p) w) as Happ.
  pose proof (run_closes acts1 (started p) w) as Hinv.
  pose proof (run_sink (acts1 ++ acts2) (started p) w eq_refl) as Hsink.
  pose proof (run_looping (acts1 ++ acts2) (started p) w) as Hloop.
  cbn zeta in Hsink. rewrite Happ in Hsink, Hloop.
  destruct (run acts1 (started p) w) as [sys1 w1]. cbn [fst snd] in *.
  pose proof (run_closed acts2 sys1 w1) as Hclosed.
  destruct (run acts2 sys1 w1) as [sys2 w2]. cbn [fst snd] in *.
  split; [|split; [exact Hsink|split; [|split]]].
  - intros Hin. apply Hclosed. apply Hinv; [|exact Hin].
    intros H. inversion H.
  - destruct (looping sys2).
    + apply count_absent. exact Hsink.
    + destruct Hsink as (pre & post & -> & Hpre & Hpost).
      apply count_once; [exact Hpre|]. intros e He. apply (Hpost e He).
  - exact Hloop.
  - apply Close_never_closes_sink.
Qed.

(** ** CPU rate *)

Section CPURateFacts.

Variable netBandwidthLimit_set netDSCPTagLimit_set :
  Z -> jobapi.JOBOBJECT_NET_RATE_CONTROL_INFORMATION -> jobapi.JOBOBJECT_NET_RATE_CONTROL_INFORMATION.

Local Abbreviation Limit_set := (Limit_set netBandwidthLimit_set netDSCPTagLimit_set).

(** C5, amended: whatever the cache holds, setting a hard cap [v > 0], a
    weight [v > 0] or a min/max pair with [max > 0] overwrites the control
    flags with the flag of that sub-mode and the enable and notify bits,
    so that this sub-mode alone is active, and the rate read back from
    the block is the one that was set, the pair [(min, max)] included. *)
Theorem cpu_submodes_exclusive (job : JobObject) (v min max : Z) :
  0 < v -> 0 <= min < 65536 -> 0 < max < 65536 ->
  let hard := Limit_set (WithCPUHardCapLimit v) job in
  let weighted := Limit_set (WithCPUWeightedLimit v) job in
  let minmax := Limit_set (WithCPUMinMaxLimit min max) job in
  (CPUFlags_of hard
   = Z.lor (Z.lor jobapi.JOB_OBJECT_CPU_RATE_CONTROL_HARD_CAP
                  jobapi.JOB_OBJECT_CPU_RATE_CONTROL_ENABLE)
           jobapi.JOB_OBJECT_CPU_RATE_CONTROL_NOTIFY /\
   active_submodes (CPUFlags_of hard) = [jobapi.JOB_OBJECT_CPU_RATE_CONTROL_HARD_CAP] /\
   cpuLimit_LimitValue LimitCPU hard = {| Min := 0; Max := 0; Weight := 0; HardCap := v |}) /\
  (CPUFlags_of weighted
   = Z.lor (Z.lor jobapi.JOB_OBJECT_CPU_RATE_CONTROL_WEIGHT_BASED
                  jobapi.JOB_OBJECT_CPU_RATE_CONTROL_ENABLE)
           jobapi.JOB_OBJECT_CPU_RATE_CONTROL_NOTIFY /\
   active_submodes (CPUFlags_of weighted) = [jobapi.JOB_OBJECT_CPU_RATE_CONTROL_WEIGHT_BASED] /\
   cpuLimit_LimitValue LimitCPU weighted = {| Min := 0; Max := 0; Weight := v; HardCap := 0 |}) /\
  (CPUFlags_of minmax
   = Z.lor (Z.lor jobapi.JOB_OBJECT_CPU_RATE_CONTROL_MIN_MAX_RATE
                  jobapi.JOB_OBJECT_CPU_RATE_CONTROL_ENABLE)
           jobapi.JOB_OBJECT_CPU_RATE_CONTROL_NOTIFY /\
   active_submodes (CPUFlags_of minmax) = [jobapi.JOB_OBJECT_CPU_RATE_CONTROL_MIN_MAX_RATE] /\
   cpuLimit_LimitValue LimitCPU minmax = {| Min := min; Max := max; Weight := 0; HardCap := 0 |}).
Proof.
  intros Hv Hmin Hmax. cbn zeta.
  assert (Hvb : (0 <? v) = true) by (apply Z.ltb_lt; lia).
  assert (Hmb : (0 <? max) = true) by (apply Z.ltb_lt; lia).
  unfold Limit_set, WithCPUHardCapLimit, WithCPUWeightedLimit, WithCPUMinMaxLimit,
    cpuLimit_set, CPUFlags_of, cpuLimit_LimitValue.
  cbn [HardCap Weight Max Min]. rewrite Hvb, Hmb.
  change (0 <? 0) with false. cbn iota.
  cbn [Info with_Info store CPURateControl jobapi.ControlFlags jobapi.Value].
  repeat split; try reflexivity.
  destruct (pack_unpack min max) as (x & Hx & Hlo & Hhi); [lia | lia |].
  rewrite Hx. cbn [default from_option id].
  change (0 <? Z.land _ jobapi.JOB_OBJECT_CPU_RATE_CONTROL_HARD_CAP) with false.
  change (0 <? Z.land _ jobapi.JOB_OBJECT_CPU_RATE_CONTROL_WEIGHT_BASED) with false.
  change (0 <? Z.land _ jobapi.JOB_OBJECT_CPU_RATE_CONTROL_MIN_MAX_RATE) with true.
  cbn iota. rewrite Hlo, Hhi. reflexivity.
Qed.

End CPURateFacts.

(** The amended C5 for the values 500 and (500, 1000). *)
Lemma cpu_submodes_exclusive_witness :
  let hard := Sample.Limit_set (WithCPUHardCapLimit 500) Sample.job in
  let weighted := Sample.Limit_set (WithCPUWeightedLimit 500) Sample.job in
  let minmax := Sample.Limit_set (WithCPUMinMaxLimit 500 1000) Sample.job in
  (CPUFlags_of hard = 13 /\ active_submodes (CPUFlags_of hard) = [4] /\
   cpuLimit_LimitValue LimitCPU hard = {| Min := 0; Max := 0; Weight := 0; HardCap := 500 |}) /\
  (CPUFlags_of weighted = 11 /\ active_submodes (CPUFlags_of weighted) = [2] /\
   cpuLimit_LimitValue LimitCPU weighted = {| Min := 0; Max := 0; Weight := 500; HardCap := 0 |}) /\
  (CPUFlags_of minmax = 25 /\ active_submodes (CPUFlags_of minmax) = [16] /\
   cpuLimit_LimitValue LimitCPU minmax = {| Min := 500; Max := 1000; Weight := 0; HardCap := 0 |}).
Proof.
  apply (cpu_submodes_exclusive (Sample.net_flag 2 true) (Sample.net_flag 4 true)
           Sample.job 500 500 1000); lia.
Defined.

(** C5 as stated fails for a zero value: the hard cap 0 matches no case of
    the switch, the flags become enable and notify alone and no sub-mode is
    active. *)
Lemma cpu_zero_value_no_submode :
  let job' := Sample.Limit_set (WithCPUHardCapLimit 0) Sample.job in
  CPUFlags_of job' = 9 /\
  active_submodes (CPUFlags_of job') = [] /\
  ~ (exists f, active_submodes (CPUFlags_of job') = [f]).
Proof.
  vm_compute. repeat split; try reflexivity.
  intros [f Hf]. discriminate Hf.
Qed.

(** ** Queries and write-backs *)

Lemma QueryInfo_run (h : Z) (c : jobapi.JobObjectInformationClass) (info : JobInfo) (w : World) :
  QueryInfo h c info w =
  match kernel_verdict h w with
  | None => (store info (infoPtr (kernel w) c), None,
             called w (EvQueryInformationJobObject h c None))
  | Some e => (info, Some (Go.SyscallError "QueryInformationJobObject" e),
               called w (EvQueryInformationJobObject h c (Some e)))
  end.
Proof.
  unfold QueryInfo, jobapi_calls.QueryInformationJobObject, bind at 1 2.
  rewrite kernel_call_run. unfold called.
  destruct (kernel_verdict h w); io; cbn; reflexivity.
Qed.

Lemma SetInfo_run (h : Z) (c : jobapi.JobObjectInformationClass) (info : JobInfo) (w : World) :
  SetInfo h c info w =
  match kernel_verdict h w with
  | None => (info, None,
             with_kernel (called w (EvSetInformationJobObject h c None))
                         (store (kernel w) (infoPtr info c)))
  | Some e => (info, Some (Go.SyscallError "SetInformationJobObject" e),
               called w (EvSetInformationJobObject h c (Some e)))
  end.
Proof.
  unfold SetInfo, jobapi_calls.SetInformationJobObject, bind at 1 2.
  rewrite kernel_call_run. unfold called, with_kernel.
  destruct (kernel_verdict h w); io; cbn; reflexivity.
Qed.

Lemma with_Info_same (job : JobObject) : with_Info job (Info job) = job.
Proof. destruct job; reflexivity. Qed.

(** The slots of the cache are independent. *)
Lemma infoPtr_store (info src : JobInfo) (c c' : jobapi.JobObjectInformationClass) :
  infoPtr (store info (infoPtr src c)) c'
  = if decide (c = c') then infoPtr src c' else infoPtr info c'.
Proof. destruct c, c'; reflexivity. Qed.

(** A successful run of [sync] over the queries. *)
Lemma sync_QueryInfo_ok (classes : list jobapi.JobObjectInformationClass)
    (job job' : JobObject) (w w' : World) :
  sync QueryInfo classes job w = (job', None, w') ->
  Name job' = Name job /\ Handle job' = Handle job /\
  kernel w' = kernel w /\ live w' = live w /\
  trace w' = trace w ++ map (fun c => EvQueryInformationJobObject (Handle job) c None) classes /\
  forall c, infoPtr (Info job') c
            = if bool_decide (c ∈ classes) then infoPtr (kernel w) c else infoPtr (Info job) c.
Proof.
  revert job w. induction classes as [|c0 classes IH]; intros job w H.
  - cbn in H. inversion H; subst. rewrite app_nil_r. repeat split; reflexivity.
  - cbn [sync] in H. unfold bind in H. rewrite QueryInfo_run in H.
    destruct (kernel_verdict (Handle job) w) eqn:Hv; [discriminate H|].
    apply IH in H. cbn [Name Handle Info with_Info kernel live trace called] in H.
    destruct H as (Hn & Hh & Hk & Hl & Ht & Hi).
    repeat split; try assumption.
    + rewrite Ht. cbn [map]. rewrite <- app_assoc. reflexivity.
    + intros c. rewrite Hi, infoPtr_store.
      destruct (decide (c0 = c)) as [->|Hne].
      * rewrite (bool_decide_eq_true_2 (c ∈ c :: classes)) by left.
        destruct (bool_decide (c ∈ classes)); reflexivity.
      * destruct (bool_decide (c ∈ classes)) eqn:Hin.
        -- apply bool_decide_eq_true in Hin.
           rewrite bool_decide_eq_true_2 by (right; exact Hin). reflexivity.
        -- apply bool_decide_eq_false in Hin.
           rewrite bool_decide_eq_false_2; [reflexivity|].
           intros Hc. apply elem_of_cons in Hc. destruct Hc; [congruence | contradiction].
Qed.

(** Any run of [sync] over the queries: the job keeps its handle, the
    kernel its blocks, and the log grows by queries of a prefix of the
    classes; only the last of them can have failed. *)
Lemma sync_QueryInfo_log (classes : list jobapi.JobObjectInformationClass)
    (job job' : JobObject) (e : option Go.error) (w w' : World) :
  sync QueryInfo classes job w = (job', e, w') ->
  Name job' = Name job /\ Handle job' = Handle job /\
  kernel w' = kernel w /\ live w' = live w /\
  exists evs,
    trace w' = trace w ++ evs /\
    omap query_of evs `prefix_of` classes /\
    (forall ev, ev ∈ evs -> exists c r, ev = EvQueryInformationJobObject (Handle job) c r) /\
    (forall x, e = Some x -> exists pre c r,
        evs = pre ++ [EvQueryInformationJobObject (Handle job) c (Some r)]).
Proof.
  revert job w. induction classes as [|c0 classes IH]; intros job w H.
  - cbn in H. inversion H; subst. repeat split; try reflexivity.
    exists []. rewrite app_nil_r. repeat split; try reflexivity.
    + intros ev Hev. inversion Hev.
    + intros x Hx. discriminate Hx.
  - cbn [sync] in H. unfold bind in H. rewrite QueryInfo_run in H.
    destruct (kernel_verdict (Handle job) w) as [x|] eqn:Hv.
    + inversion H; subst. cbn. repeat split; try reflexivity.
      eexists. split; [reflexivity|]. repeat split.
      * cbn. exists classes. reflexivity.
      * intros ev Hev. in_list Hev. eauto.
      * intros y _. exists [], c0, x. reflexivity.
    + apply IH in H. cbn [Name Handle Info with_Info kernel live trace called] in H.
      destruct H as (Hn & Hh & Hk & Hl & evs & Ht & Hp & Hall & Hlast).
      repeat split; try assumption.
      exists (EvQueryInformationJobObject (Handle job) c0 None :: evs).
      split; [rewrite Ht, <- app_assoc; reflexivity|]. repeat split.
      * cbn. apply prefix_cons. exact Hp.
      * intros ev Hev. apply elem_of_cons in Hev. destruct Hev as [->|Hev]; eauto.
      * intros y Hy. destruct (Hlast y Hy) as (pre & c & r & ->).
        exists (EvQueryInformationJobObject (Handle job) c0 None :: pre), c, r. reflexivity.
Qed.

(** A successful run of [sync] over the write-backs. *)
Lemma sync_SetInfo_ok (classes : list jobapi.JobObjectInformationClass)
    (job job' : JobObject) (w w' : World) :
  sync SetInfo classes job w = (job', None, w') ->
  job' = job /\ live w' = live w /\
  trace w' = trace w ++ map (fun c => EvSetInformationJobObject (Handle job) c None) classes /\
  forall c, infoPtr (kernel w') c
            = if bool_decide (c ∈ classes) then infoPtr (Info job) c else infoPtr (kernel w) c.
Proof.
  revert w. induction classes as [|c0 classes IH]; intros w H.
  - cbn in H. inversion H; subst. rewrite app_nil_r. repeat split; reflexivity.
  - cbn [sync] in H. unfold bind in H. rewrite SetInfo_run in H.
    destruct (kernel_verdict (Handle job) w) eqn:Hv; [discriminate H|].
    rewrite with_Info_same in H. apply IH in H.
    cbn [kernel live trace called with_kernel] in H.
    destruct H as (Hj & Hl & Ht & Hi).
    repeat split; try assumption.
    + rewrite Ht. cbn [map]. rewrite <- app_assoc. reflexivity.
    + intros c. rewrite Hi.
      destruct (bool_decide (c ∈ classes)) eqn:Hin.
      * apply bool_decide_eq_true in Hin.
        rewrite bool_decide_eq_true_2 by (right; exact Hin). reflexivity.
      * apply bool_decide_eq_false in Hin. rewrite infoPtr_store.
        destruct (decide (c0 = c)) as [->|Hne].
        -- rewrite bool_decide_eq_true_2 by left. reflexivity.
        -- rewrite bool_decide_eq_false_2; [reflexivity|].
           intros Hc. apply elem_of_cons in Hc. destruct Hc; [congruence | contradiction].
Qed.

(** Any run of [sync] over the write-backs. *)
Lemma sync_SetInfo_log (classes : list jobapi.JobObjectInformationClass)
    (job job' : JobObject) (e : option Go.error) (w w' : World) :
  sync SetInfo classes job w = (job', e, w') ->
  job' = job /\ live w' = live w /\
  exists evs,
    trace w' = trace w ++ evs /\
    omap write_of evs `prefix_of` classes /\
    (forall ev, ev ∈ evs -> exists c r, ev = EvSetInformationJobObject (Handle job) c r).
Proof.
  revert w. induction classes as [|c0 classes IH]; intros w H.
  - cbn in H. inversion H; subst. repeat split; try reflexivity.
    exists []. rewrite app_nil_r. repeat split; try reflexivity.
    intros ev Hev. inversion Hev.
  - cbn [sync] in H. unfold bind in H. rewrite SetInfo_run in H.
    destruct (kernel_verdict (Handle job) w) as [x|] eqn:Hv.
    + inversion H; subst. rewrite with_Info_same. cbn. repeat split; try reflexivity.
      eexists. split; [reflexivity|]. split.
      * cbn. exists classes. reflexivity.
      * intros ev Hev. in_list Hev. eauto.
    + rewrite with_Info_same in H. apply IH in H.
      cbn [kernel live trace called with_kernel] in H.
      destruct H as (Hj & Hl & evs & Ht & Hp & Hall).
      repeat split; try assumption.
      exists (EvSetInformationJobObject (Handle job) c0 None :: evs).
      split; [rewrite Ht, <- app_assoc; reflexivity|]. split.
      * cbn. apply prefix_cons. exact Hp.
      * intros ev Hev. apply elem_of_cons in Hev. destruct Hev as [->|Hev]; eauto.
Qed.

Lemma infoPtr_store_same (info src : JobInfo) (c : jobapi.JobObjectInformationClass) :
  infoPtr (store info (infoPtr src c)) c = infoPtr src c.
Proof. destruct c; reflexivity. Qed.

Lemma infoPtr_store_other (info src : JobInfo) (c c' : jobapi.JobObjectInformationClass) :
  c <> c' -> infoPtr (store info (infoPtr src c)) c' = infoPtr info c'.
Proof. intros H. destruct c, c'; try reflexivity; congruence. Qed.

(** Any run of [sync] over the queries, with what it leaves in the cache:
    the slots of the classes queried before the first failure hold the
    kernel's blocks, the others stay. *)
Lemma sync_QueryInfo_partial (classes : list jobapi.JobObjectInformationClass)
    (job job' : JobObject) (e : option Go.error) (w w' : World) :
  sync QueryInfo classes job w = (job', e, w') ->
  exists done,
    done `prefix_of` classes /\
    (forall c, infoPtr (Info job') c
               = if bool_decide (c ∈ done) then infoPtr (kernel w) c else infoPtr (Info job) c) /\
    match e with
    | None =>
        done = classes /\
        since w w' = map (fun c => EvQueryInformationJobObject (Handle job) c None) classes
    | Some x =>
        exists c r rest,
          classes = done ++ c :: rest /\
          x = Go.SyscallError "QueryInformationJobObject" r /\
          since w w' = map (fun c => EvQueryInformationJobObject (Handle job) c None) done
                       ++ [EvQueryInformationJobObject (Handle job) c (Some r)]
    end.
Proof.
  revert job w. induction classes as [|c0 classes IH]; intros job w H.
  - cbn in H. inversion H; subst. exists []. rewrite since_refl.
    split; [apply prefix_nil|]. split; [reflexivity|]. split; reflexivity.
  - cbn [sync] in H. unfold bind in H. rewrite QueryInfo_run in H.
    destruct (kernel_verdict (Handle job) w) as [x|] eqn:Hv.
    + inversion H; subst. exists [].
      split; [apply prefix_nil|]. split; [intros c; rewrite with_Info_same; reflexivity|].
      exists c0, x, classes. split; [reflexivity|]. split; [reflexivity|].
      apply since_app. reflexivity.
    + pose proof (sync_QueryInfo_log _ _ _ _ _ _ H) as (_ & _ & Hk & _ & evs & Ht & _).
      apply IH in H. destruct H as (done & Hp & Hi & He).
      assert (Hs : since w w' = EvQueryInformationJobObject (Handle job) c0 None :: evs).
      { apply since_app. rewrite Ht. cbn. rewrite <- app_assoc. reflexivity. }
      rewrite (since_app _ _ _ Ht) in He.
      cbn [Handle Info with_Info kernel called] in Hi, He.
      exists (c0 :: done).
      split; [apply prefix_cons; exact Hp|]. split.
      * intros c. rewrite Hi.
        destruct (decide (c = c0)) as [-> | Hne].
        -- rewrite (bool_decide_eq_true_2 (c0 ∈ c0 :: done)) by left.
           rewrite infoPtr_store_same.
           destruct (bool_decide (c0 ∈ done)); reflexivity.
        -- rewrite infoPtr_store_other by congruence.
           destruct (bool_decide (c ∈ done)) eqn:Hd.
           ++ apply bool_decide_eq_true in Hd.
              rewrite bool_decide_eq_true_2 by (right; exact Hd). reflexivity.
           ++ apply bool_decide_eq_false in Hd.
              rewrite bool_decide_eq_false_2; [reflexivity|].
              intros Hc. apply elem_of_cons in Hc. destruct Hc; [congruence | contradiction].
      * rewrite Hs. destruct e as [y|].
        -- destruct He as (c & r & rest & -> & -> & ->).
           exists c, r, rest. repeat split; reflexivity.
        -- destruct He as [-> ->]. split; reflexivity.
Qed.

(** Any run of [sync] over the write-backs, with what it leaves in the
    kernel: the write-backs before the first failure went through and the
    kernel holds the cache's blocks for them; the failing one is the last
    event, and its error, wrapped, is what [sync] returns. *)
Lemma sync_SetInfo_run (classes : list jobapi.JobObjectInformationClass)
    (job job' : JobObject) (e : option Go.error) (w w' : World) :
  sync SetInfo classes job w = (job', e, w') ->
  job' = job /\ live w' = live w /\
  exists done,
    (forall c, infoPtr (kernel w') c
               = if bool_decide (c ∈ done) then infoPtr (Info job) c else infoPtr (kernel w) c) /\
    match e with
    | None =>
        done = classes /\
        since w w' = map (fun c => EvSetInformationJobObject (Handle job) c None) classes
    | Some x =>
        exists c r rest,
          classes = done ++ c :: rest /\
          x = Go.SyscallError "SetInformationJobObject" r /\
          since w w' = map (fun c => EvSetInformationJobObject (Handle job) c None) done
                       ++ [EvSetInformationJobObject (Handle job) c (Some r)]
    end.
Proof.
  revert w. induction classes as [|c0 classes IH]; intros w H.
  - cbn in H. inversion H; subst. split; [reflexivity|]. split; [reflexivity|].
    exists []. rewrite since_refl. split; [reflexivity|]. split; reflexivity.
  - cbn [sync] in H. unfold bind in H. rewrite SetInfo_run in H.
    destruct (kernel_verdict (Handle job) w) as [x|] eqn:Hv.
    + inversion H; subst. rewrite with_Info_same. split; [reflexivity|]. split; [reflexivity|].
      exists []. split; [reflexivity|].
      exists c0, x, classes. split; [reflexivity|]. split; [reflexivity|].
      apply since_app. reflexivity.
    + rewrite with_Info_same in H.
      pose proof (sync_SetInfo_log _ _ _ _ _ _ H) as (_ & _ & evs & Ht & _ & _).
      apply IH in H. destruct H as (Hj & Hl & done & Hk & He).
      rewrite (since_app _ _ _ Ht) in He.
      cbn [kernel live trace called with_kernel] in Ht, Hk, Hl.
      split; [exact Hj|]. split; [exact Hl|].
      exists (c0 :: done). split.
      * intros c. rewrite Hk.
        destruct (bool_decide (c ∈ done)) eqn:Hd.
        -- apply bool_decide_eq_true in Hd.
           rewrite bool_decide_eq_true_2 by (right; exact Hd). reflexivity.
        -- apply bool_decide_eq_false in Hd. rewrite infoPtr_store.
           destruct (decide (c0 = c)) as [->|Hne].
           ++ rewrite bool_decide_eq_true_2 by left. reflexivity.
           ++ rewrite bool_decide_eq_false_2; [reflexivity|].
              intros Hc. apply elem_of_cons in Hc. destruct Hc; [congruence | contradiction].
      * rewrite (since_app w w' (EvSetInformationJobObject (Handle job) c0 None :: evs))
          by (rewrite Ht, <- app_assoc; reflexivity).
        destruct e as [y|].
        -- destruct He as (c & r & rest & -> & -> & ->).
           exists c, r, rest. repeat split; reflexivity.
        -- destruct He as [-> ->]. split; reflexivity.
Qed.

(** ** ResetLimits and HasLimits *)

Lemma limitInfoClassesSet_spec (job : JobObject) (c : jobapi.JobObjectInformationClass) :
  c ∈ limitInfoClassesSet job <-> nonempty (Info job) c.
Proof.
  unfold limitInfoClassesSet, nonempty. cbn [fold_left fst snd].
  destruct (Z.ltb_spec 0 (jobapi.LimitFlags (jobapi.BasicLimitInformation (ExtendedLimits (Info job)))));
  destruct (Z.ltb_spec 0 (jobapi.UIRestrictionsClass (UIRestrictions (Info job))));
  destruct (Z.ltb_spec 0 (jobapi.ControlFlags (CPURateControl (Info job))));
  destruct (Z.ltb_spec 0 (jobapi.NetControlFlags (NetRateControl (Info job))));
  cbn [app]; destruct c; split; intros Hc;
    try (in_list Hc; try discriminate; assumption);
    try (exfalso; lia); try contradiction;
    apply list_elem_of_In; cbn; tauto.
Qed.

Lemma limitInfoClassesSet_NoDup (job : JobObject) : NoDup (limitInfoClassesSet job).
Proof.
  unfold limitInfoClassesSet. cbn [fold_left fst snd].
  destruct (0 <? _), (0 <? _), (0 <? _), (0 <? _); cbn [app];
    apply NoDup_ListNoDup; repeat constructor; cbn; intuition discriminate.
Qed.

Lemma limitInfoClassesSet_limit (job : JobObject) (c : jobapi.JobObjectInformationClass) :
  c ∈ limitInfoClassesSet job -> c ∈ limitClasses.
Proof.
  intros H. apply limitInfoClassesSet_spec in H.
  destruct c; try contradiction; apply list_elem_of_In; cbn; tauto.
Qed.

Lemma nonempty_slot (i1 i2 : JobInfo) (c : jobapi.JobObjectInformationClass) :
  infoPtr i1 c = infoPtr i2 c -> nonempty i1 c <-> nonempty i2 c.
Proof. destruct c; cbn; intros H; inversion H; tauto. Qed.

Lemma nonempty_zero (c : jobapi.JobObjectInformationClass) : ~ nonempty zero_JobInfo c.
Proof. destruct c; cbn; lia. Qed.

Lemma limitInfoClassesSet_nil (job : JobObject) :
  (forall c, c ∈ limitClasses -> ~ nonempty (Info job) c) -> limitInfoClassesSet job = [].
Proof.
  intros H. destruct (limitInfoClassesSet job) as [|c l] eqn:Hl; [reflexivity|].
  exfalso. assert (Hc : c ∈ limitInfoClassesSet job) by (rewrite Hl; left).
  apply (H c); [exact (limitInfoClassesSet_limit _ _ Hc) | apply limitInfoClassesSet_spec; exact Hc].
Qed.

Lemma writes_map_Set (h : Z) (c : jobapi.JobObjectInformationClass)
    (classes : list jobapi.JobObjectInformationClass) :
  writes c (map (fun c => EvSetInformationJobObject h c None) classes)
  = length (filter (fun x => x = c) classes).
Proof.
  unfold writes. induction classes as [|c0 classes IH]; [reflexivity|].
  cbn [map]. rewrite !filter_cons. cbn [write_of].
  destruct (decide (c0 = c)) as [->|Hne].
  - rewrite decide_True by reflexivity. cbn. f_equal. exact IH.
  - rewrite decide_False by congruence. exact IH.
Qed.

Lemma filter_eq_NoDup {A} `{EqDecision A} (x : A) (l : list A) :
  NoDup l -> length (filter (fun y => y = x) l) = if bool_decide (x ∈ l) then 1%nat else 0%nat.
Proof.
  induction 1 as [|y l Hy Hl IH]; [reflexivity|].
  rewrite filter_cons. destruct (decide (y = x)) as [->|Hne].
  - rewrite bool_decide_eq_true_2 by left. cbn. f_equal.
    rewrite IH. rewrite bool_decide_eq_false_2 by exact Hy. reflexivity.
  - rewrite IH. destruct (bool_decide (x ∈ l)) eqn:Hin.
    + apply bool_decide_eq_true in Hin. rewrite bool_decide_eq_true_2 by (right; exact Hin).
      reflexivity.
    + apply bool_decide_eq_false in Hin. rewrite bool_decide_eq_false_2; [reflexivity|].
      intros Hc. apply elem_of_cons in Hc. destruct Hc; [congruence | contradiction].
Qed.

Lemma writes_queries_only (h : Z) (c : jobapi.JobObjectInformationClass)
    (classes : list jobapi.JobObjectInformationClass) :
  writes c (map (fun c => EvQueryInformationJobObject h c None) classes) = 0%nat.
Proof. unfold writes. induction classes; [reflexivity|]. cbn [map]. rewrite filter_cons. cbn. exact IHclasses. Qed.

Lemma writes_app (c : jobapi.JobObjectInformationClass) (l1 l2 : list Event) :
  writes c (l1 ++ l2) = (writes c l1 + writes c l2)%nat.
Proof. unfold writes. rewrite filter_app. apply length_app. Qed.

Lemma queries_app (c : jobapi.JobObjectInformationClass) (l1 l2 : list Event) :
  queries c (l1 ++ l2) = (queries c l1 + queries c l2)%nat.
Proof. unfold queries. rewrite filter_app. apply length_app. Qed.

(** The write events of a log, counted through their classes. *)
Lemma writes_omap (c : jobapi.JobObjectInformationClass) (evs : list Event) :
  writes c evs = length (filter (fun x => x = c) (omap write_of evs)).
Proof.
  unfold writes. induction evs as [|ev evs IH]; [reflexivity|].
  rewrite filter_cons.
  change (omap write_of (ev :: evs))
    with (match write_of ev with Some y => y :: omap write_of evs | None => omap write_of evs end).
  destruct (write_of ev) as [c'|] eqn:Hw.
  - rewrite filter_cons. destruct (decide (c' = c)) as [->|Hne].
    + rewrite decide_True by reflexivity. cbn. f_equal. exact IH.
    + rewrite decide_False by congruence. exact IH.
  - rewrite decide_False by discriminate. exact IH.
Qed.

Lemma queries_omap (c : jobapi.JobObjectInformationClass) (evs : list Event) :
  queries c evs = length (filter (fun x => x = c) (omap query_of evs)).
Proof.
  unfold queries. induction evs as [|ev evs IH]; [reflexivity|].
  rewrite filter_cons.
  change (omap query_of (ev :: evs))
    with (match query_of ev with Some y => y :: omap query_of evs | None => omap query_of evs end).
  destruct (query_of ev) as [c'|] eqn:Hw.
  - rewrite filter_cons. destruct (decide (c' = c)) as [->|Hne].
    + rewrite decide_True by reflexivity. cbn. f_equal. exact IH.
    + rewrite decide_False by congruence. exact IH.
  - rewrite decide_False by discriminate. exact IH.
Qed.

Lemma omap_none {A B} (f : A -> option B) (l : list A) :
  (forall x, x ∈ l -> f x = None) -> omap f l = [].
Proof.
  induction l as [|x l IH]; intros H; [reflexivity|].
  change (omap f (x :: l)) with (match f x with Some y => y :: omap f l | None => omap f l end).
  rewrite (H x) by left. apply IH. intros y Hy. apply H. right. exact Hy.
Qed.

Lemma queries_none (c : jobapi.JobObjectInformationClass) (l : list Event) :
  (forall ev, ev ∈ l -> query_of ev = None) -> queries c l = 0%nat.
Proof. intros H. rewrite queries_omap, (omap_none _ _ H). reflexivity. Qed.

Lemma writes_none (c : jobapi.JobObjectInformationClass) (l : list Event) :
  (forall ev, ev ∈ l -> write_of ev = None) -> writes c l = 0%nat.
Proof. intros H. rewrite writes_omap, (omap_none _ _ H). reflexivity. Qed.

Lemma filter_prefix_length {A} `{EqDecision A} (x : A) (l1 l2 : list A) :
  l1 `prefix_of` l2 ->
  (length (filter (fun y => y = x) l1) <= length (filter (fun y => y = x) l2))%nat.
Proof. intros [k ->]. rewrite filter_app, length_app. lia. Qed.

(** C6, amended: [ResetLimits] issues the queries of [QueryLimits] first,
    in the order of [limitClasses].  When one of them fails it is the last
    event of the call: the blocks after it are not queried, the error
    returned is the kernel's error of that query, wrapped, the cache holds
    the kernel's blocks for the classes queried before and is otherwise as
    it was, not zeroed, and nothing is written back.  When the four go
    through, the cache holds the kernel's four limit blocks, the whole
    cache is then zeroed, and the write-backs that follow are for the
    blocks that were non-empty, by the flag field of each block; a block
    that was empty is never written.  A write-back that fails is the last
    event of the call, its error, wrapped, is returned, and the kernel
    holds zeroed blocks for the classes written before it and its old
    blocks for the others.  When the write-backs go through too, they are
    exactly the non-empty blocks, once each, the kernel holds zeroed blocks
    for them, and [HasLimits] then reports false. *)
Theorem ResetLimits_protocol (job : JobObject) (w : World) :
  let '(job1, eq, w1) := QueryLimits job w in
  let '(job', e, w') := ResetLimits job w in
  match eq with
  | Some x =>
      e = Some x /\ job' = job1 /\ w' = w1 /\
      (forall c, writes c (since w w') = 0%nat) /\
      omap query_of (since w w') `prefix_of` limitClasses /\
      kernel w' = kernel w /\
      exists done c rest r,
        limitClasses = done ++ c :: rest /\
        since w w' = map (fun c => EvQueryInformationJobObject (Handle job) c None) done
                     ++ [EvQueryInformationJobObject (Handle job) c (Some r)] /\
        x = Go.SyscallError "QueryInformationJobObject" r /\
        forall c', infoPtr (Info job') c'
                   = if bool_decide (c' ∈ done) then infoPtr (kernel w) c'
                     else infoPtr (Info job) c'
  | None =>
      since w w1 = map (fun c => EvQueryInformationJobObject (Handle job) c None) limitClasses /\
      Info job' = zero_JobInfo /\
      (forall c, c ∈ limitInfoClassesSet job1 <-> nonempty (Info job1) c) /\
      (forall c, ~ nonempty (Info job1) c -> writes c (since w w') = 0%nat) /\
      (forall c, (writes c (since w w') <= 1)%nat) /\
      (forall pre post h c r,
         since w w' = pre ++ EvSetInformationJobObject h c r :: post ->
         exists mid, pre = since w w1 ++ mid) /\
      (e = None ->
       since w1 w' = map (fun c => EvSetInformationJobObject (Handle job) c None)
                         (limitInfoClassesSet job1) /\
       (forall c, nonempty (Info job1) c ->
          writes c (since w w') = 1%nat /\ infoPtr (kernel w') c = infoPtr zero_JobInfo c) /\
       (let '(_, limited, _, _) := HasLimits job' w' in limited = false)) /\
      (forall c, c ∈ limitClasses -> infoPtr (Info job1) c = infoPtr (kernel w) c) /\
      (forall y, e = Some y ->
         exists done c rest r,
           limitInfoClassesSet job1 = done ++ c :: rest /\
           since w1 w' = map (fun c => EvSetInformationJobObject (Handle job) c None) done
                         ++ [EvSetInformationJobObject (Handle job) c (Some r)] /\
           y = Go.SyscallError "SetInformationJobObject" r /\
           forall c', infoPtr (kernel w') c'
                      = if bool_decide (c' ∈ done) then infoPtr zero_JobInfo c'
                        else infoPtr (kernel w) c')
  end.
Proof.
  destruct (QueryLimits job w) as [[job1 [x|]] w1] eqn:Hq.
  { unfold ResetLimits, bind. rewrite Hq. unfold ret.
    pose proof (sync_QueryInfo_partial _ _ _ _ _ _ Hq) as (done & _ & Hslots & Hfail).
    apply sync_QueryInfo_log in Hq.
    destruct Hq as (_ & _ & Hk & _ & evs & Ht & Hp & Hall & _).
    rewrite (since_app _ _ _ Ht) in *.
    split; [reflexivity|]. split; [reflexivity|]. split; [reflexivity|].
    split; [|split; [exact Hp|split; [exact Hk|]]].
    - intros c. apply writes_none. intros ev Hev.
      destruct (Hall ev Hev) as (c' & r & ->). reflexivity.
    - destruct Hfail as (c & r & rest & Hcl & Hx & Hevs).
      exists done, c, rest, r. repeat split; assumption. }
  unfold ResetLimits, bind. rewrite Hq.
  destruct (sync SetInfo (limitInfoClassesSet job1) (with_Info job1 zero_JobInfo) w1)
    as [[job' e] w'] eqn:Hs.
  pose proof (sync_QueryInfo_ok _ _ _ _ _ Hq) as (Hn & Hh & Hk & Hl & Ht & Hi).
  pose proof (sync_SetInfo_log _ _ _ _ _ _ Hs) as (Hj & Hl2 & evs & Ht2 & Hp & Hall).
  pose proof (sync_SetInfo_run _ _ _ _ _ _ Hs) as (_ & _ & done & Hkd & Hrun).
  fold limitClasses in Ht.
  rewrite (since_app _ _ _ Ht), (since_trans _ _ _ _ _ Ht Ht2).
  rewrite (since_app _ _ _ Ht2) in *.
  assert (Hw : forall c, (writes c evs
               <= if bool_decide (c ∈ limitInfoClassesSet job1) then 1 else 0)%nat).
  { intros c. rewrite writes_omap.
    etransitivity; [apply filter_prefix_length; exact Hp|].
    rewrite filter_eq_NoDup by apply limitInfoClassesSet_NoDup. reflexivity. }
  split; [reflexivity|]. split; [subst job'; reflexivity|].
  split; [apply limitInfoClassesSet_spec|]. split; [|split; [|split; [|split; [|split]]]].
  - intros c Hc. rewrite writes_app, writes_queries_only. specialize (Hw c).
    rewrite bool_decide_eq_false_2 in Hw by (rewrite limitInfoClassesSet_spec; exact Hc). lia.
  - intros c. rewrite writes_app, writes_queries_only. specialize (Hw c).
    destruct (bool_decide _) in Hw; lia.
  - intros pre post h c r Heq. apply app_eq_app in Heq.
    destruct Heq as [mid [[Hpre Hevs] | [Hpre Hevs]]].
    + destruct mid as [|m mid].
      * exists []. rewrite app_nil_r in Hpre. rewrite Hpre, app_nil_r. reflexivity.
      * exfalso. assert (Hin : EvSetInformationJobObject h c r ∈
                  map (fun c => EvQueryInformationJobObject (Handle job) c None) limitClasses).
        { rewrite Hpre. apply elem_of_app. right. cbn in Hevs. inversion Hevs. left. }
        in_list Hin; discriminate.
    + exists mid. exact Hpre.
  - intros ->. apply sync_SetInfo_ok in Hs. destruct Hs as (_ & _ & Hts & Hks).
    cbn [Handle with_Info] in Hts. rewrite Hh in Hts.
    assert (Hevs : evs = map (fun c => EvSetInformationJobObject (Handle job) c None)
                             (limitInfoClassesSet job1)).
    { rewrite Ht2 in Hts. apply app_inv_head in Hts. exact Hts. }
    split; [exact Hevs|]. split.
    + intros c Hc. split.
      * rewrite writes_app, writes_queries_only, Hevs, writes_map_Set.
        rewrite filter_eq_NoDup by apply limitInfoClassesSet_NoDup.
        rewrite bool_decide_eq_true_2 by (apply limitInfoClassesSet_spec; exact Hc). reflexivity.
      * rewrite Hks. rewrite bool_decide_eq_true_2 by (apply limitInfoClassesSet_spec; exact Hc).
        reflexivity.
    + unfold HasLimits, bind.
      destruct (QueryLimits job' w') as [[job2 e2] w2] eqn:Hq2.
      destruct e2 as [x|]; [reflexivity|].
      pose proof (sync_QueryInfo_ok _ _ _ _ _ Hq2) as (_ & _ & _ & _ & _ & Hi2).
      rewrite limitInfoClassesSet_nil; [reflexivity|].
      intros c Hc Hne.
      assert (Hslot : infoPtr (Info job2) c = infoPtr (kernel w') c).
      { rewrite Hi2. rewrite bool_decide_eq_true_2 by exact Hc. reflexivity. }
      apply (nonempty_slot _ _ _ Hslot) in Hne. revert Hne.
      destruct (bool_decide (c ∈ limitInfoClassesSet job1)) eqn:Hin.
      * intros Hne. apply (nonempty_zero c). eapply nonempty_slot; [|exact Hne].
        rewrite Hks, Hin. reflexivity.
      * apply bool_decide_eq_false in Hin. rewrite limitInfoClassesSet_spec in Hin.
        intros Hne. apply Hin. eapply nonempty_slot; [|exact Hne].
        rewrite Hks. rewrite bool_decide_eq_false_2 by (rewrite limitInfoClassesSet_spec; exact Hin).
        rewrite Hk, Hi. rewrite bool_decide_eq_true_2 by exact Hc. reflexivity.
  - intros c Hc. rewrite Hi. rewrite bool_decide_eq_true_2 by exact Hc. reflexivity.
  - intros y ->. destruct Hrun as (c & r & rest & Hcl & Hy & Hevs).
    cbn [Handle with_Info Info] in Hevs, Hkd. rewrite Hh in Hevs.
    exists done, c, rest, r. repeat split; try assumption.
    intros c'. rewrite Hkd, Hk. reflexivity.
Qed.

(** ** The first loop of applyLimit *)

Lemma split_left {A} (l1 l2 pre post : list A) (x : A) :
  l1 ++ l2 = pre ++ x :: post -> x ∉ l2 -> exists mid, l1 = pre ++ x :: mid.
Proof.
  intros Heq Hx. apply app_eq_app in Heq.
  destruct Heq as [l [[H1 H2] | [H1 H2]]].
  - destruct l as [|y l].
    + exfalso. apply Hx. cbn in H2. rewrite <- H2. left.
    + cbn in H2. inversion H2; subst. exists l. reflexivity.
  - exfalso. apply Hx. rewrite H2. apply elem_of_app. right. left.
Qed.

Lemma split_right {A} (l1 l2 pre post : list A) (x : A) :
  l1 ++ l2 = pre ++ x :: post -> x ∉ l1 -> exists mid, pre = l1 ++ mid /\ l2 = mid ++ x :: post.
Proof.
  intros Heq Hx. apply app_eq_app in Heq.
  destruct Heq as [l [[H1 H2] | [H1 H2]]].
  - destruct l as [|y l].
    + exists []. cbn in H2. subst. rewrite !app_nil_r. split; reflexivity.
    + exfalso. apply Hx. rewrite H1. cbn in H2. inversion H2; subst.
      apply elem_of_app. right. left.
  - exists l. split; assumption.
Qed.

Lemma loop_log_no_write (set : bool) (h : Z) (limits : list Limit)
    (seen : gset jobapi.JobObjectInformationClass) (ev : Event) :
  ev ∈ loop_log set h limits seen -> write_of ev = None.
Proof.
  revert seen. induction limits as [|l limits IH]; intros seen Hev.
  - inversion Hev.
  - cbn [loop_log] in Hev. apply elem_of_app in Hev. destruct Hev as [Hev | Hev].
    + destruct (bool_decide _); in_list Hev. reflexivity.
    + apply elem_of_cons in Hev. destruct Hev as [-> | Hev]; [reflexivity | eauto].
Qed.

Lemma loop_log_no_failure (set : bool) (h : Z) (limits : list Limit)
    (seen : gset jobapi.JobObjectInformationClass) (ev : Event) :
  ev ∈ loop_log set h limits seen -> failure_of ev = None.
Proof.
  revert seen. induction limits as [|l limits IH]; intros seen Hev.
  - inversion Hev.
  - cbn [loop_log] in Hev. apply elem_of_app in Hev. destruct Hev as [Hev | Hev].
    + destruct (bool_decide _); in_list Hev. reflexivity.
    + apply elem_of_cons in Hev. destruct Hev as [-> | Hev]; [reflexivity | eauto].
Qed.

Lemma loop_log_merges (set : bool) (h : Z) (limits : list Limit)
    (seen : gset jobapi.JobObjectInformationClass) :
  omap merge_of (loop_log set h limits seen) = limits.
Proof.
  revert seen. induction limits as [|l limits IH]; intros seen; [reflexivity|].
  cbn [loop_log]. rewrite omap_app.
  destruct (bool_decide _); cbn; rewrite IH; reflexivity.
Qed.

(** The classes queried by the loop: each class the limits target and that
    was not seen before, once. *)
Lemma loop_log_queries (set : bool) (h : Z) (limits : list Limit)
    (seen : gset jobapi.JobObjectInformationClass) :
  NoDup (omap query_of (loop_log set h limits seen)) /\
  forall c, c ∈ omap query_of (loop_log set h limits seen)
            <-> c ∈ targets limits /\ c ∉ seen.
Proof.
  revert seen. induction limits as [|l limits IH]; intros seen.
  - cbn. split; [constructor|]. intros c. split.
    + intros H. inversion H.
    + intros [H _]. inversion H.
  - cbn [loop_log targets map]. rewrite omap_app.
    destruct (IH ({[resolveRequiredInfoClass l]} ∪ seen)) as [Hnd Hin].
    fold (targets limits) in *.
    destruct (bool_decide (resolveRequiredInfoClass l ∈ seen)) eqn:Hs.
    + apply bool_decide_eq_true in Hs. cbn. split; [exact Hnd|].
      intros c. rewrite Hin. rewrite elem_of_cons, elem_of_union, elem_of_singleton.
      split.
      * intros [H1 H2]. split; [right; exact H1 | tauto].
      * intros [[-> | H1] H2]; [contradiction|]. split; [exact H1|].
        intros [-> | H3]; contradiction.
    + apply bool_decide_eq_false in Hs. cbn. split.
      * constructor; [|exact Hnd]. rewrite Hin.
        rewrite elem_of_union, elem_of_singleton. tauto.
      * intros c. rewrite !elem_of_cons, Hin, elem_of_union, elem_of_singleton.
        split.
        -- intros [-> | [H1 H2]]; [split; [left; reflexivity | exact Hs] | tauto].
        -- intros [[-> | H1] H2]; [left; reflexivity|].
           destruct (decide (c = resolveRequiredInfoClass l)) as [-> | Hne];
             [left; reflexivity | right; tauto].
Qed.

(** In the log of the loop, a merge comes after the query of its class. *)
Lemma loop_log_precedes (set : bool) (h : Z) (limits : list Limit)
    (seen : gset jobapi.JobObjectInformationClass) (pre post : list Event) (b : bool) (l : Limit) :
  loop_log set h limits seen = pre ++ EvMerge b l :: post ->
  resolveRequiredInfoClass l ∈ seen \/
  EvQueryInformationJobObject h (resolveRequiredInfoClass l) None ∈ pre.
Proof.
  revert seen pre. induction limits as [|l0 limits IH]; intros seen pre Heq.
  - destruct pre; discriminate Heq.
  - cbn [loop_log] in Heq.
    set (c0 := resolveRequiredInfoClass l0) in *.
    set (q := if bool_decide (c0 ∈ seen) then [] else [EvQueryInformationJobObject h c0 None]) in *.
    assert (Hq : forall ev, ev ∈ q -> ev = EvQueryInformationJobObject h c0 None /\ c0 ∉ seen).
    { intros ev Hev. subst q. destruct (bool_decide (c0 ∈ seen)) eqn:Hs; in_list Hev.
      apply bool_decide_eq_false in Hs. auto. }
    assert (Hq2 : c0 ∈ seen \/ EvQueryInformationJobObject h c0 None ∈ q).
    { subst q. destruct (bool_decide (c0 ∈ seen)) eqn:Hs.
      - left. apply bool_decide_eq_true in Hs. exact Hs.
      - right. left. }
    apply split_right in Heq.
    2:{ intros Hin. destruct (Hq _ Hin) as [Hd _]. discriminate Hd. }
    destruct Heq as (mid & -> & Heq).
    destruct mid as [|m mid].
    + cbn in Heq. inversion Heq; subst. fold c0.
      destruct Hq2 as [H | H]; [left; exact H | right].
      rewrite app_nil_r. exact H.
    + cbn in Heq. inversion Heq; subst.
      apply IH in H1. destruct H1 as [H1 | H1].
      * apply elem_of_union in H1. destruct H1 as [H1 | H1]; [|left; exact H1].
        apply elem_of_singleton in H1. rewrite H1. fold c0.
        destruct Hq2 as [H | H]; [left; exact H | right].
        apply elem_of_app. left. exact H.
      * right. apply elem_of_app. right. right. exact H1.
Qed.


Lemma queries_loop_log (set : bool) (h : Z) (limits : list Limit)
    (c : jobapi.JobObjectInformationClass) :
  queries c (loop_log set h limits ∅)
  = if bool_decide (c ∈ targets limits) then 1%nat else 0%nat.
Proof.
  destruct (loop_log_queries set h limits ∅) as [Hnd Hin].
  rewrite queries_omap, filter_eq_NoDup by exact Hnd.
  destruct (bool_decide (c ∈ targets limits)) eqn:Hc.
  - apply bool_decide_eq_true in Hc. rewrite bool_decide_eq_true_2; [reflexivity|].
    apply Hin. split; [exact Hc | apply not_elem_of_empty].
  - apply bool_decide_eq_false in Hc. rewrite bool_decide_eq_false_2; [reflexivity|].
    rewrite Hin. tauto.
Qed.

Lemma size_NoDup (l : list jobapi.JobObjectInformationClass)
    (s : gset jobapi.JobObjectInformationClass) :
  NoDup l -> (forall c, c ∈ l <-> c ∈ s) -> length l = size s.
Proof.
  intros Hnd Hin. unfold size, set_size. cbn.
  apply Permutation_length. apply NoDup_Permutation; [exact Hnd | apply NoDup_elements |].
  intros c. rewrite Hin, elem_of_elements. reflexivity.
Qed.

Lemma targets_prefix (done limits : list Limit) (c : jobapi.JobObjectInformationClass) :
  done `prefix_of` limits -> c ∈ targets done -> c ∈ targets limits.
Proof.
  intros [k ->] H. unfold targets. rewrite map_app. apply elem_of_app. left. exact H.
Qed.

(** Unfolding steps for the definitions of the limit protocol. *)
Ltac open_merged := unfold merged.
Ltac open_Limit_set := unfold Limit_set.
Ltac open_applyLimit := unfold applyLimit.
Ltac open_Create := unfold Create.
Ltac step_applyLoop := cbn [applyLoop].
Ltac step_flag_limit := cbn [flag_of flag_field with_flag_field Limit_set Limit_reset].

Section LimitProtocolFacts.

Variable netBandwidthLimit_set netBandwidthLimit_reset :
  Z -> jobapi.JOBOBJECT_NET_RATE_CONTROL_INFORMATION -> jobapi.JOBOBJECT_NET_RATE_CONTROL_INFORMATION.
Variable netDSCPTagLimit_set netDSCPTagLimit_reset :
  Z -> jobapi.JOBOBJECT_NET_RATE_CONTROL_INFORMATION -> jobapi.JOBOBJECT_NET_RATE_CONTROL_INFORMATION.
Variable netBandwidthLimit_IsSet netDSCPTagLimit_IsSet :
  Z -> jobapi.JOBOBJECT_NET_RATE_CONTROL_INFORMATION -> bool.
Variable rangeOrder : gset jobapi.JobObjectInformationClass -> list jobapi.JobObjectInformationClass.
Hypothesis rangeOrder_perm : forall s, rangeOrder s ≡ₚ elements s.

Local Abbreviation Limit_set := (Limit_set netBandwidthLimit_set netDSCPTagLimit_set).
Local Abbreviation Limit_reset := (Limit_reset netBandwidthLimit_reset netDSCPTagLimit_reset).
Local Abbreviation IsSet := (IsSet netBandwidthLimit_IsSet netDSCPTagLimit_IsSet).
Local Abbreviation applyLoop :=
  (applyLoop netBandwidthLimit_set netBandwidthLimit_reset
             netDSCPTagLimit_set netDSCPTagLimit_reset).
Local Abbreviation applyLimit :=
  (applyLimit netBandwidthLimit_set netBandwidthLimit_reset
              netDSCPTagLimit_set netDSCPTagLimit_reset rangeOrder).
Local Abbreviation SetLimit :=
  (SetLimit netBandwidthLimit_set netBandwidthLimit_reset
            netDSCPTagLimit_set netDSCPTagLimit_reset rangeOrder).
Local Abbreviation ResetLimit :=
  (ResetLimit netBandwidthLimit_set netBandwidthLimit_reset
              netDSCPTagLimit_set netDSCPTagLimit_reset rangeOrder).
Local Abbreviation Create :=
  (Create netBandwidthLimit_set netBandwidthLimit_reset
          netDSCPTagLimit_set netDSCPTagLimit_reset rangeOrder).

Local Abbreviation merged :=
  (merged netBandwidthLimit_set netBandwidthLimit_reset
          netDSCPTagLimit_set netDSCPTagLimit_reset).

Lemma merged_Handle (set : bool) (limit : Limit) (job : JobObject) :
  Handle (merged set limit job) = Handle job /\ Name (merged set limit job) = Name job.
Proof.
  open_merged.
  destruct set, limit; split; try reflexivity;
    open_Limit_set; unfold cpuLimit_set;
    repeat match goal with |- context [0 <? ?x] => destruct (0 <? x) end; reflexivity.
Qed.

(** One turn of the loop. *)
Lemma applyLoop_cons (set : bool) (limit : Limit) (rest : list Limit)
    (seen : gset jobapi.JobObjectInformationClass) (job : JobObject) (w : World) :
  let c := resolveRequiredInfoClass limit in
  applyLoop set (limit :: rest) seen job w =
  if bool_decide (c ∈ seen) then
    applyLoop set rest ({[c]} ∪ seen) (merged set limit job) (logged w [EvMerge set limit])
  else
    match kernel_verdict (Handle job) w with
    | None =>
        applyLoop set rest ({[c]} ∪ seen)
          (merged set limit (with_Info job (store (Info job) (infoPtr (kernel w) c))))
          (logged (called w (EvQueryInformationJobObject (Handle job) c None))
                  [EvMerge set limit])
    | Some e =>
        (job, seen, Some (Go.SyscallError "QueryInformationJobObject" e),
         called w (EvQueryInformationJobObject (Handle job) c (Some e)))
    end.
Proof.
  cbn zeta. step_applyLoop. unfold bind at 1.
  destruct (bool_decide (resolveRequiredInfoClass limit ∈ seen)).
  - unfold ret at 1. unfold bind, emit, logged. open_merged. reflexivity.
  - cbn [sync]. unfold bind at 1. rewrite QueryInfo_run.
    destruct (kernel_verdict (Handle job) w).
    + unfold ret. rewrite with_Info_same. reflexivity.
    + unfold ret, bind, emit, logged. open_merged. reflexivity.
Qed.

(** The loop when every query goes through. *)
Lemma applyLoop_ok (set : bool) (limits : list Limit)
    (seen seen' : gset jobapi.JobObjectInformationClass) (job job' : JobObject) (w w' : World) :
  applyLoop set limits seen job w = (job', seen', None, w') ->
  Handle job' = Handle job /\ kernel w' = kernel w /\ live w' = live w /\
  trace w' = trace w ++ loop_log set (Handle job) limits seen /\
  seen' = list_to_set (targets limits) ∪ seen.
Proof.
  revert seen job w. induction limits as [|l limits IH]; intros seen job w H.
  - cbn in H. inversion H; subst. rewrite app_nil_r. repeat split; try reflexivity.
    cbn. rewrite (left_id_L ∅ (∪)). reflexivity.
  - pose proof (applyLoop_cons set l limits seen job w) as Hc. cbn zeta in Hc.
    rewrite Hc in H. clear Hc. cbn [loop_log targets map list_to_set].
    fold (targets limits).
    destruct (bool_decide (resolveRequiredInfoClass l ∈ seen)).
    + apply IH in H. destruct H as (Hh & Hk & Hl & Ht & Hs).
      rewrite (proj1 (merged_Handle _ _ _)) in Hh, Ht.
      repeat split; try assumption.
      * rewrite Ht. cbn. rewrite <- app_assoc. reflexivity.
      * rewrite Hs. apply set_eq. intros y. rewrite !elem_of_union. tauto.
    + destruct (kernel_verdict (Handle job) w); [discriminate H|].
      apply IH in H. destruct H as (Hh & Hk & Hl & Ht & Hs).
      rewrite (proj1 (merged_Handle _ _ _)) in Hh, Ht.
      repeat split; try assumption.
      * rewrite Ht. cbn. rewrite <- !app_assoc. reflexivity.
      * rewrite Hs. apply set_eq. intros y. rewrite !elem_of_union. tauto.
Qed.

(** The loop when a query fails: the limits before have been merged, the
    failing query is the last event and the first for its class. *)
Lemma applyLoop_fail (set : bool) (limits : list Limit)
    (seen seen' : gset jobapi.JobObjectInformationClass) (job job' : JobObject)
    (x : Go.error) (w w' : World) :
  applyLoop set limits seen job w = (job', seen', Some x, w') ->
  Handle job' = Handle job /\ live w' = live w /\
  exists done c r,
    done `prefix_of` limits /\ c ∈ targets limits /\ (c ∉ seen) /\ (c ∉ targets done) /\
    trace w' = trace w ++ loop_log set (Handle job) done seen
                       ++ [EvQueryInformationJobObject (Handle job) c (Some r)].
Proof.
  revert seen job w. induction limits as [|l limits IH]; intros seen job w H.
  - cbn in H. discriminate H.
  - pose proof (applyLoop_cons set l limits seen job w) as Hc. cbn zeta in Hc.
    rewrite Hc in H. clear Hc.
    destruct (bool_decide (resolveRequiredInfoClass l ∈ seen)) eqn:Hs.
    + apply IH in H. destruct H as (Hh & Hl & done & c & r & Hp & Hc & Hn & Hd & Ht).
      rewrite (proj1 (merged_Handle _ _ _)) in Hh, Ht.
      split; [exact Hh|]. split; [exact Hl|].
      exists (l :: done), c, r.
      rewrite elem_of_union, elem_of_singleton in Hn.
      split; [apply prefix_cons; exact Hp|]. split; [right; exact Hc|].
      split; [tauto|]. split.
      * cbn. rewrite elem_of_cons. fold (targets done). tauto.
      * rewrite Ht. cbn [loop_log]. rewrite Hs. cbn. rewrite <- !app_assoc. reflexivity.
    + destruct (kernel_verdict (Handle job) w) as [r|] eqn:Hv.
      * inversion H; subst. split; [reflexivity|]. split; [reflexivity|].
        exists [], (resolveRequiredInfoClass l), r.
        apply bool_decide_eq_false in Hs.
        split; [apply prefix_nil|]. split; [left|]. split; [exact Hs|].
        split; [intros Hin; inversion Hin|]. reflexivity.
      * apply IH in H. destruct H as (Hh & Hl & done & c & r & Hp & Hc & Hn & Hd & Ht).
        rewrite (proj1 (merged_Handle _ _ _)) in Hh, Ht.
        split; [exact Hh|]. split; [exact Hl|].
        exists (l :: done), c, r.
        rewrite elem_of_union, elem_of_singleton in Hn.
        split; [apply prefix_cons; exact Hp|]. split; [right; exact Hc|].
        split; [tauto|]. split.
        -- cbn. rewrite elem_of_cons. fold (targets done). tauto.
        -- rewrite Ht. cbn [loop_log]. rewrite Hs. cbn. rewrite <- !app_assoc. reflexivity.
Qed.

(** The error the loop returns is the kernel's error of the failing query,
    wrapped in the name of the call; that query is the last event. *)
Lemma applyLoop_fail_error (set : bool) (limits : list Limit)
    (seen seen' : gset jobapi.JobObjectInformationClass) (job job' : JobObject)
    (x : Go.error) (w w' : World) :
  applyLoop set limits seen job w = (job', seen', Some x, w') ->
  exists c r,
    x = Go.SyscallError "QueryInformationJobObject" r /\
    last (trace w') = Some (EvQueryInformationJobObject (Handle job) c (Some r)).
Proof.
  revert seen job w. induction limits as [|l limits IH]; intros seen job w H.
  - cbn in H. discriminate H.
  - pose proof (applyLoop_cons set l limits seen job w) as Hc. cbn zeta in Hc.
    rewrite Hc in H. clear Hc.
    destruct (bool_decide (resolveRequiredInfoClass l ∈ seen)) eqn:Hs.
    + apply IH in H. rewrite (proj1 (merged_Handle _ _ _)) in H. exact H.
    + destruct (kernel_verdict (Handle job) w) as [r|] eqn:Hv.
      * inversion H; subst. exists (resolveRequiredInfoClass l), r.
        split; [reflexivity|]. cbn [trace called]. apply last_snoc.
      * apply IH in H. rewrite (proj1 (merged_Handle _ _ _)) in H. exact H.
Qed.

Lemma applyLimit_run (set : bool) (limits : list Limit) (job : JobObject) (w : World) :
  applyLimit set limits job w =
  let '(job1, seen, e, w1) := applyLoop set limits ∅ job w in
  match e with
  | Some _ => (job1, e, w1)
  | None => sync SetInfo (rangeOrder seen) job1 w1
  end.
Proof.
  open_applyLimit. unfold bind.
  destruct (applyLoop set limits ∅ job w) as [[[job1 seen] [x|]] w1]; reflexivity.
Qed.

Lemma rangeOrder_NoDup (s : gset jobapi.JobObjectInformationClass) : NoDup (rangeOrder s).
Proof. rewrite rangeOrder_perm. apply NoDup_elements. Qed.

Lemma rangeOrder_elem (s : gset jobapi.JobObjectInformationClass)
    (c : jobapi.JobObjectInformationClass) : c ∈ rangeOrder s <-> c ∈ s.
Proof. rewrite rangeOrder_perm. apply elem_of_elements. Qed.

Lemma rangeOrder_length (s : gset jobapi.JobObjectInformationClass) :
  length (rangeOrder s) = size s.
Proof. rewrite rangeOrder_perm. reflexivity. Qed.

(** C1, amended: in every call of [applyLimit] a block is queried at most once and
    written back at most once, only blocks the limits target are touched, a
    limit is merged after the query of its block went through, and a
    write-back is issued only when all the limits have been merged.  When
    no kernel call fails (the call returns nil), each of the M distinct
    blocks is queried exactly once and written back exactly once, M of each
    in all, whatever the number of limits, and all the limits are merged.
    With no limits nothing is issued and the call returns nil.  The call
    returns nil exactly when no kernel call of it fails.  A query or
    write-back that fails is the last event of the call, no kernel call
    before it has failed, and the call returns its error: the last error
    of the kernel wrapped in the name of the call. *)
Theorem applyLimit_round_trips (set : bool) (limits : list Limit) (job : JobObject) (w : World) :
  let '(job', e, w') := applyLimit set limits job w in
  let evs := since w w' in
  let M := size (list_to_set (targets limits) : gset jobapi.JobObjectInformationClass) in
  (forall c, (queries c evs <= 1)%nat /\ (writes c evs <= 1)%nat) /\
  (forall c, c ∉ targets limits -> queries c evs = 0%nat /\ writes c evs = 0%nat) /\
  (forall pre post b l, evs = pre ++ EvMerge b l :: post ->
     EvQueryInformationJobObject (Handle job) (resolveRequiredInfoClass l) None ∈ pre) /\
  (forall pre post h c r, evs = pre ++ EvSetInformationJobObject h c r :: post ->
     omap merge_of pre = limits) /\
  (e = None ->
   (forall c, c ∈ targets limits -> queries c evs = 1%nat /\ writes c evs = 1%nat) /\
   length (omap query_of evs) = M /\
   length (omap write_of evs) = M /\
   omap merge_of evs = limits) /\
  (limits = [] -> e = None /\ evs = []) /\
  ((forall ev, ev ∈ evs -> failure_of ev = None) <-> e = None) /\
  (forall x, e = Some x ->
     exists pre c r,
       (forall ev, ev ∈ pre -> failure_of ev = None) /\
       (evs = pre ++ [EvQueryInformationJobObject (Handle job) c (Some r)] /\
        x = Go.SyscallError "QueryInformationJobObject" r
        \/
        evs = pre ++ [EvSetInformationJobObject (Handle job) c (Some r)] /\
        x = Go.SyscallError "SetInformationJobObject" r)).
Proof.
  rewrite applyLimit_run.
  destruct (applyLoop set limits ∅ job w) as [[[job1 seen] [x|]] w1] eqn:Hloop.
  - (* a query failed *)
    pose proof (applyLoop_fail_error _ _ _ _ _ _ _ _ _ Hloop) as (c1 & r1 & Hx & Hlast).
    apply applyLoop_fail in Hloop.
    destruct Hloop as (Hh & Hl & done & c0 & r0 & Hp & Hc0 & _ & Hd & Ht).
    rewrite Ht, !app_assoc, last_snoc in Hlast. injection Hlast as <- <-.
    rewrite (since_app _ _ _ Ht).
    assert (Hnw : forall ev,
               ev ∈ loop_log set (Handle job) done ∅
                    ++ [EvQueryInformationJobObject (Handle job) c0 (Some r0)] ->
               write_of ev = None).
    { intros ev Hev. apply elem_of_app in Hev. destruct Hev as [Hev | Hev].
      - exact (loop_log_no_write _ _ _ _ _ Hev).
      - in_list Hev. reflexivity. }
    assert (Hq : forall c,
               queries c (loop_log set (Handle job) done ∅
                          ++ [EvQueryInformationJobObject (Handle job) c0 (Some r0)])
               = ((if bool_decide (c ∈ targets done) then 1 else 0)
                  + (if decide (c0 = c) then 1 else 0))%nat).
    { intros c. rewrite queries_app, queries_loop_log. f_equal.
      unfold queries. rewrite filter_cons. cbn [query_of].
      destruct (decide (c0 = c)) as [->|Hne].
      - rewrite decide_True by reflexivity. reflexivity.
      - rewrite decide_False by congruence. reflexivity. }
    split; [|split; [|split; [|split; [|split; [|split]]]]].
    + intros c. rewrite Hq, (writes_none c _ Hnw). split; [|lia].
      destruct (decide (c0 = c)) as [->|Hne].
      * rewrite bool_decide_eq_false_2 by exact Hd. lia.
      * destruct (bool_decide _); lia.
    + intros c Hc. rewrite Hq, (writes_none c _ Hnw). split; [|reflexivity].
      rewrite bool_decide_eq_false_2
        by (intros Hin; exact (Hc (targets_prefix _ _ _ Hp Hin))).
      rewrite decide_False by (intros ->; contradiction). reflexivity.
    + intros pre post b l Heq. apply split_left in Heq.
      2:{ intros Hin. in_list Hin. discriminate. }
      destruct Heq as (mid & Heq). apply loop_log_precedes in Heq.
      destruct Heq as [Hin | Hin]; [|exact Hin].
      exfalso. exact (not_elem_of_empty _ Hin).
    + intros pre post h c r Heq. exfalso.
      assert (Hin : write_of (EvSetInformationJobObject h c r) = None).
      { apply Hnw. rewrite Heq. apply elem_of_app. right. left. }
      discriminate Hin.
    + discriminate.
    + intros ->. inversion Hc0.
    + split.
      * split; [|discriminate]. intros Hall. exfalso.
        assert (Hf : failure_of (EvQueryInformationJobObject (Handle job) c0 (Some r0)) = None).
        { apply Hall. apply elem_of_app. right. left. }
        discriminate Hf.
      * intros x' Hx'. injection Hx' as <-. exists (loop_log set (Handle job) done ∅), c0, r0.
        split; [apply loop_log_no_failure|]. left. split; [reflexivity | exact Hx].
  - (* every query went through *)
    apply applyLoop_ok in Hloop. destruct Hloop as (Hh & Hk & Hl & Ht & Hs).
    rewrite (right_id_L ∅ (∪)) in Hs. subst seen.
    set (s := list_to_set (targets limits) : gset jobapi.JobObjectInformationClass) in *.
    assert (Hins : forall c, c ∈ s <-> c ∈ targets limits).
    { intros c. subst s. apply elem_of_list_to_set. }
    destruct (sync SetInfo (rangeOrder s) job1 w1) as [[job' e] w'] eqn:Hsync.
    pose proof (sync_SetInfo_log _ _ _ _ _ _ Hsync) as (Hj & Hl2 & evs2 & Ht2 & Hp & Hall).
    pose proof (sync_SetInfo_run _ _ _ _ _ _ Hsync) as (_ & _ & wrote & _ & Hrun).
    rewrite (since_app _ _ _ Ht2), Hh in Hrun.
    rewrite (since_trans _ _ _ _ _ Ht Ht2).
    assert (Hnq : forall ev, ev ∈ evs2 -> query_of ev = None /\ merge_of ev = None).
    { intros ev Hev. destruct (Hall ev Hev) as (c & r & ->). split; reflexivity. }
    assert (Hw : forall c, (writes c evs2
                            <= if bool_decide (c ∈ targets limits) then 1 else 0)%nat).
    { intros c. rewrite writes_omap.
      etransitivity; [apply filter_prefix_length; exact Hp|].
      rewrite filter_eq_NoDup by apply rangeOrder_NoDup.
      destruct (bool_decide (c ∈ rangeOrder s)) eqn:Hin.
      - apply bool_decide_eq_true in Hin. rewrite rangeOrder_elem, Hins in Hin.
        rewrite bool_decide_eq_true_2 by exact Hin. reflexivity.
      - lia. }
    assert (Hq : forall c, queries c (loop_log set (Handle job) limits ∅ ++ evs2)
                           = if bool_decide (c ∈ targets limits) then 1%nat else 0%nat).
    { intros c. rewrite queries_app, queries_loop_log.
      rewrite (queries_none c evs2) by (intros ev Hev; apply Hnq; exact Hev). lia. }
    assert (Hwl : forall c, writes c (loop_log set (Handle job) limits ∅ ++ evs2)
                            = writes c evs2).
    { intros c. rewrite writes_app.
      rewrite (writes_none c (loop_log _ _ _ _)) by apply loop_log_no_write. reflexivity. }
    split; [|split; [|split; [|split; [|split; [|split]]]]].
    + intros c. rewrite Hq, Hwl. specialize (Hw c).
      destruct (bool_decide (c ∈ targets limits)); split; lia.
    + intros c Hc. rewrite Hq, Hwl. specialize (Hw c).
      rewrite bool_decide_eq_false_2 in * by exact Hc. split; lia.
    + intros pre post b l Heq. apply split_left in Heq.
      2:{ intros Hin. destruct (Hnq _ Hin) as [_ Hm]. discriminate Hm. }
      destruct Heq as (mid & Heq). apply loop_log_precedes in Heq.
      destruct Heq as [Hin | Hin]; [|exact Hin].
      exfalso. exact (not_elem_of_empty _ Hin).
    + intros pre post h c r Heq. apply split_right in Heq.
      2:{ intros Hin. apply loop_log_no_write in Hin. discriminate Hin. }
      destruct Heq as (mid & -> & Hmid).
      rewrite omap_app, loop_log_merges.
      rewrite (omap_none merge_of mid); [apply app_nil_r|].
      intros ev Hev. apply Hnq. rewrite Hmid. apply elem_of_app. left. exact Hev.
    + intros ->. apply sync_SetInfo_ok in Hsync. destruct Hsync as (_ & _ & Hts & _).
      assert (Hevs : evs2 = map (fun c => EvSetInformationJobObject (Handle job1) c None)
                                (rangeOrder s)).
      { rewrite Ht2 in Hts. apply app_inv_head in Hts. exact Hts. }
      split; [|split; [|split]].
      * intros c Hc. rewrite Hq, Hwl. rewrite bool_decide_eq_true_2 by exact Hc.
        split; [reflexivity|].
        rewrite Hevs, writes_map_Set, filter_eq_NoDup by apply rangeOrder_NoDup.
        rewrite bool_decide_eq_true_2; [reflexivity|].
        apply rangeOrder_elem, Hins. exact Hc.
      * rewrite omap_app.
        rewrite (omap_none query_of evs2) by (intros ev Hev; apply Hnq; exact Hev).
        rewrite app_nil_r.
        destruct (loop_log_queries set (Handle job) limits ∅) as [Hnd Hin].
        apply size_NoDup; [exact Hnd|].
        intros c. rewrite Hin, Hins. split; [tauto|].
        intros Hc. split; [exact Hc | apply not_elem_of_empty].
      * rewrite omap_app.
        rewrite (omap_none write_of (loop_log _ _ _ _)) by apply loop_log_no_write.
        cbn [app]. rewrite Hevs.
        assert (Hom : forall l, omap write_of
                        (map (fun c => EvSetInformationJobObject (Handle job1) c None) l) = l).
        { induction l as [|y l IHl]; [reflexivity|]. cbn. f_equal. exact IHl. }
        rewrite Hom. apply rangeOrder_length.
      * rewrite omap_app, loop_log_merges.
        rewrite (omap_none merge_of evs2) by (intros ev Hev; apply Hnq; exact Hev).
        apply app_nil_r.
    + intros ->. cbn [loop_log app] in *.
      assert (Hnil : rangeOrder s = []).
      { apply Permutation_nil_r. rewrite rangeOrder_perm. subst s. cbn.
        rewrite elements_empty. reflexivity. }
      rewrite Hnil in Hsync. cbn in Hsync. unfold ret in Hsync.
      injection Hsync as Hj2 He Hw2. split; [symmetry; exact He|].
      rewrite <- Hw2 in Ht2. apply (app_inv_head (trace w1)).
      rewrite <- Ht2, app_nil_r. reflexivity.
    + assert (Hmap : forall l ev,
                 ev ∈ map (fun c => EvSetInformationJobObject (Handle job) c None) l ->
                 failure_of ev = None).
      { intros l ev Hev. apply list_elem_of_fmap in Hev. destruct Hev as (c & -> & _).
        reflexivity. }
      destruct e as [y|].
      * destruct Hrun as (c & r & rest & Hcl & Hy & Hevs). split.
        -- split; [|discriminate]. intros Hallok. exfalso.
           assert (Hf : failure_of (EvSetInformationJobObject (Handle job) c (Some r)) = None).
           { apply Hallok. rewrite Hevs. apply elem_of_app. right. apply elem_of_app.
             right. left. }
           discriminate Hf.
        -- intros x' Hx'. injection Hx' as <-.
           exists (loop_log set (Handle job) limits ∅
                   ++ map (fun c => EvSetInformationJobObject (Handle job) c None) wrote), c, r.
           split.
           ++ intros ev Hev. apply elem_of_app in Hev. destruct Hev as [Hev | Hev].
              ** exact (loop_log_no_failure _ _ _ _ _ Hev).
              ** exact (Hmap _ _ Hev).
           ++ right. split; [|exact Hy]. rewrite Hevs, <- app_assoc. reflexivity.
      * destruct Hrun as [_ Hevs]. split; [|discriminate].
        split; [reflexivity|]. intros _ ev Hev.
        apply elem_of_app in Hev. destruct Hev as [Hev | Hev].
        -- exact (loop_log_no_failure _ _ _ _ _ Hev).
        -- rewrite Hevs in Hev. exact (Hmap _ _ Hev).
Qed.


(** ** Create *)

Lemma applyLimit_Handle (set : bool) (limits : list Limit) (job job' : JobObject)
    (e : option Go.error) (w w' : World) :
  applyLimit set limits job w = (job', e, w') ->
  Handle job' = Handle job /\ live w' = live w /\ exists evs, trace w' = trace w ++ evs.
Proof.
  rewrite applyLimit_run.
  destruct (applyLoop set limits ∅ job w) as [[[job1 seen] [x|]] w1] eqn:Hloop.
  - intros H. inversion H; subst. apply applyLoop_fail in Hloop.
    destruct Hloop as (Hh & Hl & done & c & r & _ & _ & _ & _ & Ht).
    repeat split; try assumption. eexists. exact Ht.
  - intros H. apply applyLoop_ok in Hloop. destruct Hloop as (Hh & _ & Hl & Ht & _).
    apply sync_SetInfo_log in H. destruct H as (-> & Hl2 & evs & Ht2 & _).
    split; [exact Hh|]. split; [congruence|].
    eexists. rewrite Ht2, Ht, <- app_assoc. reflexivity.
Qed.

Lemma CreateJobObject_run (name : string) (w : World) :
  jobapi_calls.CreateJobObject name w =
  if Go.hasNUL name then (Go.InvalidHandle, Some Go.EINVAL, w)
  else match faults w with
       | Some x :: rest =>
           (Go.InvalidHandle, Some (Go.SyscallError "CreateJobObject" x),
            called w (EvCreateJobObject name (Some x)))
       | _ =>
           (Z.pos (next w), None,
            {| kernel := kernel w; live := Z.pos (next w) :: live w; next := Pos.succ (next w);
               faults := tail (faults w);
               trace := trace w ++ [EvCreateJobObject name None] |})
       end.
Proof.
  unfold jobapi_calls.CreateJobObject, kernel_create, called.
  destruct (Go.hasNUL name); [reflexivity|].
  io. destruct w as [k l n f t]. destruct f as [|[x|] f]; cbn; reflexivity.
Qed.

(** C7: with at least one limit, when the job handle has been created and
    applying the limits fails, [Create] closes that handle as its last
    step, after the failure, and returns the error of the limits, no job;
    when the creation of the handle fails, [Create] returns that error and
    does nothing more: the log holds the creation attempt at most. *)
Theorem Create_closes_on_failure (name : string) (limits : list Limit) (w : World) :
  limits <> [] ->
  let '(h, ec, w1) := jobapi_calls.CreateJobObject name w in
  let '(result, e, w3) := Create name limits w in
  match ec with
  | Some x =>
      result = None /\ e = Some x /\ w3 = w1 /\
      forall ev, ev ∈ since w w3 -> exists r, ev = EvCreateJobObject name r
  | None =>
      let '(job2, el, w2) :=
        SetLimit limits {| Name := name; Handle := h; Info := zero_JobInfo |} w1 in
      match el with
      | Some y =>
          result = None /\ e = Some y /\
          h ∈ live w2 /\
          exists r,
            trace w3 = trace w2 ++ [EvCloseHandle h r] /\
            since w w3 = since w w2 ++ [EvCloseHandle h r] /\
            (r = None -> h ∉ live w3)
      | None => result = Some job2 /\ e = None /\ w3 = w2
      end
  end.
Proof.
  intros Hne. open_Create. unfold bind.
  pose proof (CreateJobObject_run name w) as Hc.
  destruct (jobapi_calls.CreateJobObject name w) as [[h ec] w1].
  destruct ec as [x|].
  - unfold ret. repeat split; try reflexivity.
    destruct (Go.hasNUL name).
    + inversion Hc; subst. rewrite since_refl. intros ev Hev. inversion Hev.
    + destruct (faults w) as [|[y|] f]; inversion Hc; subst.
      erewrite since_app by reflexivity. intros ev Hev. in_list Hev. eauto.
  - rewrite bool_decide_eq_true_2 by (destruct limits; [congruence | cbn; lia]).
    assert (Hlive : h ∈ live w1 /\ exists ev, trace w1 = trace w ++ [ev]).
    { destruct (Go.hasNUL name); [discriminate Hc|].
      destruct (faults w) as [|[y|] f]; inversion Hc; subst; cbn;
        split; try left; eexists; reflexivity. }
    destruct Hlive as [Hlive [ev0 Ht1]].
    destruct (SetLimit limits {| Name := name; Handle := h; Info := zero_JobInfo |} w1)
      as [[job2 el] w2] eqn:Hset.
    destruct (applyLimit_Handle _ _ _ _ _ _ _ Hset) as (Hh & Hl & evs & Ht2).
    cbn [Handle] in Hh.
    destruct el as [y|]; [|unfold ret; repeat split; reflexivity].
    unfold JobObject_Close. rewrite Hh, kernel_close_run. unfold ret. cbn [trace live].
    split; [reflexivity|]. split; [reflexivity|]. split; [rewrite Hl; exact Hlive|].
    exists (kernel_verdict h w2). split; [reflexivity|]. split.
    + erewrite (since_app w w2) by (rewrite Ht2, Ht1; symmetry; apply app_assoc).
      apply since_app. cbn [trace]. rewrite Ht2, Ht1, <- !app_assoc. reflexivity.
    + intros ->. intros Hin. apply list_elem_of_filter in Hin. destruct Hin as [Hin _].
      apply Hin. reflexivity.
Qed.

(** ** Boolean limits *)

Lemma booleanFlagLimits_shape (L : Limit) :
  L ∈ booleanFlagLimits ->
  exists k, 0 <= k /\ (L = basicLimit (Z.shiftl 1 k) \/ L = uiRestriction (Z.shiftl 1 k)).
Proof.
  intros H. unfold booleanFlagLimits in H.
  repeat (apply elem_of_cons in H; destruct H as [-> | H]);
    try (eexists; split; [| first [left; reflexivity | right; reflexivity]]; lia).
  inversion H.
Qed.

Lemma IsSet_slot (L : Limit) (j1 j2 : JobObject) :
  infoPtr (Info j1) (resolveRequiredInfoClass L) = infoPtr (Info j2) (resolveRequiredInfoClass L) ->
  IsSet L j1 = IsSet L j2.
Proof.
  destruct L; cbn; intros H; inversion H;
    unfold basicLimit_IsSet, uiRestriction_IsSet, cpuLimit_IsSet, LimitFlags_of, UIClass_of;
    congruence.
Qed.

(** A call with one limit that goes through: the block is queried, the
    limit merged, and the kernel holds the merged block. *)
Lemma applyLimit_single_ok (set : bool) (L : Limit) (job job' : JobObject) (w w' : World) :
  applyLimit set [L] job w = (job', None, w') ->
  let c := resolveRequiredInfoClass L in
  job' = merged set L (with_Info job (store (Info job) (infoPtr (kernel w) c))) /\
  live w' = live w /\
  forall c', infoPtr (kernel w') c'
             = if decide (c = c') then infoPtr (Info job') c' else infoPtr (kernel w) c'.
Proof.
  rewrite applyLimit_run.
  pose proof (applyLoop_cons set L [] ∅ job w) as Hc. cbn zeta in Hc. rewrite Hc. clear Hc.
  rewrite bool_decide_eq_false_2 by apply not_elem_of_empty.
  destruct (kernel_verdict (Handle job) w); [discriminate|].
  step_applyLoop. unfold ret.
  assert (Hr : rangeOrder ({[resolveRequiredInfoClass L]} ∪ ∅) = [resolveRequiredInfoClass L]).
  { apply Permutation_singleton_r. rewrite rangeOrder_perm.
    rewrite (right_id_L ∅ (∪)), elements_singleton. reflexivity. }
  rewrite Hr. intros H. apply sync_SetInfo_ok in H.
  destruct H as (-> & Hl & _ & Hk). cbn zeta. split; [reflexivity|]. split; [exact Hl|].
  intros c'. rewrite Hk. cbn [kernel logged called].
  destruct (decide (resolveRequiredInfoClass L = c')) as [->|Hne].
  - rewrite bool_decide_eq_true_2 by left. reflexivity.
  - rewrite bool_decide_eq_false_2; [reflexivity|].
    intros Hin. in_list Hin. congruence.
Qed.

Lemma resolve_limit_class (L : Limit) :
  L ∈ booleanFlagLimits -> resolveRequiredInfoClass L ∈ limitClasses.
Proof. intros H. in_list H; apply list_elem_of_In; cbn; tauto. Qed.

(** The flag field a boolean limit lives in is read from the slot of its
    class. *)
Lemma flag_field_slot (L : Limit) (b : Z) (j1 j2 : JobObject) :
  L = basicLimit b \/ L = uiRestriction b ->
  infoPtr (Info j1) (resolveRequiredInfoClass L) = infoPtr (Info j2) (resolveRequiredInfoClass L) ->
  flag_field L j1 = flag_field L j2.
Proof.
  intros [-> | ->]; cbn; unfold LimitFlags_of, UIClass_of; intros H; inversion H; congruence.
Qed.

(** A call with one boolean limit that goes through, on the kernel: the
    flag field the kernel holds is the one it held with the bit of the
    limit turned on or off, and its other blocks are as they were. *)
Lemma applyLimit_flag_kernel (set : bool) (L : Limit) (k : Z) (j0 job job1 : JobObject)
    (w w1 : World) :
  L = basicLimit (Z.shiftl 1 k) \/ L = uiRestriction (Z.shiftl 1 k) ->
  applyLimit set [L] job w = (job1, None, w1) ->
  flag_field L (with_Info j0 (kernel w1))
  = (if set then Z.lor (flag_field L (with_Info j0 (kernel w))) (Z.shiftl 1 k)
     else Z.ldiff (flag_field L (with_Info j0 (kernel w))) (Z.shiftl 1 k)) /\
  infoPtr (kernel w1) (resolveRequiredInfoClass L) = infoPtr (Info job1) (resolveRequiredInfoClass L) /\
  forall c', c' <> resolveRequiredInfoClass L -> infoPtr (kernel w1) c' = infoPtr (kernel w) c'.
Proof.
  intros Hshape Ha. apply applyLimit_single_ok in Ha. cbn zeta in Ha.
  destruct Ha as (Hj1 & _ & Hker).
  pose proof (Hker (resolveRequiredInfoClass L)) as Hown.
  rewrite decide_True in Hown by reflexivity.
  split; [|split; [exact Hown|]].
  - rewrite (flag_field_slot L _ (with_Info j0 (kernel w1)) job1 Hshape) by exact Hown.
    rewrite Hj1. open_merged.
    destruct Hshape as [-> | ->]; destruct set; step_flag_limit;
      unfold basicLimit_set, basicLimit_reset, uiRestriction_set, uiRestriction_reset,
        upd_BasicLimitInformation, upd_ExtendedLimits, LimitFlags_of, UIClass_of;
      reflexivity.
  - intros c' Hne. rewrite Hker. rewrite decide_False by congruence. reflexivity.
Qed.

(** C9: for each of the fourteen boolean limits and every state of cache
    and kernel; [flag_field L (with_Info job k)] is the flag field of the
    limit in the blocks [k].  When [SetLimit] of the limit returns nil, the
    flag field the kernel holds has the bit of the limit on and its other
    bits as before, and the kernel's other blocks are as before; a [QueryLimits]
    that then returns nil, through any job object on the handle whatever
    its cache holds, leaves the kernel's block in the cache, and the limit
    is set.  When a subsequent [ResetLimit] of the limit returns nil the
    kernel's flag field has the bit off and its other bits as before the
    two calls, and after a [QueryLimits] that returns nil the limit is not
    set.  On the cache, [set] and [reset] change the flag field of the
    block alone, in it the bit of the limit alone. *)
Theorem boolean_limit_set_reset (L : Limit) (job : JobObject) (w : World) :
  L ∈ booleanFlagLimits ->
  exists k,
    0 <= k /\ flag_of L = Z.shiftl 1 k /\
    (forall job1 w1,
       SetLimit [L] job w = (job1, None, w1) ->
       Z.testbit (flag_field L (with_Info job (kernel w1))) k = true /\
       (forall i, 0 <= i -> i <> k ->
          Z.testbit (flag_field L (with_Info job (kernel w1))) i
          = Z.testbit (flag_field L (with_Info job (kernel w))) i) /\
       (forall c', c' <> resolveRequiredInfoClass L ->
          infoPtr (kernel w1) c' = infoPtr (kernel w) c') /\
       forall jq job2 w2,
         Handle jq = Handle job ->
         QueryLimits jq w1 = (job2, None, w2) ->
         infoPtr (Info job2) (resolveRequiredInfoClass L)
         = infoPtr (kernel w1) (resolveRequiredInfoClass L) /\
         IsSet L job2 = true /\
         forall jr job3 w3,
           Handle jr = Handle job ->
           ResetLimit [L] jr w2 = (job3, None, w3) ->
           Z.testbit (flag_field L (with_Info job (kernel w3))) k = false /\
           (forall i, 0 <= i -> i <> k ->
              Z.testbit (flag_field L (with_Info job (kernel w3))) i
              = Z.testbit (flag_field L (with_Info job (kernel w))) i) /\
           (forall c', c' <> resolveRequiredInfoClass L ->
              infoPtr (kernel w3) c' = infoPtr (kernel w) c') /\
           forall jq' job4 w4,
             Handle jq' = Handle job ->
             QueryLimits jq' w3 = (job4, None, w4) ->
             infoPtr (Info job4) (resolveRequiredInfoClass L)
             = infoPtr (kernel w3) (resolveRequiredInfoClass L) /\
             IsSet L job4 = false) /\
    Limit_set L job = with_flag_field L (flag_field L (Limit_set L job)) job /\
    Limit_reset L job = with_flag_field L (flag_field L (Limit_reset L job)) job /\
    Z.testbit (flag_field L (Limit_set L job)) k = true /\
    Z.testbit (flag_field L (Limit_reset L job)) k = false /\
    forall i, 0 <= i -> i <> k ->
      Z.testbit (flag_field L (Limit_set L job)) i = Z.testbit (flag_field L job) i /\
      Z.testbit (flag_field L (Limit_reset L job)) i = Z.testbit (flag_field L job) i.
Proof.
  intros HL. pose proof (resolve_limit_class L HL) as Hcls.
  destruct (booleanFlagLimits_shape L HL) as (k & Hk & Hshape).
  pose proof (shiftl_1_pos k Hk) as Hpos.
  assert (Hset : forall j, IsSet L (Limit_set L j) = true).
  { intros j. destruct Hshape as [-> | ->]; cbn;
      unfold basicLimit_IsSet, uiRestriction_IsSet, basicLimit_set, uiRestriction_set,
        LimitFlags_of, UIClass_of; cbn; rewrite land_lor_bit; apply Z.ltb_lt; exact Hpos. }
  assert (Hreset : forall j, IsSet L (Limit_reset L j) = false).
  { intros j. destruct Hshape as [-> | ->]; cbn;
      unfold basicLimit_IsSet, uiRestriction_IsSet, basicLimit_reset, uiRestriction_reset,
        LimitFlags_of, UIClass_of; cbn; rewrite land_ldiff_bit; reflexivity. }
  assert (Hread : forall set j j1 v1 jq j2 v2 v,
             applyLimit set [L] j v = (j1, None, v1) ->
             QueryLimits jq v1 = (j2, None, v2) ->
             kernel v2 = kernel v1 /\
             infoPtr (Info j2) (resolveRequiredInfoClass L)
             = infoPtr (kernel v1) (resolveRequiredInfoClass L) /\
             exists j0, IsSet L j2 = IsSet L (merged set L j0)).
  { intros set j j1 v1 jq j2 v2 v Ha Hq.
    apply applyLimit_single_ok in Ha. cbn zeta in Ha. destruct Ha as (Hj1 & _ & Hker).
    apply sync_QueryInfo_ok in Hq. destruct Hq as (_ & _ & Hkq & _ & _ & Hi).
    assert (Hslot : infoPtr (Info j2) (resolveRequiredInfoClass L)
                    = infoPtr (kernel v1) (resolveRequiredInfoClass L)).
    { rewrite Hi. rewrite bool_decide_eq_true_2 by exact Hcls. reflexivity. }
    split; [exact Hkq|]. split; [exact Hslot|].
    eexists. rewrite <- Hj1. apply IsSet_slot.
    rewrite Hslot, Hker. rewrite decide_True by reflexivity. reflexivity. }
  assert (Hflag : flag_of L = Z.shiftl 1 k).
  { destruct Hshape as [-> | ->]; reflexivity. }
  exists k. split; [exact Hk|]. split; [exact Hflag|]. split.
  - intros job1 w1 Hs.
    pose proof (applyLimit_flag_kernel true L k job job job1 w w1 Hshape Hs)
      as (Hf1 & _ & Ho1).
    split; [|split; [|split; [exact Ho1|]]].
    + rewrite Hf1, Z.lor_spec, testbit_shiftl_1, bool_decide_eq_true_2 by (lia || reflexivity).
      apply orb_true_r.
    + intros i Hi Hne.
      rewrite Hf1, Z.lor_spec, testbit_shiftl_1, bool_decide_eq_false_2 by (lia || congruence).
      apply orb_false_r.
    + intros jq job2 w2 _ Hq.
      destruct (Hread true _ _ _ _ _ _ _ Hs Hq) as (Hk2 & Hslot2 & j0 & Hi2).
      split; [exact Hslot2|]. split; [rewrite Hi2; apply Hset|].
      intros jr job3 w3 _ Hr.
      pose proof (applyLimit_flag_kernel false L k job jr job3 w2 w3 Hshape Hr)
        as (Hf3 & _ & Ho3).
      rewrite Hk2 in Hf3, Ho3. rewrite Hf1 in Hf3.
      split; [|split; [|split]].
      * rewrite Hf3, Z.ldiff_spec, testbit_shiftl_1, bool_decide_eq_true_2
          by (lia || reflexivity).
        apply andb_false_r.
      * intros i Hi Hne.
        rewrite Hf3, Z.ldiff_spec, Z.lor_spec, testbit_shiftl_1, bool_decide_eq_false_2
          by (lia || congruence).
        rewrite orb_false_r. apply andb_true_r.
      * intros c' Hc'. rewrite Ho3, Ho1 by exact Hc'. reflexivity.
      * intros jq' job4 w4 _ Hq4.
        destruct (Hread false _ _ _ _ _ _ _ Hr Hq4) as (_ & Hslot4 & j0' & Hi4).
        split; [exact Hslot4|]. rewrite Hi4. apply Hreset.
  - destruct Hshape as [-> | ->]; step_flag_limit.
    + unfold basicLimit_set, basicLimit_reset, upd_BasicLimitInformation, upd_ExtendedLimits,
        LimitFlags_of. cbn.
      repeat split; try reflexivity.
      * rewrite Z.lor_spec, testbit_shiftl_1, bool_decide_eq_true_2 by (lia || reflexivity).
        apply orb_true_r.
      * rewrite Z.ldiff_spec, testbit_shiftl_1, bool_decide_eq_true_2 by (lia || reflexivity).
        apply andb_false_r.
      * rewrite Z.lor_spec, testbit_shiftl_1, bool_decide_eq_false_2 by (lia || congruence).
        apply orb_false_r.
      * rewrite Z.ldiff_spec, testbit_shiftl_1, bool_decide_eq_false_2 by (lia || congruence).
        apply andb_true_r.
    + unfold uiRestriction_set, uiRestriction_reset, UIClass_of. cbn.
      repeat split; try reflexivity.
      * rewrite Z.lor_spec, testbit_shiftl_1, bool_decide_eq_true_2 by (lia || reflexivity).
        apply orb_true_r.
      * rewrite Z.ldiff_spec, testbit_shiftl_1, bool_decide_eq_true_2 by (lia || reflexivity).
        apply andb_false_r.
      * rewrite Z.lor_spec, testbit_shiftl_1, bool_decide_eq_false_2 by (lia || congruence).
        apply orb_false_r.
      * rewrite Z.ldiff_spec, testbit_shiftl_1, bool_decide_eq_false_2 by (lia || congruence).
        apply andb_true_r.
Qed.

End LimitProtocolFacts.

(** ** The protocol on sample data *)

Lemma reversed_perm (s : gset jobapi.JobObjectInformationClass) :
  Sample.reversed s ≡ₚ elements s.
Proof. unfold Sample.reversed. apply reverse_Permutation. Qed.

(** C1 as stated fails when a kernel call fails: on a job whose handle has
    been closed, [SetLimit] with one limit issues the query, which fails,
    and returns; the one block the limit targets is never written back. *)
Lemma applyLimit_stops_at_failure :
  let '(job', e, w') := Sample.SetLimit [LimitBreakawayOK] Sample.job Sample.world_closed in
  let evs := since Sample.world_closed w' in
  e = Some (Go.SyscallError "QueryInformationJobObject" Go.ERROR_INVALID_HANDLE) /\
  evs = [EvQueryInformationJobObject 7 jobapi.JobObjectExtendedLimitInformation
           (Some Go.ERROR_INVALID_HANDLE)] /\
  targets [LimitBreakawayOK] = [jobapi.JobObjectExtendedLimitInformation] /\
  writes jobapi.JobObjectExtendedLimitInformation evs = 0%nat /\
  ~ (forall c, c ∈ targets [LimitBreakawayOK] -> queries c evs = 1%nat /\ writes c evs = 1%nat).
Proof.
  vm_compute. repeat split; try reflexivity.
  intros H. destruct (H jobapi.JobObjectExtendedLimitInformation) as [_ Hw]; [left|].
  discriminate Hw.
Qed.

(** The amended C1 for three limits on two blocks, with the map ranged over
    in reversed order. *)
Lemma applyLimit_round_trips_witness :
  (forall s, Sample.reversed s ≡ₚ elements s) /\
  let limits := [LimitBreakawayOK; LimitDesktop; LimitKillOnJobClose] in
  let '(job', e, w') := Sample.SetLimit limits Sample.job Sample.world in
  let evs := since Sample.world w' in
  let M := size (list_to_set (targets limits) : gset jobapi.JobObjectInformationClass) in
  (forall c, (queries c evs <= 1)%nat /\ (writes c evs <= 1)%nat) /\
  (forall c, c ∉ targets limits -> queries c evs = 0%nat /\ writes c evs = 0%nat) /\
  (forall pre post b l, evs = pre ++ EvMerge b l :: post ->
     EvQueryInformationJobObject (Handle Sample.job) (resolveRequiredInfoClass l) None ∈ pre) /\
  (forall pre post h c r, evs = pre ++ EvSetInformationJobObject h c r :: post ->
     omap merge_of pre = limits) /\
  (e = None ->
   (forall c, c ∈ targets limits -> queries c evs = 1%nat /\ writes c evs = 1%nat) /\
   length (omap query_of evs) = M /\
   length (omap write_of evs) = M /\
   omap merge_of evs = limits) /\
  (limits = [] -> e = None /\ evs = []) /\
  ((forall ev, ev ∈ evs -> failure_of ev = None) <-> e = None) /\
  (forall x, e = Some x ->
     exists pre c r,
       (forall ev, ev ∈ pre -> failure_of ev = None) /\
       (evs = pre ++ [EvQueryInformationJobObject (Handle Sample.job) c (Some r)] /\
        x = Go.SyscallError "QueryInformationJobObject" r
        \/
        evs = pre ++ [EvSetInformationJobObject (Handle Sample.job) c (Some r)] /\
        x = Go.SyscallError "SetInformationJobObject" r)).
Proof.
  split; [exact reversed_perm|].
  exact (applyLimit_round_trips
           (Sample.net_flag 2 true) (Sample.net_flag 2 false)
           (Sample.net_flag 4 true) (Sample.net_flag 4 false)
           Sample.reversed reversed_perm true
           [LimitBreakawayOK; LimitDesktop; LimitKillOnJobClose] Sample.job Sample.world).
Defined.

(** C6 as stated fails when a query fails: on a job whose handle has been
    closed, [ResetLimits] issues one query of the four, returns its error
    and leaves the cache as it was, the desktop restriction still on. *)
Lemma ResetLimits_stops_at_failed_query :
  let '(job', e, w') := ResetLimits Sample.job_stale Sample.world_closed in
  let evs := since Sample.world_closed w' in
  e = Some (Go.SyscallError "QueryInformationJobObject" Go.ERROR_INVALID_HANDLE) /\
  evs = [EvQueryInformationJobObject 7 jobapi.JobObjectExtendedLimitInformation
           (Some Go.ERROR_INVALID_HANDLE)] /\
  Info job' = Info Sample.job_stale /\
  Info job' <> zero_JobInfo /\
  ~ (forall c, c ∈ limitClasses -> queries c evs = 1%nat).
Proof.
  vm_compute. repeat split; try reflexivity.
  - intros H. discriminate H.
  - intros H. assert (Hq : 0%nat = 1%nat); [|discriminate Hq].
    apply (H jobapi.JobObjectBasicUIRestrictions). right. left.
Qed.

(** C7 when the creation goes through and the first query is refused. *)
Lemma Create_closes_on_failure_witness :
  [LimitBreakawayOK] <> [] /\
  let '(h, ec, w1) := jobapi_calls.CreateJobObject "job" Sample.world_second_fails in
  let '(result, e, w3) := Sample.Create "job" [LimitBreakawayOK] Sample.world_second_fails in
  match ec with
  | Some x =>
      result = None /\ e = Some x /\ w3 = w1 /\
      forall ev, ev ∈ since Sample.world_second_fails w3 ->
                 exists r, ev = EvCreateJobObject "job" r
  | None =>
      let '(job2, el, w2) :=
        Sample.SetLimit [LimitBreakawayOK]
          {| Name := "job"; Handle := h; Info := zero_JobInfo |} w1 in
      match el with
      | Some y =>
          result = None /\ e = Some y /\
          h ∈ live w2 /\
          exists r,
            trace w3 = trace w2 ++ [EvCloseHandle h r] /\
            since Sample.world_second_fails w3
            = since Sample.world_second_fails w2 ++ [EvCloseHandle h r] /\
            (r = None -> h ∉ live w3)
      | None => result = Some job2 /\ e = None /\ w3 = w2
      end
  end.
Proof.
  split; [discriminate|].
  apply (Create_closes_on_failure
           (Sample.net_flag 2 true) (Sample.net_flag 2 false)
           (Sample.net_flag 4 true) (Sample.net_flag 4 false)
           Sample.reversed "job" [LimitBreakawayOK] Sample.world_second_fails).
  discriminate.
Defined.

(** C9 for the desktop restriction. *)
Lemma boolean_limit_set_reset_witness :
  (forall s, Sample.reversed s ≡ₚ elements s) /\
  LimitDesktop ∈ booleanFlagLimits /\
  exists k,
    0 <= k /\ flag_of LimitDesktop = Z.shiftl 1 k /\
    (forall job1 w1,
       Sample.SetLimit [LimitDesktop] Sample.job Sample.world = (job1, None, w1) ->
       Z.testbit (flag_field LimitDesktop (with_Info Sample.job (kernel w1))) k = true /\
       (forall i, 0 <= i -> i <> k ->
          Z.testbit (flag_field LimitDesktop (with_Info Sample.job (kernel w1))) i
          = Z.testbit (flag_field LimitDesktop (with_Info Sample.job (kernel Sample.world))) i) /\
       (forall c', c' <> resolveRequiredInfoClass LimitDesktop ->
          infoPtr (kernel w1) c' = infoPtr (kernel Sample.world) c') /\
       forall jq job2 w2,
         Handle jq = Handle Sample.job ->
         QueryLimits jq w1 = (job2, None, w2) ->
         infoPtr (Info job2) (resolveRequiredInfoClass LimitDesktop)
         = infoPtr (kernel w1) (resolveRequiredInfoClass LimitDesktop) /\
         Sample.IsSet LimitDesktop job2 = true /\
         forall jr job3 w3,
           Handle jr = Handle Sample.job ->
           Sample.ResetLimit [LimitDesktop] jr w2 = (job3, None, w3) ->
           Z.testbit (flag_field LimitDesktop (with_Info Sample.job (kernel w3))) k = false /\
           (forall i, 0 <= i -> i <> k ->
              Z.testbit (flag_field LimitDesktop (with_Info Sample.job (kernel w3))) i
              = Z.testbit (flag_field LimitDesktop (with_Info Sample.job (kernel Sample.world))) i) /\
           (forall c', c' <> resolveRequiredInfoClass LimitDesktop ->
              infoPtr (kernel w3) c' = infoPtr (kernel Sample.world) c') /\
           forall jq' job4 w4,
             Handle jq' = Handle Sample.job ->
             QueryLimits jq' w3 = (job4, None, w4) ->
             infoPtr (Info job4) (resolveRequiredInfoClass LimitDesktop)
             = infoPtr (kernel w3) (resolveRequiredInfoClass LimitDesktop) /\
             Sample.IsSet LimitDesktop job4 = false) /\
    Sample.Limit_set LimitDesktop Sample.job
    = with_flag_field LimitDesktop
        (flag_field LimitDesktop (Sample.Limit_set LimitDesktop Sample.job)) Sample.job /\
    Sample.Limit_reset LimitDesktop Sample.job
    = with_flag_field LimitDesktop
        (flag_field LimitDesktop (Sample.Limit_reset LimitDesktop Sample.job)) Sample.job /\
    Z.testbit (flag_field LimitDesktop (Sample.Limit_set LimitDesktop Sample.job)) k = true /\
    Z.testbit (flag_field LimitDesktop (Sample.Limit_reset LimitDesktop Sample.job)) k = false /\
    forall i, 0 <= i -> i <> k ->
      Z.testbit (flag_field LimitDesktop (Sample.Limit_set LimitDesktop Sample.job)) i
      = Z.testbit (flag_field LimitDesktop Sample.job) i /\
      Z.testbit (flag_field LimitDesktop (Sample.Limit_reset LimitDesktop Sample.job)) i
      = Z.testbit (flag_field LimitDesktop Sample.job) i.
Proof.
  assert (Hin : LimitDesktop ∈ booleanFlagLimits).
  { apply list_elem_of_In. unfold booleanFlagLimits.
    repeat (first [left; reflexivity | right]). }
  split; [exact reversed_perm|]. split; [exact Hin|].
  exact (boolean_limit_set_reset
           (Sample.net_flag 2 true) (Sample.net_flag 2 false)
           (Sample.net_flag 4 true) (Sample.net_flag 4 false)
           (fun _ b => 0 <? Z.land (jobapi.NetControlFlags b) 2)
           (fun _ b => 0 <? Z.land (jobapi.NetControlFlags b) 4)
           Sample.reversed reversed_perm LimitDesktop Sample.job Sample.world Hin).
Defined.

(** ** Runs on sample data *)

(** Three limits on two blocks: two queries, three merges, two write-backs. *)
Example SetLimit_three_limits :
  since Sample.world
    (snd (Sample.SetLimit [LimitBreakawayOK; LimitDesktop; LimitKillOnJobClose]
            Sample.job Sample.world))
  = [ EvQueryInformationJobObject 7 jobapi.JobObjectExtendedLimitInformation None;
      EvMerge true LimitBreakawayOK;
      EvQueryInformationJobObject 7 jobapi.JobObjectBasicUIRestrictions None;
      EvMerge true LimitDesktop;
      EvMerge true LimitKillOnJobClose;
      EvSetInformationJobObject 7 jobapi.JobObjectBasicUIRestrictions None;
      EvSetInformationJobObject 7 jobapi.JobObjectExtendedLimitInformation None ].
Proof. vm_compute. reflexivity. Qed.

(** Set, query, reset, query for the desktop restriction. *)
Example desktop_set_then_reset :
  let '(job1, e1, w1) := Sample.SetLimit [LimitDesktop] Sample.job Sample.world in
  let '(job2, e2, w2) := QueryLimits job1 w1 in
  let '(job3, e3, w3) := Sample.ResetLimit [LimitDesktop] job2 w2 in
  let '(job4, e4, w4) := QueryLimits job3 w3 in
  (e1, e2, e3, e4) = (None, None, None, None) /\
  Sample.IsSet LimitDesktop job2 = true /\
  Sample.IsSet LimitDesktop job4 = false.
Proof. vm_compute. repeat split; reflexivity. Qed.

(** Hard cap, then weight, then min/max on the same cache: the rate read
    back is the last one set. *)
Example cpu_last_submode_wins :
  let job1 := Sample.Limit_set (WithCPUHardCapLimit 500) Sample.job in
  let job2 := Sample.Limit_set (WithCPUWeightedLimit 7) job1 in
  let job3 := Sample.Limit_set (WithCPUMinMaxLimit 500 1000) job2 in
  cpuLimit_LimitValue LimitCPU job1 = {| Min := 0; Max := 0; Weight := 0; HardCap := 500 |} /\
  cpuLimit_LimitValue LimitCPU job2 = {| Min := 0; Max := 0; Weight := 7; HardCap := 0 |} /\
  cpuLimit_LimitValue LimitCPU job3 = {| Min := 500; Max := 1000; Weight := 0; HardCap := 0 |}.
Proof. vm_compute. repeat split; reflexivity. Qed.

(** [ResetLimits] on a job with limits in two blocks writes those two back. *)
Example ResetLimits_two_blocks :
  let '(job', e, w') := ResetLimits Sample.job Sample.world_limited in
  e = None /\
  since Sample.world_limited w'
  = [ EvQueryInformationJobObject 7 jobapi.JobObjectExtendedLimitInformation None;
      EvQueryInformationJobObject 7 jobapi.JobObjectBasicUIRestrictions None;
      EvQueryInformationJobObject 7 jobapi.JobObjectCpuRateControlInformation None;
      EvQueryInformationJobObject 7 jobapi.JobObjectNetRateControlInformation None;
      EvSetInformationJobObject 7 jobapi.JobObjectBasicUIRestrictions None;
      EvSetInformationJobObject 7 jobapi.JobObjectCpuRateControlInformation None ] /\
  snd (fst (fst (HasLimits job' w'))) = false.
Proof. vm_compute. repeat split; reflexivity. Qed.

(** [Create] when the first query is refused: the new handle 8 is closed. *)
Example Create_refused_query :
  let '(result, e, w') := Sample.Create "job" [LimitBreakawayOK] Sample.world_second_fails in
  result = None /\
  e = Some (Go.SyscallError "QueryInformationJobObject" (Go.Errno 5)) /\
  trace w' = [ EvCreateJobObject "job" None;
               EvQueryInformationJobObject 8 jobapi.JobObjectExtendedLimitInformation
                 (Some (Go.Errno 5));
               EvCloseHandle 8 None ] /\
  live w' = [].
Proof. vm_compute. repeat split; reflexivity. Qed.

(** A subscription closed twice while a packet and the abandoned wait come
    in: one close of the handle, one close of the sink, no error. *)
Example subscription_closed_twice :
  let '(sys, w') :=
    run [ActDequeue (inl (6, 100)); ActClose; ActClose; ActDequeue (inr jobapi.ErrAbandoned)]
        (started 7) Sample.world in
  closes sys = [None; None] /\
  err (sub sys) = None /\
  looping sys = false /\
  since Sample.world w'
  = [ EvGetQueuedCompletionStatus 7 None;
      EvSend {| Type_ := Named "NewProcess"; PID := 100 |};
      EvLock; EvCloseHandle 7 None; EvSetClosed; EvUnlock;
      EvLock; EvUnlock;
      EvGetQueuedCompletionStatus 7 (Some jobapi.ErrAbandoned);
      EvLock; EvUnlock; EvCloseChan ].
Proof. vm_compute. repeat split; reflexivity. Qed.

(** The port handle closed behind the subscription's back: the dequeue
    fails with ERROR_INVALID_HANDLE, which is recorded. *)
Example subscription_port_lost :
  let '(sys, w') := run [ActDequeue (inr Go.ERROR_INVALID_HANDLE)] (started 7) Sample.world in
  err (sub sys) = Some (Go.SyscallError "GetQueuedCompletionStatus" Go.ERROR_INVALID_HANDLE) /\
  fst (Subscription_Err (sub sys) w')
  = (sub sys, Some (Go.SyscallError "GetQueuedCompletionStatus" Go.ERROR_INVALID_HANDLE)) /\
  count EvCloseChan (since Sample.world w') = 1%nat.
Proof. vm_compute. repeat split; reflexivity. Qed.

(** * More of the package *)

(** ** What a limit touches *)

Lemma JobInfo_ext (a b : JobInfo) :
  (forall c, infoPtr a c = infoPtr b c) -> a = b.
Proof.
  intros H. destruct a, b.
  pose proof (H jobapi.JobObjectExtendedLimitInformation) as H1.
  pose proof (H jobapi.JobObjectBasicUIRestrictions) as H2.
  pose proof (H jobapi.JobObjectBasicAndIoAccountingInformation) as H3.
  pose proof (H jobapi.JobObjectCpuRateControlInformation) as H4.
  pose proof (H jobapi.JobObjectNetRateControlInformation) as H5.
  cbn in *. congruence.
Qed.

(** The cases of the switch of [cpuLimit.set]. *)
Ltac cpu_cases :=
  unfold cpuLimit_set;
  repeat match goal with |- context [0 <? ?x] => destruct (0 <? x) eqn:? end.

(** ** Queries *)

(** X12: [QueryLimits] asks for the four limit blocks in the order
    extended limits, UI restrictions, CPU rate, net rate, and stops at the
    first query that fails.  The slots of the blocks queried before hold
    the kernel's blocks afterwards; the slots of the failed query and of
    the ones not reached, and the accounting slot, are as they were.  The
    kernel, the open handles, the name and the handle of the job are left
    alone. *)
Theorem QueryLimits_refreshes (job : JobObject) (w : World) :
  let '(job', e, w') := QueryLimits job w in
  kernel w' = kernel w /\ live w' = live w /\
  Name job' = Name job /\ Handle job' = Handle job /\
  AccountingInfo (Info job') = AccountingInfo (Info job) /\
  exists done,
    done `prefix_of` limitClasses /\
    (forall c, infoPtr (Info job') c
               = if bool_decide (c ∈ done) then infoPtr (kernel w) c else infoPtr (Info job) c) /\
    match e with
    | None =>
        done = limitClasses /\
        since w w' = map (fun c => EvQueryInformationJobObject (Handle job) c None) limitClasses
    | Some x =>
        exists c r rest,
          limitClasses = done ++ c :: rest /\
          x = Go.SyscallError "QueryInformationJobObject" r /\
          since w w' = map (fun c => EvQueryInformationJobObject (Handle job) c None) done
                       ++ [EvQueryInformationJobObject (Handle job) c (Some r)]
    end.
Proof.
  unfold QueryLimits. fold limitClasses.
  destruct (sync QueryInfo limitClasses job w) as [[job' e] w'] eqn:H.
  pose proof (sync_QueryInfo_log _ _ _ _ _ _ H) as (Hn & Hh & Hk & Hl & _).
  apply sync_QueryInfo_partial in H. destruct H as (done & Hp & Hi & He).
  repeat split; try assumption.
  - specialize (Hi jobapi.JobObjectBasicAndIoAccountingInformation).
    rewrite bool_decide_eq_false_2 in Hi.
    + cbn in Hi. congruence.
    + intros Hin. destruct Hp as [k Hk']. 
      assert (Hin' : jobapi.JobObjectBasicAndIoAccountingInformation ∈ limitClasses).
      { rewrite Hk'. apply elem_of_app. left. exact Hin. }
      in_list Hin'; discriminate.
  - exists done. split; [exact Hp|]. split; assumption.
Qed.

(** [HasLimits] when its queries go through. *)
Lemma HasLimits_ok (job job' : JobObject) (limited : bool) (w w' : World) :
  HasLimits job w = (job', limited, None, w') ->
  kernel w' = kernel w /\
  (limited = true <-> exists c, nonempty (kernel w) c) /\
  forall c, c ∈ limitClasses -> infoPtr (Info job') c = infoPtr (kernel w) c.
Proof.
  unfold HasLimits, bind, QueryLimits. fold limitClasses.
  destruct (sync QueryInfo limitClasses job w) as [[job1 e1] w1] eqn:H.
  destruct e1 as [x|]; unfold ret; intros Heq; [discriminate Heq|].
  inversion Heq; subst. clear Heq.
  apply sync_QueryInfo_ok in H. destruct H as (_ & _ & Hk & _ & _ & Hi).
  assert (Hslots : forall c, c ∈ limitClasses -> infoPtr (Info job') c = infoPtr (kernel w) c).
  { intros c Hc. rewrite Hi, bool_decide_eq_true_2 by exact Hc. reflexivity. }
  split; [exact Hk|]. split; [|exact Hslots]. split.
  - intros Hlim. apply bool_decide_eq_true in Hlim.
    destruct (limitInfoClassesSet job') as [|c l] eqn:Hset; [cbn in Hlim; lia|].
    assert (Hc : c ∈ limitInfoClassesSet job') by (rewrite Hset; left).
    exists c. rewrite <- (nonempty_slot (Info job') (kernel w) c).
    + apply limitInfoClassesSet_spec. exact Hc.
    + apply Hslots. apply (limitInfoClassesSet_limit job'). exact Hc.
  - intros [c Hc]. apply bool_decide_eq_true.
    assert (Hlc : c ∈ limitClasses).
    { destruct c; apply list_elem_of_In; cbn in *; tauto. }
    assert (Hin : c ∈ limitInfoClassesSet job').
    { apply limitInfoClassesSet_spec.
      rewrite (nonempty_slot (Info job') (kernel w) c); [exact Hc | apply Hslots; exact Hlc]. }
    destruct (limitInfoClassesSet job'); [inversion Hin | cbn; lia].
Qed.


(** ** Counters *)

(** X14: [QueryCounters] issues one query, of the accounting block, and
    overwrites every field of the destination: what it leaves there when
    the query goes through does not depend on what the destination held.
    When the query fails the destination and the cache are left as they
    were.  [Counters] returns what [QueryCounters] leaves in a fresh
    destination, and no counters on failure.  Only the accounting slot of
    the cache can change; the kernel is left alone. *)
Theorem QueryCounters_overwrites_destination (job : JobObject) (c1 c2 : Counters) (w : World) :
  let '(job1, r1, e1, w1) := QueryCounters job c1 w in
  let '(job2, r2, e2, w2) := QueryCounters job c2 w in
  job2 = job1 /\ e2 = e1 /\ w2 = w1 /\
  (e1 = None -> r1 = r2) /\
  (e1 <> None -> r1 = c1 /\ r2 = c2 /\ job1 = job) /\
  JobObject_Counters job w
  = (job1, match e1 with None => Some r1 | Some _ => None end, e1, w1) /\
  kernel w1 = kernel w /\ live w1 = live w /\
  (exists r, since w w1
             = [EvQueryInformationJobObject (Handle job)
                  jobapi.JobObjectBasicAndIoAccountingInformation r]) /\
  (forall c, c <> jobapi.JobObjectBasicAndIoAccountingInformation ->
     infoPtr (Info job1) c = infoPtr (Info job) c).
Proof.
  unfold JobObject_Counters, QueryCounters, bind. cbn [sync]. unfold bind.
  rewrite QueryInfo_run.
  destruct (kernel_verdict (Handle job) w) as [x|]; unfold ret.
  - rewrite with_Info_same.
    repeat split; try reflexivity; try discriminate.
    eexists. apply since_app. reflexivity.
  - repeat split; try reflexivity; try congruence.
    + eexists. apply since_app. reflexivity.
    + intros c Hc. cbn [Info with_Info]. apply infoPtr_store_other. congruence.
Qed.

Ltac open_merge_all := unfold merge_all.
Ltac step_limit := cbn [Limit_set Limit_reset IsSet Limit_Value].

Section LimitFacts2.

Variable netBandwidthLimit_set netBandwidthLimit_reset :
  Z -> jobapi.JOBOBJECT_NET_RATE_CONTROL_INFORMATION -> jobapi.JOBOBJECT_NET_RATE_CONTROL_INFORMATION.
Variable netDSCPTagLimit_set netDSCPTagLimit_reset :
  Z -> jobapi.JOBOBJECT_NET_RATE_CONTROL_INFORMATION -> jobapi.JOBOBJECT_NET_RATE_CONTROL_INFORMATION.
Variable netBandwidthLimit_IsSet netDSCPTagLimit_IsSet :
  Z -> jobapi.JOBOBJECT_NET_RATE_CONTROL_INFORMATION -> bool.
Variable netBandwidthLimit_Value netDSCPTagLimit_Value :
  Z -> jobapi.JOBOBJECT_NET_RATE_CONTROL_INFORMATION -> GoValue.
Variable rangeOrder : gset jobapi.JobObjectInformationClass -> list jobapi.JobObjectInformationClass.
Hypothesis rangeOrder_perm : forall s, rangeOrder s ≡ₚ elements s.

Local Abbreviation Limit_set := (Limit_set netBandwidthLimit_set netDSCPTagLimit_set).
Local Abbreviation Limit_reset := (Limit_reset netBandwidthLimit_reset netDSCPTagLimit_reset).
Local Abbreviation IsSet := (IsSet netBandwidthLimit_IsSet netDSCPTagLimit_IsSet).
Local Abbreviation Limit_Value := (Limit_Value netBandwidthLimit_Value netDSCPTagLimit_Value).
Local Abbreviation merged :=
  (merged netBandwidthLimit_set netBandwidthLimit_reset
          netDSCPTagLimit_set netDSCPTagLimit_reset).
Local Abbreviation merge_all :=
  (merge_all netBandwidthLimit_set netBandwidthLimit_reset
             netDSCPTagLimit_set netDSCPTagLimit_reset).
Local Abbreviation applyLoop :=
  (applyLoop netBandwidthLimit_set netBandwidthLimit_reset
             netDSCPTagLimit_set netDSCPTagLimit_reset).
Local Abbreviation applyLimit :=
  (applyLimit netBandwidthLimit_set netBandwidthLimit_reset
              netDSCPTagLimit_set netDSCPTagLimit_reset rangeOrder).
Local Abbreviation SetLimit :=
  (SetLimit netBandwidthLimit_set netBandwidthLimit_reset
            netDSCPTagLimit_set netDSCPTagLimit_reset rangeOrder).
Local Abbreviation ResetLimit :=
  (ResetLimit netBandwidthLimit_set netBandwidthLimit_reset
              netDSCPTagLimit_set netDSCPTagLimit_reset rangeOrder).
Local Abbreviation Create :=
  (Create netBandwidthLimit_set netBandwidthLimit_reset
          netDSCPTagLimit_set netDSCPTagLimit_reset rangeOrder).

(** A merge leaves the slots of the other classes as they are. *)
Lemma merged_other_block (set : bool) (L : Limit) (job : JobObject)
    (c : jobapi.JobObjectInformationClass) :
  c <> resolveRequiredInfoClass L ->
  infoPtr (Info (merged set L job)) c = infoPtr (Info job) c.
Proof.
  intros Hc. open_merged.
  destruct set, L, c; try reflexivity; try (exfalso; apply Hc; reflexivity);
    open_Limit_set; cpu_cases; reflexivity.
Qed.

(** What a merge makes of the slot of its class depends on that slot alone. *)
Lemma merged_own_block (set : bool) (L : Limit) (j1 j2 : JobObject) :
  infoPtr (Info j1) (resolveRequiredInfoClass L) = infoPtr (Info j2) (resolveRequiredInfoClass L) ->
  infoPtr (Info (merged set L j1)) (resolveRequiredInfoClass L)
  = infoPtr (Info (merged set L j2)) (resolveRequiredInfoClass L).
Proof.
  intros H. open_merged.
  destruct set, L; cbn in H; injection H as H; open_Limit_set; cpu_cases; cbn;
    unfold LimitFlags_of, UIClass_of; cbn; rewrite ?H; try reflexivity.
Qed.

(** X1: [set] and [reset] of a limit of limits.go, limits_ui.go or the CPU
    file change the one slot of the cache that [resolveRequiredInfoClass]
    names for it; the four other slots, the name and the handle of the job
    stay as they are. *)
Theorem merge_stays_in_its_block (set : bool) (L : Limit) (job : JobObject)
    (c : jobapi.JobObjectInformationClass) :
  is_net L = false ->
  c <> resolveRequiredInfoClass L ->
  infoPtr (Info (merged set L job)) c = infoPtr (Info job) c /\
  Name (merged set L job) = Name job /\
  Handle (merged set L job) = Handle job.
Proof.
  intros _ Hc. split; [|split].
  - open_merged.
    destruct set, L, c; try reflexivity; try (exfalso; apply Hc; reflexivity);
      open_Limit_set; cpu_cases; reflexivity.
  - open_merged. destruct set, L; try reflexivity; open_Limit_set; cpu_cases; reflexivity.
  - open_merged. destruct set, L; try reflexivity; open_Limit_set; cpu_cases; reflexivity.
Qed.

Lemma exported_flag_pos (L : Limit) :
  exported L = true ->
  match L with
  | basicLimit f | affinityLimit f _ | jobMemoryLimit f _ | jobTimeLimit f _
  | processMemoryLimit f _ | processTimeLimit f _ | activeProcessLimit f _
  | workingSetLimit f _ _ | priorityClassLimit f _ | schedulingClassLimit f _
  | uiRestriction f => 0 < f
  | _ => True
  end.
Proof.
  destruct L; cbn; intros H; try exact I;
    try (apply bool_decide_eq_true in H; subst; reflexivity).
  - apply bool_decide_eq_true in H.
    repeat (apply elem_of_cons in H; destruct H as [H | H];
            [first [discriminate H | injection H as ->; reflexivity]|]).
    inversion H.
  - apply bool_decide_eq_true in H.
    repeat (apply elem_of_cons in H; destruct H as [H | H];
            [first [discriminate H | injection H as ->; reflexivity]|]).
    inversion H.
Qed.

Lemma basicLimit_IsSet_set (l : Z) (job : JobObject) :
  0 < l -> basicLimit_IsSet l (basicLimit_set l job) = true.
Proof.
  intros Hl. unfold basicLimit_IsSet, basicLimit_set, LimitFlags_of. cbn.
  rewrite land_lor_bit. apply Z.ltb_lt. exact Hl.
Qed.

Lemma basicLimit_IsSet_reset (l : Z) (job : JobObject) :
  basicLimit_IsSet l (basicLimit_reset l job) = false.
Proof.
  unfold basicLimit_IsSet, basicLimit_reset, LimitFlags_of. cbn.
  rewrite land_ldiff_bit. reflexivity.
Qed.

Lemma uiRestriction_IsSet_set (r : Z) (job : JobObject) :
  0 < r -> uiRestriction_IsSet r (uiRestriction_set r job) = true.
Proof.
  intros Hr. unfold uiRestriction_IsSet, uiRestriction_set, UIClass_of. cbn.
  rewrite land_lor_bit. apply Z.ltb_lt. exact Hr.
Qed.

Lemma uiRestriction_IsSet_reset (r : Z) (job : JobObject) :
  uiRestriction_IsSet r (uiRestriction_reset r job) = false.
Proof.
  unfold uiRestriction_IsSet, uiRestriction_reset, UIClass_of. cbn.
  rewrite land_ldiff_bit. reflexivity.
Qed.

Lemma IsSet_follows_set_and_reset_lemma (L : Limit) (job : JobObject) :
  exported L = true ->
  is_net L = false ->
  IsSet L (Limit_set L job) = true /\ IsSet L (Limit_reset L job) = false.
Proof.
  intros He Hn. pose proof (exported_flag_pos L He) as Hpos.
  destruct L; try discriminate Hn; step_limit;
    try (split; [|apply basicLimit_IsSet_reset]).
  all: try (unfold affinityLimit_set, jobMemoryLimit_set, jobTimeLimit_set,
              processMemoryLimit_set, processTimeLimit_set, activeProcessLimit_set,
              workingSetLimit_set, priorityClassLimit_set, schedulingClassLimit_set;
            apply basicLimit_IsSet_set; exact Hpos).
  - split; [apply uiRestriction_IsSet_set; exact Hpos | apply uiRestriction_IsSet_reset].
  - split; [|reflexivity].
    unfold cpuLimit_IsSet. cpu_cases; reflexivity.
Qed.

(** X2: for every limit the package hands out, the network limits apart:
    once [set] has merged it into the cache [IsSet] is true, and once [reset]
    has cleared it [IsSet] is false, whatever the cache held before.  A CPU
    limit counts as set even when its rate names no sub-mode. *)
Theorem IsSet_follows_set_and_reset (L : Limit) (job : JobObject) :
  exported L = true ->
  is_net L = false ->
  IsSet L (Limit_set L job) = true /\ IsSet L (Limit_reset L job) = false.
Proof. apply IsSet_follows_set_and_reset_lemma. Qed.

Ltac open_value_limits :=
  unfold affinityLimit_set, jobMemoryLimit_set, jobTimeLimit_set,
    processMemoryLimit_set, processTimeLimit_set, activeProcessLimit_set,
    workingSetLimit_set, priorityClassLimit_set, schedulingClassLimit_set,
    affinityLimit_LimitValue, jobMemoryLimit_LimitValue, jobTimeLimit_LimitValue,
    processMemoryLimit_LimitValue, processTimeLimit_LimitValue,
    activeProcessLimit_LimitValue, workingSetLimit_MinWorkingSetSize,
    workingSetLimit_MaxWorkingSetSize, priorityClassLimit_LimitValue,
    schedulingClassLimit_LimitValue, BasicLimits_of.

Ltac open_flag_limits :=
  unfold LimitBreakawayOK, LimitDieOnUnhandledException, LimitKillOnJobClose,
    LimitPreserveJobTime, LimitSubsetAffinity, LimitSilentBreakawayOK,
    LimitDesktop, LimitDisplaySettings, LimitExitWindows, LimitGlobalAtoms,
    LimitHandles, LimitSystemParameters, LimitWriteClipboard, LimitReadClipboard,
    WithAffinity, WithJobMemoryLimit, WithProcessMemoryLimit, WithActiveProcessLimit,
    WithWorkingSetLimit, WithPriorityClassLimit, WithSchedulingClassLimit,
    WithJobTimeLimit, WithProcessTimeLimit.

(** X3: what [Value] returns once a limit has been [set], whatever the
    cache held: [true] for each of the fourteen flag limits; the value
    given for the affinity, the two memory limits, the number of active
    processes, the priority class and the scheduling class, with the
    dynamic type of each; for the working set, whose type has no [Value] of
    its own, the boolean [true], the two sizes being read with
    [MinWorkingSetSize] and [MaxWorkingSetSize]. *)
Theorem Value_after_set (job : JobObject) :
  (forall L, L ∈ booleanFlagLimits -> Limit_Value L (Limit_set L job) = VBool true) /\
  (forall x, Limit_Value (WithAffinity x) (Limit_set (WithAffinity x) job) = VUintptr x) /\
  (forall x, Limit_Value (WithJobMemoryLimit x) (Limit_set (WithJobMemoryLimit x) job)
             = VUintptr x) /\
  (forall x, Limit_Value (WithProcessMemoryLimit x) (Limit_set (WithProcessMemoryLimit x) job)
             = VUintptr x) /\
  (forall x, Limit_Value (WithActiveProcessLimit x) (Limit_set (WithActiveProcessLimit x) job)
             = VUint32 x) /\
  (forall x, Limit_Value (WithPriorityClassLimit x) (Limit_set (WithPriorityClassLimit x) job)
             = VPriorityClass x) /\
  (forall x, Limit_Value (WithSchedulingClassLimit x) (Limit_set (WithSchedulingClassLimit x) job)
             = VUint32 x) /\
  (forall mn mx,
     let job' := Limit_set (WithWorkingSetLimit mn mx) job in
     Limit_Value (WithWorkingSetLimit mn mx) job' = VBool true /\
     workingSetLimit_MinWorkingSetSize job' = mn /\
     workingSetLimit_MaxWorkingSetSize job' = mx).
Proof.
  split.
  { intros L HL. unfold booleanFlagLimits in HL.
    repeat (apply elem_of_cons in HL; destruct HL as [-> | HL];
            [open_flag_limits; step_limit; f_equal;
             first [apply basicLimit_IsSet_set; reflexivity
                   | apply uiRestriction_IsSet_set; reflexivity]|]).
    inversion HL. }
  repeat split; intros; open_flag_limits; step_limit; open_value_limits; try reflexivity.
  cbn zeta. f_equal. apply basicLimit_IsSet_set. reflexivity.
Qed.

(** X5: [reset] of a limit that carries a value clears its flag and leaves
    the value in the cache: after [set] and [reset], [IsSet] is false and
    [Value] still returns the value that was set.  (The types that embed
    [basicLimit] have no [reset] of their own.) *)
Theorem reset_keeps_the_value (job : JobObject) :
  (forall x, let L := WithAffinity x in
     let job' := Limit_reset L (Limit_set L job) in
     IsSet L job' = false /\ Limit_Value L job' = VUintptr x) /\
  (forall x, let L := WithJobMemoryLimit x in
     let job' := Limit_reset L (Limit_set L job) in
     IsSet L job' = false /\ Limit_Value L job' = VUintptr x) /\
  (forall x, let L := WithProcessMemoryLimit x in
     let job' := Limit_reset L (Limit_set L job) in
     IsSet L job' = false /\ Limit_Value L job' = VUintptr x) /\
  (forall x, let L := WithActiveProcessLimit x in
     let job' := Limit_reset L (Limit_set L job) in
     IsSet L job' = false /\ Limit_Value L job' = VUint32 x) /\
  (forall x, let L := WithPriorityClassLimit x in
     let job' := Limit_reset L (Limit_set L job) in
     IsSet L job' = false /\ Limit_Value L job' = VPriorityClass x) /\
  (forall x, let L := WithSchedulingClassLimit x in
     let job' := Limit_reset L (Limit_set L job) in
     IsSet L job' = false /\ Limit_Value L job' = VUint32 x) /\
  (forall mn mx, let L := WithWorkingSetLimit mn mx in
     let job' := Limit_reset L (Limit_set L job) in
     IsSet L job' = false /\
     workingSetLimit_MinWorkingSetSize job' = mn /\
     workingSetLimit_MaxWorkingSetSize job' = mx).
Proof.
  repeat split; intros; open_flag_limits; step_limit; open_value_limits;
    first [apply basicLimit_IsSet_reset | reflexivity].
Qed.

Lemma wrap_int64_small (z : Z) : - 2 ^ 63 <= z < 2 ^ 63 -> wrap_int64 z = z.
Proof.
  intros H. unfold wrap_int64.
  rewrite Z.mod_small by lia. lia.
Qed.

(** X4: a time limit is kept in ticks of 100 nanoseconds.  For a duration
    [d] of the range of [int64], [WithJobTimeLimit d] and
    [WithProcessTimeLimit d] store [d / 100] truncated toward zero, and
    what [LimitValue] reads back after [set] is [d] less its remainder by
    100: [d] itself exactly when [d] is a whole number of ticks. *)
Theorem time_limit_in_ticks (d : Z) (job : JobObject) :
  - 2 ^ 63 <= d < 2 ^ 63 ->
  let job1 := Limit_set (WithJobTimeLimit d) job in
  let job2 := Limit_set (WithProcessTimeLimit d) job in
  jobapi.PerJobUserTimeLimit (BasicLimits_of job1) = d ÷ 100 /\
  jobapi.PerProcessUserTimeLimit (BasicLimits_of job2) = d ÷ 100 /\
  jobTimeLimit_LimitValue job1 = d - Z.rem d 100 /\
  processTimeLimit_LimitValue job2 = d - Z.rem d 100 /\
  Limit_Value (WithJobTimeLimit d) job1 = VDuration (d - Z.rem d 100) /\
  Limit_Value (WithProcessTimeLimit d) job2 = VDuration (d - Z.rem d 100) /\
  (jobTimeLimit_LimitValue job1 = d <-> Z.rem d 100 = 0).
Proof.
  intros Hd. cbn zeta.
  assert (Hq : d ÷ 100 * 100 = d - Z.rem d 100).
  { pose proof (Z.quot_rem' d 100). lia. }
  assert (Hr : - 2 ^ 63 <= d - Z.rem d 100 < 2 ^ 63).
  { destruct (Z.le_gt_cases 0 d) as [Hp | Hn].
    - assert (H100 : 0 < 100) by lia.
      pose proof (Z.rem_bound_pos d 100 Hp H100). lia.
    - assert (H100 : 0 < 100) by lia.
      assert (Hn' : d <= 0) by lia.
      pose proof (Z.rem_bound_pos_neg d 100 H100 Hn'). lia. }
  assert (H1 : jobTimeLimit_LimitValue (Limit_set (WithJobTimeLimit d) job) = d - Z.rem d 100).
  { open_flag_limits. step_limit. open_value_limits. cbn. unfold timeFraction.
    rewrite Hq. apply wrap_int64_small. exact Hr. }
  assert (H2 : processTimeLimit_LimitValue (Limit_set (WithProcessTimeLimit d) job)
               = d - Z.rem d 100).
  { open_flag_limits. step_limit. open_value_limits. cbn. unfold timeFraction.
    rewrite Hq. apply wrap_int64_small. exact Hr. }
  split; [reflexivity|]. split; [reflexivity|].
  split; [exact H1|]. split; [exact H2|].
  split; [unfold WithJobTimeLimit at 1; step_limit; f_equal; exact H1|].
  split; [unfold WithProcessTimeLimit at 1; step_limit; f_equal; exact H2|].
  rewrite H1. lia.
Qed.

Lemma lor_swap (f a b : Z) : Z.lor (Z.lor f a) b = Z.lor (Z.lor f b) a.
Proof. rewrite <- !Z.lor_assoc. f_equal. apply Z.lor_comm. Qed.

Lemma ldiff_swap (f a b : Z) : Z.ldiff (Z.ldiff f a) b = Z.ldiff (Z.ldiff f b) a.
Proof.
  apply Z.bits_inj'. intros i Hi. rewrite !Z.ldiff_spec.
  destruct (Z.testbit f i), (Z.testbit a i), (Z.testbit b i); reflexivity.
Qed.

Lemma lor_twice (f a : Z) : Z.lor (Z.lor f a) a = Z.lor f a.
Proof. rewrite <- Z.lor_assoc, Z.lor_diag. reflexivity. Qed.

Lemma ldiff_twice (f a : Z) : Z.ldiff (Z.ldiff f a) a = Z.ldiff f a.
Proof.
  apply Z.bits_inj'. intros i Hi. rewrite !Z.ldiff_spec.
  destruct (Z.testbit f i), (Z.testbit a i); reflexivity.
Qed.

Lemma flag_merges_commute (set : bool) (L1 L2 : Limit) (job : JobObject) :
  is_flag_limit L1 = true -> is_flag_limit L2 = true ->
  merged set L1 (merged set L2 job) = merged set L2 (merged set L1 job).
Proof.
  intros H1 H2. open_merged.
  destruct L1; try discriminate H1; destruct L2; try discriminate H2;
    destruct set; cbn; try reflexivity;
    unfold basicLimit_set, basicLimit_reset, uiRestriction_set, uiRestriction_reset,
      LimitFlags_of, UIClass_of, upd_BasicLimitInformation, upd_ExtendedLimits, with_Info;
    cbn; rewrite ?(lor_swap _ l l0), ?(ldiff_swap _ l l0),
                 ?(lor_swap _ r r0), ?(ldiff_swap _ r r0); reflexivity.
Qed.

Lemma flag_merge_twice (set : bool) (L : Limit) (job : JobObject) :
  is_flag_limit L = true ->
  merged set L (merged set L job) = merged set L job.
Proof.
  intros H. open_merged.
  destruct L; try discriminate H; destruct set; cbn;
    unfold basicLimit_set, basicLimit_reset, uiRestriction_set, uiRestriction_reset,
      LimitFlags_of, UIClass_of, upd_BasicLimitInformation, upd_ExtendedLimits, with_Info;
    cbn; rewrite ?lor_twice, ?ldiff_twice; reflexivity.
Qed.

Lemma merge_all_cons (set : bool) (L : Limit) (limits : list Limit) (job : JobObject) :
  merge_all set (L :: limits) job = merge_all set limits (merged set L job).
Proof. reflexivity. Qed.

Lemma merge_all_app (set : bool) (l1 l2 : list Limit) (job : JobObject) :
  merge_all set (l1 ++ l2) job = merge_all set l2 (merge_all set l1 job).
Proof. open_merge_all. apply fold_left_app. Qed.

Lemma flag_merges_permute (set : bool) (l1 l2 : list Limit) :
  l1 ≡ₚ l2 ->
  Forall (fun L => is_flag_limit L = true) l1 ->
  forall job, merge_all set l1 job = merge_all set l2 job.
Proof.
  induction 1 as [|x l1 l2 Hp IH|x y l|l1 l2 l3 Hp1 IH1 Hp2 IH2]; intros Hall job.
  - reflexivity.
  - rewrite !merge_all_cons. apply IH. apply Forall_cons in Hall. tauto.
  - rewrite !merge_all_cons. f_equal.
    apply Forall_cons in Hall. destruct Hall as [Hy Hall].
    apply Forall_cons in Hall. destruct Hall as [Hx _].
    apply flag_merges_commute; assumption.
  - rewrite IH1 by exact Hall. apply IH2. rewrite <- Hp1. exact Hall.
Qed.

(** X6: the limits that are one bit of a flag field (the types
    [basicLimit] and [uiRestriction]) can be merged in any order: two lists
    that are permutations of one another leave the same cache, setting as
    well as resetting; and merging such a limit a second time changes
    nothing. *)
Theorem flag_limits_order_free (set : bool) (l1 l2 : list Limit) (job : JobObject) :
  Forall (fun L => is_flag_limit L = true) l1 ->
  l1 ≡ₚ l2 ->
  merge_all set l1 job = merge_all set l2 job /\
  (forall L, L ∈ l1 -> merged set L (merged set L job) = merged set L job).
Proof.
  intros Hall Hp. split.
  - apply flag_merges_permute; assumption.
  - intros L HL. apply flag_merge_twice.
    rewrite Forall_forall in Hall. apply Hall. exact HL.
Qed.

(** ** What a call does to the kernel and to the cache *)

(** Any run of [sync] over the write-backs, with what it leaves in the
    kernel: the blocks of the classes written before the first failure come
    from the cache, the others stay. *)
Lemma sync_SetInfo_partial (classes : list jobapi.JobObjectInformationClass)
    (job job' : JobObject) (e : option Go.error) (w w' : World) :
  sync SetInfo classes job w = (job', e, w') ->
  exists done,
    done `prefix_of` classes /\
    (e = None -> done = classes) /\
    (forall c, EvSetInformationJobObject (Handle job) c None ∈ since w w' <-> c ∈ done) /\
    (forall c, infoPtr (kernel w') c
               = if bool_decide (c ∈ done) then infoPtr (Info job) c else infoPtr (kernel w) c).
Proof.
  revert w. induction classes as [|c0 classes IH]; intros w H.
  - cbn in H. inversion H; subst. exists []. rewrite since_refl.
    repeat split; try reflexivity; intros Hc; inversion Hc.
  - cbn [sync] in H. unfold bind in H. rewrite SetInfo_run in H.
    destruct (kernel_verdict (Handle job) w) as [x|] eqn:Hv.
    + inversion H; subst. exists [].
      erewrite since_app by reflexivity.
      split; [apply prefix_nil|]. split; [discriminate|]. split; [|reflexivity].
      intros c. split; intros Hc; [in_list Hc; discriminate Hc | inversion Hc].
    + rewrite with_Info_same in H.
      pose proof (sync_SetInfo_log _ _ _ _ _ _ H) as (_ & _ & evs & Ht & _ & _).
      apply IH in H. destruct H as (done & Hp & He & Hin & Hk).
      rewrite (since_app _ _ _ Ht) in Hin.
      cbn [kernel trace called with_kernel] in Ht, Hk.
      exists (c0 :: done).
      split; [apply prefix_cons; exact Hp|].
      split; [intros Hn; rewrite (He Hn); reflexivity|]. split.
      * intros c.
        rewrite (since_app w w' (EvSetInformationJobObject (Handle job) c0 None :: evs))
          by (rewrite Ht, <- app_assoc; reflexivity).
        rewrite !elem_of_cons, Hin.
        split; (intros [Hc | Hc]; [left; congruence | right; exact Hc]).
      * intros c. rewrite Hk.
        destruct (bool_decide (c ∈ done)) eqn:Hd.
        -- apply bool_decide_eq_true in Hd.
           rewrite bool_decide_eq_true_2 by (right; exact Hd). reflexivity.
        -- apply bool_decide_eq_false in Hd. rewrite infoPtr_store.
           destruct (decide (c0 = c)) as [->|Hne].
           ++ rewrite bool_decide_eq_true_2 by left. reflexivity.
           ++ rewrite bool_decide_eq_false_2; [reflexivity|].
              intros Hc. apply elem_of_cons in Hc. destruct Hc; [congruence | contradiction].
Qed.

(** The first loop of [applyLimit] leaves the kernel as it is, however it
    ends. *)
Lemma applyLoop_kernel (set : bool) (limits : list Limit)
    (seen seen' : gset jobapi.JobObjectInformationClass) (job job' : JobObject)
    (e : option Go.error) (w w' : World) :
  applyLoop set limits seen job w = (job', seen', e, w') ->
  kernel w' = kernel w /\ live w' = live w /\ Handle job' = Handle job /\
  Name job' = Name job /\
  exists evs, trace w' = trace w ++ evs /\ forall ev, ev ∈ evs -> write_of ev = None.
Proof.
  revert seen job w. induction limits as [|l limits IH]; intros seen job w H.
  - cbn in H. inversion H; subst. repeat split; try reflexivity.
    exists []. rewrite app_nil_r. split; [reflexivity|]. intros ev Hev. inversion Hev.
  - pose proof (applyLoop_cons netBandwidthLimit_set netBandwidthLimit_reset
                  netDSCPTagLimit_set netDSCPTagLimit_reset set l limits seen job w) as Hc.
    cbn zeta in Hc. rewrite Hc in H. clear Hc.
    destruct (bool_decide (resolveRequiredInfoClass l ∈ seen)).
    + apply IH in H. destruct H as (Hk & Hl & Hh & Hn & evs & Ht & Hw).
      destruct (merged_Handle netBandwidthLimit_set netBandwidthLimit_reset
                  netDSCPTagLimit_set netDSCPTagLimit_reset set l job) as [Hmh Hmn].
      rewrite Hmh in Hh. rewrite Hmn in Hn.
      repeat split; try assumption.
      exists (EvMerge set l :: evs). split.
      * rewrite Ht. cbn. rewrite <- app_assoc. reflexivity.
      * intros ev Hev. apply elem_of_cons in Hev. destruct Hev as [-> | Hev]; [reflexivity | auto].
    + destruct (kernel_verdict (Handle job) w) as [x|].
      * inversion H; subst. repeat split; try reflexivity.
        eexists. split; [reflexivity|]. intros ev Hev. in_list Hev. reflexivity.
      * apply IH in H. destruct H as (Hk & Hl & Hh & Hn & evs & Ht & Hw).
        destruct (merged_Handle netBandwidthLimit_set netBandwidthLimit_reset
                    netDSCPTagLimit_set netDSCPTagLimit_reset set l
                    (with_Info job (store (Info job)
                                      (infoPtr (kernel w) (resolveRequiredInfoClass l)))))
          as [Hmh Hmn].
        rewrite Hmh in Hh. rewrite Hmn in Hn.
        repeat split; try assumption.
        exists (EvQueryInformationJobObject (Handle job) (resolveRequiredInfoClass l) None
                  :: EvMerge set l :: evs). split.
        -- rewrite Ht. cbn. rewrite <- !app_assoc. reflexivity.
        -- intros ev Hev. apply elem_of_cons in Hev. destruct Hev as [-> | Hev]; [reflexivity|].
           apply elem_of_cons in Hev. destruct Hev as [-> | Hev]; [reflexivity | auto].
Qed.

(** The cache along the loop, against the limits merged into a copy [I]
    of the kernel's blocks: the slots queried so far agree, the others are
    untouched on both sides. *)
Lemma applyLoop_blocks (set : bool) (limits : list Limit) :
  forall (seen seen' : gset jobapi.JobObjectInformationClass) (job job' I : JobObject)
         (w w' : World),
  applyLoop set limits seen job w = (job', seen', None, w') ->
  (forall c, c ∈ seen -> infoPtr (Info job) c = infoPtr (Info I) c) ->
  (forall c, c ∉ seen -> infoPtr (Info I) c = infoPtr (kernel w) c) ->
  (forall c, c ∈ seen' -> infoPtr (Info job') c = infoPtr (Info (merge_all set limits I)) c) /\
  (forall c, c ∉ seen' ->
     infoPtr (Info (merge_all set limits I)) c = infoPtr (kernel w) c /\
     infoPtr (Info job') c = infoPtr (Info job) c).
Proof.
  induction limits as [|l limits IH]; intros seen seen' job job' I w w' H H1 H2.
  - cbn in H. inversion H; subst. split; [exact H1|].
    intros c Hc. split; [apply H2; exact Hc | reflexivity].
  - pose proof (applyLoop_cons netBandwidthLimit_set netBandwidthLimit_reset
                  netDSCPTagLimit_set netDSCPTagLimit_reset set l limits seen job w) as Hc.
    cbn zeta in Hc. rewrite Hc in H. clear Hc.
    set (cl := resolveRequiredInfoClass l) in *.
    rewrite merge_all_cons.
    destruct (bool_decide (cl ∈ seen)) eqn:Hs.
    + apply bool_decide_eq_true in Hs.
      pose proof (applyLoop_ok _ _ _ _ _ _ _ _ _ _ _ _ H) as (_ & _ & _ & _ & Hseen).
      apply (IH _ _ _ _ (merged set l I)) in H.
      * destruct H as [Ha Hb]. split; [exact Ha|].
        intros c Hc. destruct (Hb c Hc) as [Hb1 Hb2]. split; [exact Hb1|].
        rewrite Hb2. apply merged_other_block.
        intros ->. apply Hc. rewrite Hseen. apply elem_of_union. right.
        apply elem_of_union. left. apply elem_of_singleton. reflexivity.
      * intros c Hc. destruct (decide (c = cl)) as [-> | Hne].
        -- apply merged_own_block. apply H1. exact Hs.
        -- rewrite !merged_other_block by exact Hne. apply H1.
           apply elem_of_union in Hc. destruct Hc as [Hc | Hc]; [|exact Hc].
           apply elem_of_singleton in Hc. contradiction.
      * intros c Hc. rewrite merged_other_block.
        -- apply H2. intros Hin. apply Hc. apply elem_of_union. right. exact Hin.
        -- intros ->. apply Hc. apply elem_of_union. left. apply elem_of_singleton. reflexivity.
    + apply bool_decide_eq_false in Hs.
      destruct (kernel_verdict (Handle job) w) as [x|]; [discriminate H|].
      pose proof (applyLoop_ok _ _ _ _ _ _ _ _ _ _ _ _ H) as (_ & _ & _ & _ & Hseen).
      apply (IH _ _ _ _ (merged set l I)) in H.
      * destruct H as [Ha Hb]. split; [exact Ha|].
        intros c Hc. destruct (Hb c Hc) as [Hb1 Hb2]. split; [exact Hb1|].
        assert (Hne : c <> cl).
        { intros ->. apply Hc. rewrite Hseen. apply elem_of_union. right.
          apply elem_of_union. left. apply elem_of_singleton. reflexivity. }
        rewrite Hb2, merged_other_block by exact Hne.
        cbn [Info with_Info]. apply infoPtr_store_other. congruence.
      * intros c Hc. destruct (decide (c = cl)) as [-> | Hne].
        -- apply merged_own_block. cbn [Info with_Info]. rewrite infoPtr_store_same.
           symmetry. apply H2. exact Hs.
        -- rewrite !merged_other_block by exact Hne.
           cbn [Info with_Info]. rewrite infoPtr_store_other by congruence.
           apply H1. apply elem_of_union in Hc. destruct Hc as [Hc | Hc]; [|exact Hc].
           apply elem_of_singleton in Hc. contradiction.
      * intros c Hc. rewrite merged_other_block.
        -- apply H2. intros Hin. apply Hc. apply elem_of_union. right. exact Hin.
        -- intros ->. apply Hc. apply elem_of_union. left. apply elem_of_singleton. reflexivity.
Qed.

(** A call of [applyLimit] that returns nil, in terms of the blocks. *)
Lemma applyLimit_blocks (set : bool) (limits : list Limit) (job job' : JobObject)
    (w w' : World) :
  applyLimit set limits job w = (job', None, w') ->
  let ideal := merge_all set limits (with_Info job (kernel w)) in
  (forall c, infoPtr (kernel w') c = infoPtr (Info ideal) c) /\
  (forall c, c ∈ targets limits -> infoPtr (Info job') c = infoPtr (kernel w') c) /\
  (forall c, c ∉ targets limits -> infoPtr (Info job') c = infoPtr (Info job) c) /\
  Handle job' = Handle job /\ Name job' = Name job /\ live w' = live w.
Proof.
  intros H. cbn zeta.
  rewrite (applyLimit_run netBandwidthLimit_set netBandwidthLimit_reset
             netDSCPTagLimit_set netDSCPTagLimit_reset rangeOrder) in H.
  destruct (applyLoop set limits ∅ job w) as [[[job1 seen] [x|]] w1] eqn:Hloop;
    [discriminate H|].
  pose proof (applyLoop_ok _ _ _ _ _ _ _ _ _ _ _ _ Hloop) as (Hh1 & Hk1 & Hl1 & _ & Hseen).
  pose proof (applyLoop_kernel _ _ _ _ _ _ _ _ _ Hloop) as (_ & _ & _ & Hn1 & _).
  apply (applyLoop_blocks _ _ _ _ _ _ (with_Info job (kernel w))) in Hloop.
  2:{ intros c Hc. exfalso. revert Hc. apply not_elem_of_empty. }
  2:{ intros c _. reflexivity. }
  destruct Hloop as [Ha Hb].
  apply sync_SetInfo_ok in H. destruct H as (-> & Hl2 & _ & Hk2).
  assert (Hin : forall c, c ∈ rangeOrder seen <-> c ∈ targets limits).
  { intros c. rewrite (rangeOrder_elem rangeOrder rangeOrder_perm), Hseen.
    rewrite elem_of_union, elem_of_list_to_set.
    split; [intros [Hc | Hc]; [exact Hc | exfalso; revert Hc; apply not_elem_of_empty]
           | intros Hc; left; exact Hc]. }
  assert (Hs : forall c, c ∈ seen <-> c ∈ targets limits).
  { intros c. rewrite <- Hin. symmetry. apply (rangeOrder_elem rangeOrder rangeOrder_perm). }
  split; [|split; [|split; [|repeat split; congruence]]].
  - intros c. rewrite Hk2.
    destruct (bool_decide (c ∈ rangeOrder seen)) eqn:Hc.
    + apply bool_decide_eq_true in Hc. apply Ha. apply Hs, Hin. exact Hc.
    + apply bool_decide_eq_false in Hc. rewrite Hk1. symmetry.
      apply Hb. intros Hn. apply Hc. apply Hin, Hs. exact Hn.
  - intros c Hc. rewrite Hk2, bool_decide_eq_true_2 by (apply Hin; exact Hc). reflexivity.
  - intros c Hc. apply Hb. intros Hn. apply Hc. apply Hs. exact Hn.
Qed.

(** What the merges make of the cache does not depend on the name and the
    handle of the job. *)
Lemma merged_Info (set : bool) (L : Limit) (j1 j2 : JobObject) :
  Info j1 = Info j2 -> Info (merged set L j1) = Info (merged set L j2).
Proof.
  intros H. apply JobInfo_ext. intros c.
  destruct (decide (c = resolveRequiredInfoClass L)) as [-> | Hne].
  - apply merged_own_block. rewrite H. reflexivity.
  - rewrite !merged_other_block by exact Hne. rewrite H. reflexivity.
Qed.

Lemma merge_all_Info (set : bool) (limits : list Limit) (j1 j2 : JobObject) :
  Info j1 = Info j2 -> Info (merge_all set limits j1) = Info (merge_all set limits j2).
Proof.
  revert j1 j2. induction limits as [|l limits IH]; intros j1 j2 H; [exact H|].
  rewrite !merge_all_cons. apply IH. apply merged_Info. exact H.
Qed.

Lemma merge_all_other_block (set : bool) (limits : list Limit) (job : JobObject)
    (c : jobapi.JobObjectInformationClass) :
  c ∉ targets limits -> infoPtr (Info (merge_all set limits job)) c = infoPtr (Info job) c.
Proof.
  revert job. induction limits as [|l limits IH]; intros job Hc; [reflexivity|].
  rewrite merge_all_cons. cbn in Hc. rewrite not_elem_of_cons in Hc. destruct Hc as [Hne Hc].
  rewrite (IH _ Hc). apply merged_other_block. exact Hne.
Qed.

(** X9: a call of [SetLimit] or [ResetLimit] that returns nil is a
    read-modify-write on the kernel: the blocks the kernel holds afterwards
    are the ones it held before with the limits merged into them in the
    order given, whatever the cache of the caller held.  The slots of the
    cache for the classes the limits target agree with the kernel
    afterwards; the other slots of the cache are as they were, and the name
    and the handle of the job and the table of open handles are unchanged. *)
Theorem applyLimit_read_modify_write (set : bool) (limits : list Limit) (job : JobObject)
    (w : World) :
  let '(job', e, w') := applyLimit set limits job w in
  e = None ->
  kernel w' = Info (merge_all set limits (with_Info job (kernel w))) /\
  (forall c, c ∈ targets limits -> infoPtr (Info job') c = infoPtr (kernel w') c) /\
  (forall c, c ∉ targets limits ->
     infoPtr (Info job') c = infoPtr (Info job) c /\
     infoPtr (kernel w') c = infoPtr (kernel w) c) /\
  Handle job' = Handle job /\ Name job' = Name job /\ live w' = live w.
Proof.
  destruct (applyLimit set limits job w) as [[job' e] w'] eqn:H. intros ->.
  apply applyLimit_blocks in H. cbn zeta in H.
  destruct H as (Hk & Ht & Hn & Hh & Hname & Hl).
  split; [apply JobInfo_ext; exact Hk|].
  split; [exact Ht|]. split; [|repeat split; assumption].
  intros c Hc. split; [apply Hn; exact Hc|].
  rewrite Hk. apply merge_all_other_block. exact Hc.
Qed.

(** X10: limits applied in one call or in two calls one after the other
    leave the same blocks in the kernel and the same cache, when the calls
    return nil; one call saves the second query and write-back of a block
    both lists target. *)
Theorem applyLimit_in_one_call_or_two (set : bool) (l1 l2 : list Limit) (job : JobObject)
    (w : World) :
  let '(job1, e1, w1) := applyLimit set l1 job w in
  let '(job2, e2, w2) := applyLimit set l2 job1 w1 in
  let '(job', e', w') := applyLimit set (l1 ++ l2) job w in
  e1 = None -> e2 = None -> e' = None ->
  kernel w2 = kernel w' /\ job2 = job'.
Proof.
  destruct (applyLimit set l1 job w) as [[job1 e1] w1] eqn:H1.
  destruct (applyLimit set l2 job1 w1) as [[job2 e2] w2] eqn:H2.
  destruct (applyLimit set (l1 ++ l2) job w) as [[job' e'] w'] eqn:H3.
  intros -> -> ->.
  apply applyLimit_blocks in H1, H2, H3. cbn zeta in H1, H2, H3.
  destruct H1 as (Hk1 & Ht1 & Hn1 & Hh1 & Hname1 & _).
  destruct H2 as (Hk2 & Ht2 & Hn2 & Hh2 & Hname2 & _).
  destruct H3 as (Hk3 & Ht3 & Hn3 & Hh3 & Hname3 & _).
  assert (Hk : kernel w2 = kernel w').
  { apply JobInfo_ext. intros c. rewrite Hk2, Hk3, merge_all_app.
    f_equal. apply merge_all_Info. cbn [Info with_Info].
    apply JobInfo_ext. exact Hk1. }
  split; [exact Hk|].
  assert (Hi : Info job2 = Info job').
  { apply JobInfo_ext. intros c.
    destruct (decide (c ∈ targets (l1 ++ l2))) as [Hin | Hnin].
    - rewrite (Ht3 c Hin), <- Hk.
      destruct (decide (c ∈ targets l2)) as [Hin2 | Hnin2]; [apply Ht2; exact Hin2|].
      rewrite (Hn2 c Hnin2).
      assert (Hin1 : c ∈ targets l1).
      { unfold targets in *. rewrite map_app, elem_of_app in Hin. tauto. }
      rewrite (Ht1 c Hin1), Hk2. symmetry.
      rewrite merge_all_other_block by exact Hnin2. reflexivity.
    - unfold targets in Hnin. rewrite map_app, elem_of_app in Hnin.
      rewrite (Hn3 c) by (unfold targets; rewrite map_app, elem_of_app; exact Hnin).
      rewrite (Hn2 c) by tauto. apply Hn1. tauto. }
  destruct job2, job'. cbn in *. congruence.
Qed.

(** X11: [applyLimit] is not atomic and never rolls the kernel back.
    However the call ends, the kernel's block of a class is the one of the
    returned cache when a write-back of that class went through, and the
    block it held before otherwise; the table of open handles is
    unchanged.  A call that stops at a failing query has written nothing:
    the kernel is as it was. *)
Theorem applyLimit_partial_effect (set : bool) (limits : list Limit) (job : JobObject)
    (w : World) :
  let '(job', e, w') := applyLimit set limits job w in
  let evs := since w w' in
  live w' = live w /\ Handle job' = Handle job /\
  (forall c, EvSetInformationJobObject (Handle job) c None ∈ evs ->
     infoPtr (kernel w') c = infoPtr (Info job') c) /\
  (forall c, EvSetInformationJobObject (Handle job) c None ∉ evs ->
     infoPtr (kernel w') c = infoPtr (kernel w) c) /\
  ((forall c, writes c evs = 0%nat) -> kernel w' = kernel w).
Proof.
  rewrite (applyLimit_run netBandwidthLimit_set netBandwidthLimit_reset
             netDSCPTagLimit_set netDSCPTagLimit_reset rangeOrder).
  destruct (applyLoop set limits ∅ job w) as [[[job1 seen] e1] w1] eqn:Hloop.
  apply applyLoop_kernel in Hloop.
  destruct Hloop as (Hk1 & Hl1 & Hh1 & _ & evs1 & Ht1 & Hw1).
  assert (Hno : forall c, EvSetInformationJobObject (Handle job) c None ∉ evs1).
  { intros c Hc. apply Hw1 in Hc. discriminate Hc. }
  assert (Hlast : forall (job' : JobObject) (w' : World),
             live w' = live w -> Handle job' = Handle job ->
             (forall c, EvSetInformationJobObject (Handle job) c None ∈ since w w' ->
                        infoPtr (kernel w') c = infoPtr (Info job') c) ->
             (forall c, EvSetInformationJobObject (Handle job) c None ∉ since w w' ->
                        infoPtr (kernel w') c = infoPtr (kernel w) c) ->
             live w' = live w /\ Handle job' = Handle job /\
             (forall c, EvSetInformationJobObject (Handle job) c None ∈ since w w' ->
                        infoPtr (kernel w') c = infoPtr (Info job') c) /\
             (forall c, EvSetInformationJobObject (Handle job) c None ∉ since w w' ->
                        infoPtr (kernel w') c = infoPtr (kernel w) c) /\
             ((forall c, writes c (since w w') = 0%nat) -> kernel w' = kernel w)).
  { intros job' w' Ha Hb Hc Hd. repeat split; try assumption.
    intros Hz. apply JobInfo_ext. intros c. apply Hd. intros Hin.
    specialize (Hz c). unfold writes in Hz.
    apply length_zero_iff_nil in Hz.
    assert (Hf : EvSetInformationJobObject (Handle job) c None
                 ∈ filter (fun e => write_of e = Some c) (since w w')).
    { apply list_elem_of_filter. split; [reflexivity | exact Hin]. }
    rewrite Hz in Hf. inversion Hf. }
  destruct e1 as [x|].
  - apply Hlast; try assumption.
    + intros c Hc. rewrite (since_app _ _ _ Ht1) in Hc. exfalso. exact (Hno c Hc).
    + intros c _. rewrite Hk1. reflexivity.
  - destruct (sync SetInfo (rangeOrder seen) job1 w1) as [[job' e] w'] eqn:Hs.
    pose proof (sync_SetInfo_log _ _ _ _ _ _ Hs) as (-> & Hl2 & evs2 & Ht2 & _ & _).
    apply sync_SetInfo_partial in Hs. destruct Hs as (done & _ & _ & Hin & Hk2).
    rewrite (since_app _ _ _ Ht2) in Hin. rewrite Hh1 in Hin.
    assert (Hev : forall c, EvSetInformationJobObject (Handle job) c None ∈ since w w'
                            <-> c ∈ done).
    { intros c. rewrite (since_app w w' (evs1 ++ evs2))
        by (rewrite Ht2, Ht1, <- app_assoc; reflexivity).
      rewrite elem_of_app, Hin. split; [intros [Hc | Hc]; [exfalso; exact (Hno c Hc)|exact Hc]
                                       | intros Hc; right; exact Hc]. }
    apply Hlast; try congruence.
    + intros c Hc. rewrite Hk2, bool_decide_eq_true_2 by (apply Hev; exact Hc). reflexivity.
    + intros c Hc. rewrite Hk2, bool_decide_eq_false_2 by (rewrite <- Hev; exact Hc).
      rewrite Hk1. reflexivity.
Qed.

Lemma merged_true (L : Limit) (job : JobObject) : merged true L job = Limit_set L job.
Proof. reflexivity. Qed.

Lemma merged_false (L : Limit) (job : JobObject) : merged false L job = Limit_reset L job.
Proof. reflexivity. Qed.

(** [IsSet] and [Value] of a limit read the slot of its class alone. *)
Lemma IsSet_own_block (L : Limit) (j1 j2 : JobObject) :
  is_net L = false ->
  infoPtr (Info j1) (resolveRequiredInfoClass L) = infoPtr (Info j2) (resolveRequiredInfoClass L) ->
  IsSet L j1 = IsSet L j2 /\ Limit_Value L j1 = Limit_Value L j2.
Proof.
  intros Hn H.
  destruct L; try discriminate Hn; cbn in H; injection H as H; step_limit;
    unfold basicLimit_IsSet, uiRestriction_IsSet, cpuLimit_IsSet, cpuLimit_LimitValue,
      LimitFlags_of, UIClass_of;
    open_value_limits; rewrite H; split; reflexivity.
Qed.

(** After a call of [applyLimit] with one limit that returns nil, the slot
    of the limit's class holds the limit merged into the kernel's block. *)
Lemma applyLimit_single_block (set : bool) (L : Limit) (job job1 : JobObject) (w w1 : World) :
  applyLimit set [L] job w = (job1, None, w1) ->
  infoPtr (Info job1) (resolveRequiredInfoClass L)
  = infoPtr (Info (merged set L (with_Info job (kernel w)))) (resolveRequiredInfoClass L) /\
  infoPtr (kernel w1) (resolveRequiredInfoClass L)
  = infoPtr (Info (merged set L (with_Info job (kernel w)))) (resolveRequiredInfoClass L).
Proof.
  intros H. apply applyLimit_blocks in H. cbn zeta in H.
  destruct H as (Hk & Ht & _).
  rewrite (Ht (resolveRequiredInfoClass L)) by (cbn; left).
  rewrite Hk. split; reflexivity.
Qed.

(** X23: a limit read back through the kernel, for every limit the
    package hands out, the network limits apart.  When [SetLimit] of the
    limit and a following [QueryLimits] return nil, [IsSet] is true on the
    cache, before and after the query, and the slot of the limit's class
    holds what [set] makes of the block the kernel held: [Value] returns
    the value that was set.  When [ResetLimit] of the limit and a following
    [QueryLimits] return nil, [IsSet] is false. *)
Theorem limit_reads_back (L : Limit) (job : JobObject) (w : World) :
  exported L = true ->
  is_net L = false ->
  let seed := with_Info job (kernel w) in
  (forall job1 w1 job2 w2,
     SetLimit [L] job w = (job1, None, w1) ->
     QueryLimits job1 w1 = (job2, None, w2) ->
     IsSet L job1 = true /\ IsSet L job2 = true /\
     infoPtr (Info job2) (resolveRequiredInfoClass L)
     = infoPtr (Info (Limit_set L seed)) (resolveRequiredInfoClass L) /\
     Limit_Value L job2 = Limit_Value L (Limit_set L seed)) /\
  (forall job1 w1 job2 w2,
     ResetLimit [L] job w = (job1, None, w1) ->
     QueryLimits job1 w1 = (job2, None, w2) ->
     IsSet L job1 = false /\ IsSet L job2 = false).
Proof.
  intros He Hn. cbn zeta.
  assert (Hcls : resolveRequiredInfoClass L ∈ limitClasses).
  { destruct L; apply list_elem_of_In; cbn; tauto. }
  assert (Hquery : forall (job1 job2 : JobObject) (w1 w2 : World),
             QueryLimits job1 w1 = (job2, None, w2) ->
             infoPtr (Info job2) (resolveRequiredInfoClass L)
             = infoPtr (kernel w1) (resolveRequiredInfoClass L)).
  { intros job1 job2 w1 w2 Hq. unfold QueryLimits in Hq. fold limitClasses in Hq.
    apply sync_QueryInfo_ok in Hq. destruct Hq as (_ & _ & _ & _ & _ & Hi).
    rewrite Hi, bool_decide_eq_true_2 by exact Hcls. reflexivity. }
  destruct (IsSet_follows_set_and_reset_lemma L (with_Info job (kernel w)) He Hn) as [Hs Hr].
  split.
  - intros job1 w1 job2 w2 H1 H2.
    apply applyLimit_single_block in H1. rewrite merged_true in H1. destruct H1 as [Hc Hk].
    pose proof (Hquery _ _ _ _ H2) as Hq. rewrite Hk in Hq.
    destruct (IsSet_own_block L _ _ Hn Hc) as [Hi1 _].
    destruct (IsSet_own_block L _ _ Hn Hq) as [Hi2 Hv2].
    repeat split; try assumption; congruence.
  - intros job1 w1 job2 w2 H1 H2.
    apply applyLimit_single_block in H1. rewrite merged_false in H1. destruct H1 as [Hc Hk].
    pose proof (Hquery _ _ _ _ H2) as Hq. rewrite Hk in Hq.
    destruct (IsSet_own_block L _ _ Hn Hc) as [Hi1 _].
    destruct (IsSet_own_block L _ _ Hn Hq) as [Hi2 _].
    split; congruence.
Qed.

Lemma lor_pos (a b : Z) : 0 <= a -> 0 < b -> 0 < Z.lor a b.
Proof.
  intros Ha Hb.
  assert (H0 : 0 <= Z.lor a b) by (apply Z.lor_nonneg; lia).
  assert (Hne : Z.lor a b <> 0).
  { intros H. apply Z.lor_eq_0_iff in H. lia. }
  lia.
Qed.

(** X22: [HasLimits] sees a limit that [SetLimit] has set.  For every
    limit the package hands out, the network limits apart, and a kernel
    whose flag fields are numbers of an unsigned type: when [SetLimit] of
    the limit and a following [HasLimits] return nil, the answer is
    true. *)
Theorem HasLimits_after_SetLimit (L : Limit) (job : JobObject) (w : World) :
  exported L = true ->
  is_net L = false ->
  0 <= jobapi.LimitFlags (jobapi.BasicLimitInformation (ExtendedLimits (kernel w))) ->
  0 <= jobapi.UIRestrictionsClass (UIRestrictions (kernel w)) ->
  forall job1 w1 job2 limited w2,
    SetLimit [L] job w = (job1, None, w1) ->
    HasLimits job1 w1 = (job2, limited, None, w2) ->
    limited = true.
Proof.
  intros He Hn Hf Hu job1 w1 job2 limited w2 H1 H2.
  apply applyLimit_single_block in H1. rewrite merged_true in H1. destruct H1 as [_ Hk].
  apply HasLimits_ok in H2. destruct H2 as (_ & Hiff & _).
  apply Hiff. exists (resolveRequiredInfoClass L).
  rewrite (nonempty_slot _ _ _ Hk).
  pose proof (exported_flag_pos L He) as Hpos.
  destruct L; try discriminate Hn; open_Limit_set; open_value_limits;
    unfold basicLimit_set, uiRestriction_set, LimitFlags_of, UIClass_of;
    try (cbn; apply lor_pos; assumption).
  cpu_cases; cbn; reflexivity.
Qed.

(** X15: the edges of [Create].  A name that holds a NUL is refused with
    EINVAL before the kernel is called, whatever the limits.  Without
    limits the one kernel call is the creation: no query and no write-back
    follow, the kernel's blocks are untouched, and the job returned has the
    new handle, open, and an empty cache whatever the kernel holds; when
    the creation fails no job is returned and no handle is opened. *)
Theorem Create_edge_cases (name : string) (limits : list Limit) (w : World) :
  (Go.hasNUL name = true -> Create name limits w = (None, Some Go.EINVAL, w)) /\
  (Go.hasNUL name = false ->
   let '(result, e, w') := Create name [] w in
   kernel w' = kernel w /\
   match faults w with
   | Some x :: _ =>
       result = None /\ e = Some (Go.SyscallError "CreateJobObject" x) /\
       live w' = live w /\ since w w' = [EvCreateJobObject name (Some x)]
   | _ =>
       result = Some {| Name := name; Handle := Z.pos (next w); Info := zero_JobInfo |} /\
       e = None /\
       live w' = Z.pos (next w) :: live w /\ since w w' = [EvCreateJobObject name None]
   end).
Proof.
  split; intros Hn; open_Create; unfold bind; rewrite CreateJobObject_run, Hn.
  - reflexivity.
  - destruct (faults w) as [|[x|] rest] eqn:Hf; cbn;
      (split; [reflexivity|]); repeat split; try reflexivity;
      apply since_app; reflexivity.
Qed.

End LimitFacts2.

(** ** The CPU rate, in general *)

(** A 32-bit number written out and read as two halves, and the halves
    written one after the other and read as one number. *)
Lemma unpack_pack (v : Z) :
  0 <= v < 2 ^ 32 ->
  Go.Uint16 (take 2 (Go.Write_uint32 [] v)) = Some (v mod 65536) /\
  Go.Uint16 (drop 2 (Go.Write_uint32 [] v)) = Some (v / 65536) /\
  Go.Uint32 (Go.Write_uint16 (Go.Write_uint16 [] (v mod 65536)) (v / 65536)) = Some v.
Proof.
  intros Hv. change (2 ^ 32) with 4294967296 in Hv.
  unfold Go.Write_uint16, Go.Write_uint32. bytes_to_arith.
  rewrite !Uint16_bytes by (apply Z.mod_pos_bound; lia).
  rewrite Uint32_bytes by (apply Z.mod_pos_bound; lia).
  repeat split; f_equal; Z.div_mod_to_equations; lia.
Qed.

Lemma pack_value (mn mx : Z) :
  0 <= mn < 65536 -> 0 <= mx < 65536 ->
  Go.Uint32 (Go.Write_uint16 (Go.Write_uint16 [] mn) mx) = Some (mn + mx * 65536).
Proof.
  intros Hmn Hmx. unfold Go.Write_uint16. bytes_to_arith.
  rewrite Uint32_bytes by (apply Z.mod_pos_bound; lia).
  f_equal. Z.div_mod_to_equations. lia.
Qed.

(** X7: [cpuLimit.set] of an arbitrary [CPURate] (as [LimitCPU.WithValue]
    makes one): the first of hard cap, weight and max that is positive
    decides the sub-mode, and [LimitValue] reads back that sub-mode alone,
    a minimum given with a hard cap or a weight being dropped.  In the
    min/max sub-mode the value slot holds [min + 65536 * max].  When none
    of the three is positive the value slot is left as it was, the control
    flags become enable and notify alone, and the limit counts as set with
    an empty rate. *)
Theorem cpu_rate_precedence (r : CPURate) (job : JobObject) :
  0 <= Min r < 65536 -> 0 <= Max r < 65536 ->
  let job' := cpuLimit_set r job in
  cpuLimit_LimitValue LimitCPU job' = effective_rate r /\
  cpuLimit_IsSet LimitCPU job' = true /\
  (HardCap r <= 0 -> Weight r <= 0 -> 0 < Max r ->
   jobapi.Value (CPURateControl (Info job')) = Min r + 65536 * Max r) /\
  (HardCap r <= 0 -> Weight r <= 0 -> Max r <= 0 ->
   CPURateControl (Info job')
   = {| jobapi.ControlFlags := 9;
        jobapi.Value := jobapi.Value (CPURateControl (Info job)) |}).
Proof.
  intros Hmn Hmx. cbn zeta.
  unfold cpuLimit_set, cpuLimit_LimitValue, cpuLimit_IsSet, effective_rate.
  destruct (0 <? HardCap r) eqn:Hh; [|destruct (0 <? Weight r) eqn:Hw;
                                       [|destruct (0 <? Max r) eqn:Hm]].
  - apply Z.ltb_lt in Hh. repeat split; try reflexivity; intros; lia.
  - apply Z.ltb_lt in Hw. repeat split; try reflexivity; intros; lia.
  - apply Z.ltb_lt in Hm. rewrite (pack_value _ _ Hmn Hmx).
    cbn [Info with_Info store CPURateControl jobapi.ControlFlags jobapi.Value default
         from_option id].
    change (0 <? Z.land _ jobapi.JOB_OBJECT_CPU_RATE_CONTROL_HARD_CAP) with false.
    change (0 <? Z.land _ jobapi.JOB_OBJECT_CPU_RATE_CONTROL_WEIGHT_BASED) with false.
    change (0 <? Z.land _ jobapi.JOB_OBJECT_CPU_RATE_CONTROL_MIN_MAX_RATE) with true.
    cbn iota.
    assert (Hv : 0 <= Min r + Max r * 65536 < 2 ^ 32).
    { change (2 ^ 32) with 4294967296. lia. }
    destruct (unpack_pack _ Hv) as (Hlo & Hhi & _).
    rewrite Hlo, Hhi. cbn [default from_option id].
    repeat split; try reflexivity; try (intros; lia).
    f_equal; Z.div_mod_to_equations; lia.
  - apply Z.ltb_ge in Hh, Hw, Hm. repeat split; try reflexivity; intros; lia.
Qed.

(** X8: reading a CPU-rate block whose value slot holds a 32-bit number:
    in the min/max sub-mode (flags min/max, enable, notify) [LimitValue]
    gives the low 16 bits as [Min] and the high 16 bits as [Max]; and a
    block as [cpuLimit.set] writes them (hard cap or weight with a positive
    value, min/max with a positive high half) is reproduced when the rate
    read from it is set again. *)
Theorem cpu_rate_read_then_set (job : JobObject) :
  let cpu := CPURateControl (Info job) in
  0 <= jobapi.Value cpu < 2 ^ 32 ->
  (jobapi.ControlFlags cpu = 25 ->
   cpuLimit_LimitValue LimitCPU job
   = {| Min := jobapi.Value cpu mod 65536; Max := jobapi.Value cpu / 65536;
        Weight := 0; HardCap := 0 |}) /\
  ((jobapi.ControlFlags cpu = 13 /\ 0 < jobapi.Value cpu) \/
   (jobapi.ControlFlags cpu = 11 /\ 0 < jobapi.Value cpu) \/
   (jobapi.ControlFlags cpu = 25 /\ 65536 <= jobapi.Value cpu) ->
   cpuLimit_set (cpuLimit_LimitValue LimitCPU job) job = job).
Proof.
  cbn zeta. intros Hv.
  destruct job as [name h [ext ui acc [flags v] net]].
  cbn [Info CPURateControl jobapi.ControlFlags jobapi.Value] in *.
  destruct (unpack_pack v Hv) as (Hlo & Hhi & Hpack).
  split.
  - intros ->. unfold cpuLimit_LimitValue.
    cbn [Info CPURateControl jobapi.ControlFlags jobapi.Value].
    change (0 <? Z.land 25 jobapi.JOB_OBJECT_CPU_RATE_CONTROL_HARD_CAP) with false.
    change (0 <? Z.land 25 jobapi.JOB_OBJECT_CPU_RATE_CONTROL_WEIGHT_BASED) with false.
    change (0 <? Z.land 25 jobapi.JOB_OBJECT_CPU_RATE_CONTROL_MIN_MAX_RATE) with true.
    cbn iota. rewrite Hlo, Hhi. reflexivity.
  - intros [[-> Hp] | [[-> Hp] | [-> Hp]]]; unfold cpuLimit_LimitValue, cpuLimit_set;
      cbn [Info CPURateControl jobapi.ControlFlags jobapi.Value].
    + change (0 <? Z.land 13 jobapi.JOB_OBJECT_CPU_RATE_CONTROL_HARD_CAP) with true.
      cbn iota. cbn [HardCap]. apply Z.ltb_lt in Hp. rewrite Hp. reflexivity.
    + change (0 <? Z.land 11 jobapi.JOB_OBJECT_CPU_RATE_CONTROL_HARD_CAP) with false.
      change (0 <? Z.land 11 jobapi.JOB_OBJECT_CPU_RATE_CONTROL_WEIGHT_BASED) with true.
      cbn iota. cbn [HardCap Weight]. apply Z.ltb_lt in Hp. rewrite Hp. reflexivity.
    + change (0 <? Z.land 25 jobapi.JOB_OBJECT_CPU_RATE_CONTROL_HARD_CAP) with false.
      change (0 <? Z.land 25 jobapi.JOB_OBJECT_CPU_RATE_CONTROL_WEIGHT_BASED) with false.
      change (0 <? Z.land 25 jobapi.JOB_OBJECT_CPU_RATE_CONTROL_MIN_MAX_RATE) with true.
      cbn iota. rewrite Hlo, Hhi. cbn [default from_option id HardCap Weight Max Min].
      assert (Hm : (0 <? v / 65536) = true).
      { apply Z.ltb_lt. apply Z.div_str_pos. lia. }
      rewrite Hm, Hpack. reflexivity.
Qed.

(** ** The subscription, over whole runs *)

Lemma resolveNotificationType_inv (m : Z) (name : string) :
  resolveNotificationType m = Some name ->
  (1 <= m <= 13 /\ m <> 5) /\
  forall m', resolveNotificationType m' = Some name -> m' = m.
Proof.
  unfold resolveNotificationType.
  repeat match goal with
         | |- context [decide (m = ?k)] => destruct (decide (m = k)) as [-> | ?]
         end;
    intros H; try discriminate H; injection H as <-;
    (split; [lia|]); intros m';
    repeat match goal with
           | |- context [decide (m' = ?k)] => destruct (decide (m' = k)) as [-> | ?]
           end;
    intros H'; first [reflexivity | discriminate H'].
Qed.

Lemma resolveNotificationType_known (m : Z) :
  1 <= m <= 13 -> m <> 5 -> exists name, resolveNotificationType m = Some name.
Proof.
  intros H1 H2. unfold resolveNotificationType.
  repeat match goal with
         | |- context [decide (m = ?k)] => destruct (decide (m = k)) as [-> | ?]
         end; try (eexists; reflexivity).
  lia.
Qed.

(** X16: [NextMessage] names the notification by the code of the packet.
    A code from 1 to 13 other than 5 has a name in the table, two different
    codes never share one, and every other code is kept as a number; the
    process id of the packet is passed on.  One dequeue is issued.  When
    the dequeue fails the notification is empty and the error is the
    kernel's, wrapped in the name of the call. *)
Theorem NextMessage_names (p mType pid : Z) (w : World) :
  let '(m, e, w') := NextMessage p (inl (mType, pid)) w in
  e = None /\ PID m = pid /\
  since w w' = [EvGetQueuedCompletionStatus p None] /\
  ((1 <= mType <= 13 /\ mType <> 5) <-> exists name, Type_ m = Named name) /\
  (~ (1 <= mType <= 13 /\ mType <> 5) -> Type_ m = Unknown mType) /\
  (forall mType2 pid2 w2,
     mType2 <> mType ->
     Type_ (fst (fst (NextMessage p (inl (mType2, pid2)) w2))) <> Type_ m) /\
  (forall e0,
     NextMessage p (inr e0) w
     = ({| Type_ := Named ""; PID := 0 |},
        Some (Go.SyscallError "GetQueuedCompletionStatus" e0),
        logged w [EvGetQueuedCompletionStatus p (Some e0)])).
Proof.
  unfold NextMessage, jobapi_calls.GetQueuedCompletionStatus. io.
  cbn [fst snd Type_ PID Go.NewSyscallError].
  split; [reflexivity|]. split; [reflexivity|].
  split; [apply since_app; reflexivity|].
  split; [|split; [|split]].
  - split.
    + intros [H1 H2]. destruct (resolveNotificationType_known mType H1 H2) as [name ->].
      exists name. reflexivity.
    + intros [name H]. destruct (resolveNotificationType mType) as [n|] eqn:Hr;
        [|discriminate H].
      apply (resolveNotificationType_inv _ _ Hr).
  - intros Hn. destruct (resolveNotificationType mType) as [n|] eqn:Hr; [|reflexivity].
    exfalso. apply Hn. apply (resolveNotificationType_inv _ _ Hr).
  - intros mType2 pid2 w2 Hne.
    destruct (resolveNotificationType mType2) as [n2|] eqn:Hr2;
      destruct (resolveNotificationType mType) as [n|] eqn:Hr;
      intros Heq; try discriminate Heq; injection Heq as Heq; subst.
    + apply Hne. apply (resolveNotificationType_inv _ _ Hr). exact Hr2.
    + apply Hne. reflexivity.
  - intros e0. reflexivity.
Qed.






Lemma locking_app (held : bool) (evs1 evs2 : list Event) :
  locking held (evs1 ++ evs2)
  = match locking held evs1 with
    | Some held' => locking held' evs2
    | None => None
    end.
Proof.
  revert held. induction evs1 as [|e evs1 IH]; intros held; [reflexivity|].
  destruct e; cbn [app locking]; destruct held; try reflexivity; apply IH.
Qed.







(** ** The subscription, statement by statement *)

Lemma filter_insert_length {A} (P : A -> bool) (l : list A) (i : nat) (x y : A) :
  l !! i = Some x ->
  (length (filter (fun a => P a = true) (<[i := y]> l)) + (if P x then 1 else 0)
   = length (filter (fun a => P a = true) l) + (if P y then 1 else 0))%nat.
Proof.
  revert i. induction l as [|a l IH]; intros i Hi; [discriminate Hi|].
  destruct i as [|i]; cbn in Hi.
  - injection Hi as ->. cbn [insert list_insert]. rewrite !filter_cons.
    destruct (decide (P y = true)) as [Hy|Hy], (decide (P x = true)) as [Hx|Hx];
      try rewrite Hx; try rewrite Hy;
      try (apply not_true_is_false in Hx; rewrite Hx);
      try (apply not_true_is_false in Hy; rewrite Hy); cbn; lia.
  - cbn [insert list_insert]. rewrite !filter_cons. specialize (IH i Hi).
    change (list_insert i y l) with (<[i := y]> l).
    destruct (decide (P a = true)); cbn; [f_equal|]; exact IH.
Qed.

Lemma filter_length_pos {A} (P : A -> bool) (l : list A) (x : A) :
  x ∈ l -> P x = true -> (1 <= length (filter (fun a => P a = true) l))%nat.
Proof.
  intros Hin HP. assert (Hf : x ∈ filter (fun a => P a = true) l).
  { apply list_elem_of_filter. split; assumption. }
  destruct (filter _ l); [inversion Hf | cbn; lia].
Qed.

Lemma elem_of_insert_other {A} (l : list A) (i : nat) (x y z : A) :
  x ∈ l -> l !! i = Some y -> y <> x -> x ∈ <[i := z]> l.
Proof.
  intros Hin Hi Hne. apply list_elem_of_lookup in Hin. destruct Hin as [j Hj].
  apply list_elem_of_lookup. exists j.
  rewrite list_lookup_insert_ne; [exact Hj|]. intros ->. congruence.
Qed.

Lemma elem_of_insert_inv {A} (l : list A) (i : nat) (x z : A) :
  x ∈ <[i := z]> l -> x = z \/ x ∈ l.
Proof.
  intros Hin. apply list_elem_of_lookup in Hin. destruct Hin as [j Hj].
  destruct (decide (i = j)) as [->|Hne].
  - destruct (decide (j < length l)%nat) as [Hlt|Hge].
    + rewrite list_lookup_insert_eq in Hj by exact Hlt. left. congruence.
    + rewrite list_insert_ge in Hj by lia. right. apply list_elem_of_lookup. eauto.
  - rewrite list_lookup_insert_ne in Hj by exact Hne. right. apply list_elem_of_lookup. eauto.
Qed.

Lemma disciplined_app (h : bool) (evs1 evs2 : list Event) :
  disciplined h (evs1 ++ evs2)
  = match disciplined h evs1 with
    | Some h' => disciplined h' evs2
    | None => None
    end.
Proof.
  revert h. induction evs1 as [|e evs1 IH]; intros h; [reflexivity|].
  destruct e; cbn [app disciplined]; destruct h; try reflexivity; apply IH.
Qed.

Lemma snoc_split {A} (l pre post : list A) (x y : A) :
  l ++ [y] = pre ++ x :: post ->
  (pre = l /\ x = y /\ post = []) \/ exists post', post = post' ++ [y] /\ l = pre ++ x :: post'.
Proof.
  intros H. destruct post as [|z post' _] using rev_ind.
  - left. apply app_inj_tail in H. destruct H as [-> ->]. auto.
  - right. rewrite app_comm_cons, app_assoc in H. apply app_inj_tail in H.
    destruct H as [-> ->]. exists post'. auto.
Qed.

Lemma Lock_run (s : Subscription) (w : World) :
  Lock s w = ({| Port := Port s; mu := true; err := err s; closed := closed s |},
              logged w [EvLock]).
Proof. reflexivity. Qed.

Lemma Unlock_run (s : Subscription) (w : World) :
  Unlock s w = ({| Port := Port s; mu := false; err := err s; closed := closed s |},
                logged w [EvUnlock]).
Proof. reflexivity. Qed.

Lemma NextMessage_run (p : Z) (outcome : Z * Z + Go.error) (w : World) :
  exists m e r, NextMessage p outcome w = (m, e, logged w [EvGetQueuedCompletionStatus p r]).
Proof.
  destruct outcome as [[mType pid] | e0]; unfold NextMessage, jobapi_calls.GetQueuedCompletionStatus;
    io; cbn; eauto.
Qed.

Lemma holders_mu (p : Z) (g : Goroutines) (log : list Event) :
  Safe p g log -> (1 <= holders g)%nat -> mu (shared g) = true.
Proof.
  intros HS H. pose proof (safe_holders _ _ _ HS) as Hh.
  destruct (mu (shared g)); [reflexivity | lia].
Qed.

(** How one statement keeps [Safe]: what is to be checked of the states
    before and after it and of the event it logs, if any. *)
Lemma Safe_step (p : Z) (g g' : Goroutines) (log evs : list Event) :
  Safe p g log ->
  evs = [] \/ (exists ev, evs = [ev]) ->
  Port (shared g') = p ->
  holders g' = (if mu (shared g') then 1%nat else 0%nat) ->
  disciplined (mu (shared g)) evs = Some (mu (shared g')) ->
  (EvCloseHandle p None ∈ evs \/ closed (shared g) = true \/ CloseFlag ∈ Close_at g ->
   closed (shared g') = true \/ CloseFlag ∈ Close_at g') ->
  (CloseFlag ∈ Close_at g' -> CloseFlag ∈ Close_at g \/ EvCloseHandle p None ∈ evs) ->
  (closed (shared g') = true -> closed (shared g) = true \/ CloseFlag ∈ Close_at g) ->
  (forall e, loop_at g' = LoopSetErr e -> Go.errors_Is e jobapi.ErrAbandoned = true ->
     (EvCloseHandle p None ∉ evs) /\ (loop_at g = LoopSetErr e \/ EvCloseHandle p None ∉ log)) ->
  (forall e, EvSetErr e ∈ evs -> loop_at g = LoopSetErr e) ->
  (forall x, err (shared g') = Some x -> err (shared g) = Some x \/ EvSetErr (Some x) ∈ evs) ->
  Safe p g' (log ++ evs).
Proof.
  intros [Hp Hh Hl Hrel Hat Hfl Hle Hrec Herr] Hevs Hp' Hh' Hd Hrel' Hat' Hfl' Hle' Hrec' Herr'.
  constructor.
  - exact Hp'.
  - exact Hh'.
  - rewrite disciplined_app, Hl. exact Hd.
  - intros Hin. apply Hrel'. apply elem_of_app in Hin. destruct Hin as [Hin | Hin]; auto.
  - intros Hin. apply elem_of_app. destruct (Hat' Hin) as [H | H]; auto.
  - intros Hc. apply elem_of_app. left. destruct (Hfl' Hc) as [H | H]; auto.
  - intros e Hpc His Hin. destruct (Hle' e Hpc His) as [Hn [Hold | Hold]].
    + apply elem_of_app in Hin. destruct Hin as [Hin | Hin]; [|contradiction].
      exact (Hle e Hold His Hin).
    + apply elem_of_app in Hin. destruct Hin as [Hin | Hin]; contradiction.
  - intros pre post e Heq [His Hin]. destruct Hevs as [-> | [ev ->]].
    + rewrite app_nil_r in Heq. exact (Hrec _ _ _ Heq (conj His Hin)).
    + apply snoc_split in Heq. destruct Heq as [(-> & <- & ->) | (post' & -> & ->)].
      * assert (Hpc : loop_at g = LoopSetErr e) by (apply Hrec'; left).
        exact (Hle e Hpc His Hin).
      * exact (Hrec _ _ _ eq_refl (conj His Hin)).
  - intros x Hx. apply elem_of_app. destruct (Herr' x Hx) as [H | H]; auto.
Qed.

Ltac one_event := right; eexists; reflexivity.

Ltac safe_cbn :=
  cbn [shared loop_at Close_at Err_at mu closed err Port disciplined
       holding_Loop holding_Close holding_Err] in *.

(** The side conditions of [Safe_step] that hold by looking at the event
    and at the positions. *)
Ltac safe_side :=
  safe_cbn;
  try match goal with
      | |- _ \/ _ \/ _ -> _ =>
          let H := fresh in
          intros [H | H]; [in_list H; try discriminate | try exact H]
      end;
  try match goal with
      | |- _ -> _ \/ _ => let H := fresh in intros H; try (left; exact H); try (right; exact H)
      end;
  try match goal with
      | |- forall e, _ = LoopSetErr e -> _ => let H := fresh in intros ? H; try discriminate H
      end;
  try match goal with
      | |- forall e, EvSetErr e ∈ _ -> _ =>
          let H := fresh in intros ? H; in_list H; try discriminate; try reflexivity;
          try congruence
      end;
  try match goal with
      | |- forall x, _ = Some x -> _ => let H := fresh in intros ? H; try (left; exact H)
      end;
  try assumption; try reflexivity; try tauto.

(** The same for a statement of [Close] or [Err], which leaves the loop
    where it is. *)
Ltac safe_other Hkeep Hinv :=
  safe_side;
  try match goal with
      | H : _ \/ CloseFlag ∈ _ |- _ \/ CloseFlag ∈ _ =>
          destruct H as [H | H]; [left; exact H | right; apply Hkeep; [discriminate | exact H]]
      end;
  try match goal with
      | H : CloseFlag ∈ <[_ := _]> _ |- _ =>
          let Hd := fresh in
          destruct (Hinv _ H) as [Hd | Hd]; [try discriminate Hd | try (left; exact Hd)]
      end;
  try match goal with
      | H : _ = LoopSetErr _ |- _ -> _ /\ _ =>
          intros _; split;
          [let Hx := fresh in intros Hx; in_list Hx; discriminate | left; exact H]
      end.

Ltac loop_stays :=
  try match goal with
      | H : _ = LoopSetErr _ |- _ -> _ /\ _ =>
          intros _; split;
          [let Hx := fresh in intros Hx; in_list Hx; discriminate | left; exact H]
      end.

Lemma turn_safe (p : Z) (t : Turn) (g : Goroutines) (w : World) (log : list Event) :
  Safe p g log ->
  exists evs, trace (snd (turn t g w)) = trace w ++ evs /\ Safe p (fst (turn t g w)) (log ++ evs).
Proof.
  intros HS. pose proof HS as [Hp Hh Hl Hrel Hat Hfl Hle Hrec Herr].
  destruct g as [s lp cs es]. cbn [shared loop_at Close_at Err_at] in *.
  destruct t as [outcome | i | i]; unfold turn, bind; cbn [shared loop_at Close_at Err_at].
  - destruct lp; cbn [Loop_step].
    + (* the dequeue *)
      destruct (NextMessage_run (Port s) outcome w) as (m & e & r & Hn).
      unfold bind. rewrite Hn. unfold ret. cbn [fst snd trace logged].
      eexists. split; [reflexivity|].
      eapply Safe_step; [exact HS | one_event | ..]; safe_side.
      all: try (destruct e; exact Hh).
      all: try (destruct e; discriminate).
    + (* the send *)
      unfold bind, emit, ret. cbn [fst snd trace].
      eexists. split; [reflexivity|].
      eapply Safe_step; [exact HS | one_event | ..]; safe_side.
    + (* Lock in handlePortErr *)
      destruct (mu s) eqn:Hmu.
      * unfold ret. cbn [fst snd]. exists []. rewrite !app_nil_r. split; [reflexivity | exact HS].
      * unfold bind. rewrite Lock_run. unfold ret. cbn [fst snd trace logged].
        eexists. split; [reflexivity|].
        eapply Safe_step; [exact HS | one_event | ..]; safe_side.
        all: try (rewrite Hmu; reflexivity).
        unfold holders in *. safe_cbn. try rewrite Hmu in Hh. lia.
    + (* the test *)
      unfold ret. cbn [fst snd]. exists []. split; [rewrite app_nil_r; reflexivity|].
      assert (Hmu : mu s = true) by (apply (holders_mu _ _ _ HS); unfold holders; cbn; lia).
      eapply Safe_step; [exact HS | left; reflexivity | ..]; safe_side.
      all: try (rewrite Hmu; reflexivity).
      * unfold holders in *. safe_cbn.
        destruct (Go.errors_Is e jobapi.ErrAbandoned && closed s); exact Hh.
      * intros He. split; [intros Hin; inversion Hin|]. right. intros Hin.
        destruct (Go.errors_Is e jobapi.ErrAbandoned && closed s) eqn:Htest; [discriminate|].
        injection H as <-. rewrite He in Htest. cbn in Htest.
        destruct (Hrel Hin) as [Hc | Hc]; [congruence|].
        pose proof (filter_length_pos holding_Close cs CloseFlag Hc eq_refl) as Hpos.
        unfold holders in Hh. safe_cbn. try rewrite Hmu in Hh. lia.
    + (* s.err = err *)
      unfold bind, emit, ret. cbn [fst snd trace].
      assert (Hmu : mu s = true) by (apply (holders_mu _ _ _ HS); unfold holders; cbn; lia).
      eexists. split; [reflexivity|].
      eapply Safe_step; [exact HS | one_event | ..]; safe_side.
      all: try (rewrite Hmu; reflexivity).
      right. apply list_elem_of_In. left. congruence.
    + (* Unlock in handlePortErr *)
      unfold bind. rewrite Unlock_run. unfold ret. cbn [fst snd trace logged].
      assert (Hmu : mu s = true) by (apply (holders_mu _ _ _ HS); unfold holders; cbn; lia).
      eexists. split; [reflexivity|].
      eapply Safe_step; [exact HS | one_event | ..]; safe_side.
      all: try (rewrite Hmu; reflexivity).
      unfold holders in *. safe_cbn. try rewrite Hmu in Hh. lia.
    + (* close(c) *)
      unfold bind, emit, ret. cbn [fst snd trace].
      eexists. split; [reflexivity|].
      eapply Safe_step; [exact HS | one_event | ..]; safe_side.
    + (* returned *)
      unfold ret. cbn [fst snd]. exists []. rewrite !app_nil_r. split; [reflexivity | exact HS].
  - destruct (cs !! i) as [pc|] eqn:Hi.
    2:{ unfold ret. cbn [fst snd]. exists []. rewrite !app_nil_r. split; [reflexivity | exact HS]. }
    assert (Hin : pc ∈ cs) by (apply list_elem_of_lookup; eauto).
    assert (Hpos : holding_Close pc = true -> mu s = true /\ holding_Loop lp = false).
    { intros Hpc. pose proof (filter_length_pos holding_Close cs pc Hin Hpc) as Hge.
      assert (Hmu : mu s = true)
        by (apply (holders_mu _ _ _ HS); unfold holders; safe_cbn; lia).
      split; [exact Hmu|]. unfold holders in Hh. safe_cbn. rewrite Hmu in Hh.
      destruct (holding_Loop lp); [lia | reflexivity]. }
    pose proof (fun pc' => filter_insert_length holding_Close cs i pc pc' Hi) as Hcount.
    assert (Hkeep : forall pc', pc <> CloseFlag -> CloseFlag ∈ cs -> CloseFlag ∈ <[i := pc']> cs).
    { intros pc' Hne Hc. exact (elem_of_insert_other _ _ _ _ _ Hc Hi Hne). }
    assert (Hnew : forall pc', pc' ∈ <[i := pc']> cs).
    { intros pc'. apply list_elem_of_lookup. exists i. apply list_lookup_insert_eq.
      apply lookup_lt_is_Some. eauto. }
    assert (Hinv : forall pc', CloseFlag ∈ <[i := pc']> cs -> CloseFlag = pc' \/ CloseFlag ∈ cs).
    { intros pc'. apply elem_of_insert_inv. }
    destruct pc; cbn [Close_step].
    + (* Lock *)
      destruct (mu s) eqn:Hmu.
      * unfold ret. cbn [fst snd]. exists []. rewrite !app_nil_r. split; [reflexivity | exact HS].
      * unfold bind. rewrite Lock_run. unfold ret. cbn [fst snd trace logged].
        eexists. split; [reflexivity|].
        eapply Safe_step; [exact HS | one_event | ..]; safe_other Hkeep Hinv.
        all: try (rewrite Hmu; reflexivity).
        all: try (unfold holders in *; safe_cbn; specialize (Hcount CloseTest); safe_cbn; lia).
    + (* the test *)
      destruct (Hpos eq_refl) as [Hmu Hlp].
      unfold ret. cbn [fst snd]. exists []. split; [rewrite app_nil_r; reflexivity|].
      eapply Safe_step; [exact HS | left; reflexivity | ..]; safe_other Hkeep Hinv.
      all: try (rewrite Hmu; reflexivity).
      all: try (unfold holders in *; safe_cbn;
                pose proof (Hcount (CloseUnlock None)); pose proof (Hcount ClosePort);
                destruct (closed s); safe_cbn; lia).
      all: try (destruct (closed s); discriminate).
    + (* s.Port.Close() *)
      destruct (Hpos eq_refl) as [Hmu Hlp].
      unfold bind, Port_Close. rewrite kernel_close_run. unfold ret. cbn [fst snd trace].
      rewrite Hp.
      eexists. split; [reflexivity|].
      eapply Safe_step; [exact HS | one_event | ..]; safe_other Hkeep Hinv.
      all: try (rewrite Hmu; reflexivity).
      all: try (unfold holders in *; safe_cbn;
                pose proof (Hcount (CloseUnlock (kernel_verdict p w)));
                pose proof (Hcount CloseFlag);
                destruct (kernel_verdict p w); safe_cbn; lia).
      all: try discriminate Hlp.
      all: try match goal with
               | H : _ = LoopSetErr _ |- _ => rewrite H in Hlp; discriminate Hlp
               end.
      all: try match goal with
               | H : EvCloseHandle _ _ = EvCloseHandle _ None |- _ =>
                   injection H as H; rewrite H; right; apply Hnew
               end.
      all: try match goal with
               | H : CloseFlag = match ?v with _ => _ end |- _ =>
                   destruct v; [discriminate H | right; left]
               end.
    + (* s.closed = true *)
      destruct (Hpos eq_refl) as [Hmu Hlp].
      unfold bind, emit, ret. cbn [fst snd trace].
      eexists. split; [reflexivity|].
      eapply Safe_step; [exact HS | one_event | ..]; safe_other Hkeep Hinv.
      all: try (rewrite Hmu; reflexivity).
      all: try (unfold holders in *; safe_cbn;
                pose proof (Hcount (CloseUnlock None)); safe_cbn; lia).
    + (* the deferred Unlock *)
      destruct (Hpos eq_refl) as [Hmu Hlp].
      unfold bind. rewrite Unlock_run. unfold ret. cbn [fst snd trace logged].
      eexists. split; [reflexivity|].
      eapply Safe_step; [exact HS | one_event | ..]; safe_other Hkeep Hinv.
      all: try (rewrite Hmu; reflexivity).
      all: try (unfold holders in *; safe_cbn;
                pose proof (Hcount (CloseDone r)); safe_cbn; rewrite Hmu in *; lia).
    + (* returned *)
      unfold ret. cbn [fst snd]. exists []. rewrite !app_nil_r. split; [reflexivity | exact HS].
  - destruct (es !! i) as [pc|] eqn:Hi.
    2:{ unfold ret. cbn [fst snd]. exists []. rewrite !app_nil_r. split; [reflexivity | exact HS]. }
    assert (Hin : pc ∈ es) by (apply list_elem_of_lookup; eauto).
    assert (Hpos : holding_Err pc = true -> mu s = true /\ holding_Loop lp = false).
    { intros Hpc. pose proof (filter_length_pos holding_Err es pc Hin Hpc) as Hge.
      assert (Hmu : mu s = true)
        by (apply (holders_mu _ _ _ HS); unfold holders; safe_cbn; lia).
      split; [exact Hmu|]. unfold holders in Hh. safe_cbn. rewrite Hmu in Hh.
      destruct (holding_Loop lp); [lia | reflexivity]. }
    pose proof (fun pc' => filter_insert_length holding_Err es i pc pc' Hi) as Hcount.
    destruct pc; cbn [Err_step].
    + (* Lock *)
      destruct (mu s) eqn:Hmu.
      * unfold ret. cbn [fst snd]. exists []. rewrite !app_nil_r. split; [reflexivity | exact HS].
      * unfold bind. rewrite Lock_run. unfold ret. cbn [fst snd trace logged].
        eexists. split; [reflexivity|].
        eapply Safe_step; [exact HS | one_event | ..]; safe_side.
        all: try (rewrite Hmu; reflexivity).
        all: try (unfold holders in *; safe_cbn; specialize (Hcount ErrRead); safe_cbn; lia).
        loop_stays.
    + (* err := s.err *)
      destruct (Hpos eq_refl) as [Hmu Hlp].
      unfold ret. cbn [fst snd]. exists []. split; [rewrite app_nil_r; reflexivity|].
      eapply Safe_step; [exact HS | left; reflexivity | ..]; safe_side.
      all: try (rewrite Hmu; reflexivity).
      all: try (unfold holders in *; safe_cbn;
                pose proof (Hcount (ErrUnlock (err s))); safe_cbn; lia).
      all: loop_stays.
    + (* Unlock *)
      destruct (Hpos eq_refl) as [Hmu Hlp].
      unfold bind. rewrite Unlock_run. unfold ret. cbn [fst snd trace logged].
      eexists. split; [reflexivity|].
      eapply Safe_step; [exact HS | one_event | ..]; safe_side.
      all: try (rewrite Hmu; reflexivity).
      all: try (unfold holders in *; safe_cbn;
                pose proof (Hcount (ErrDone e)); safe_cbn; rewrite Hmu in *; lia).
      all: loop_stays.
    + (* returned *)
      unfold ret. cbn [fst snd]. exists []. rewrite !app_nil_r. split; [reflexivity | exact HS].
Qed.

Lemma turns_cons (t : Turn) (ts : list Turn) (g : Goroutines) (w : World) :
  turns (t :: ts) g w = turns ts (fst (turn t g w)) (snd (turn t g w)).
Proof. cbn [turns]. unfold bind. destruct (turn t g w). reflexivity. Qed.

Lemma turns_safe (p : Z) (ts : list Turn) (g : Goroutines) (w : World) (log : list Event) :
  Safe p g log ->
  exists evs, trace (snd (turns ts g w)) = trace w ++ evs /\
              Safe p (fst (turns ts g w)) (log ++ evs).
Proof.
  revert g w log. induction ts as [|t ts IH]; intros g w log HS.
  - exists []. rewrite !app_nil_r. split; [reflexivity | exact HS].
  - rewrite turns_cons.
    destruct (turn_safe p t g w log HS) as (e1 & Ht1 & HS1).
    destruct (IH _ (snd (turn t g w)) _ HS1) as (e2 & Ht2 & HS2).
    exists (e1 ++ e2). split.
    + rewrite Ht2, Ht1. symmetry. apply app_assoc.
    + rewrite app_assoc. exact HS2.
Qed.

Lemma filter_replicate_nil {A} (P : A -> bool) (n : nat) (x : A) :
  P x = false -> filter (fun a => P a = true) (replicate n x) = [].
Proof.
  intros HP. induction n as [|n IH]; [reflexivity|].
  cbn [replicate]. rewrite filter_cons, decide_False by congruence. exact IH.
Qed.

Lemma Safe_started (p : Z) (nClose nErr : nat) : Safe p (go_started p nClose nErr) [].
Proof.
  constructor; cbn [go_started shared loop_at Close_at Err_at Port mu closed err].
  - reflexivity.
  - unfold holders. cbn [go_started shared loop_at Close_at Err_at holding_Loop].
    rewrite !filter_replicate_nil by reflexivity. reflexivity.
  - reflexivity.
  - intros H. inversion H.
  - intros H. apply elem_of_replicate in H. destruct H as [H _]. discriminate H.
  - discriminate.
  - discriminate.
  - intros pre post e H. destruct pre; discriminate H.
  - discriminate.
Qed.

(** X18: the subscription under any scheduling of the statements of its
    goroutines: the loop of [notify], any number of calls of [Close] and
    any number of calls of [Err], a goroutine at [Lock] waiting while the
    mutex is held.  In the log every [Lock] finds the mutex free and every
    [Unlock] held, and the closed flag and the terminal error are written,
    and the port handle is closed, only while it is held.  At most one
    goroutine is between its [Lock] and its [Unlock], and the mutex is held
    exactly then, so a function that has returned has released it.  The
    flag is on only after the port handle has been closed, and once the
    handle is closed the flag is on or the [Close] that closed it is about
    to turn it on, still holding the mutex.  So an abandoned wait is never
    recorded as the terminal error once the port handle has been closed,
    also when the wait returns between the closing of the handle and the
    setting of the flag; and a terminal error is one that the loop has
    recorded. *)
Theorem mutex_discipline (p : Z) (nClose nErr : nat) (ts : list Turn) (w : World) :
  let '(g, w') := turns ts (go_started p nClose nErr) w in
  let log := since w w' in
  disciplined false log = Some (mu (shared g)) /\
  holders g = (if mu (shared g) then 1%nat else 0%nat) /\
  (closed (shared g) = true -> EvCloseHandle p None ∈ log) /\
  (EvCloseHandle p None ∈ log -> closed (shared g) = true \/ CloseFlag ∈ Close_at g) /\
  (forall pre post e, log = pre ++ EvSetErr e :: post ->
     ~ (Go.errors_Is e jobapi.ErrAbandoned = true /\ EvCloseHandle p None ∈ pre)) /\
  (forall x, err (shared g) = Some x -> EvSetErr (Some x) ∈ log).
Proof.
  destruct (turns_safe p ts _ w [] (Safe_started p nClose nErr)) as (evs & Ht & HS).
  destruct (turns ts (go_started p nClose nErr) w) as [g w']. cbn [fst snd] in *.
  cbn zeta. rewrite (since_app _ _ _ Ht). cbn [app] in HS.
  destruct HS as [_ Hh Hl Hrel _ Hfl _ Hrec Herr].
  repeat split; assumption.
Qed.

(** The statements put together again: a call of [Close] that runs alone
    from a free mutex, statement by statement, does what
    [Subscription_Close] does. *)
Lemma Close_by_statements (s : Subscription) (w : World) :
  mu s = false ->
  turns (replicate 5 (TurnClose 0))
    {| shared := s; loop_at := LoopDone; Close_at := [CloseLock]; Err_at := [] |} w
  = let '(s', e, w') := Subscription_Close s w in
    ({| shared := s'; loop_at := LoopDone; Close_at := [CloseDone e]; Err_at := [] |}, w').
Proof.
  intros Hmu. destruct s as [p m e c]. cbn in Hmu. subst m. destruct w as [k l n f t].
  unfold Subscription_Close, Port_Close, kernel_close, kernel_call, Lock, Unlock.
  cbn [replicate turns]. unfold turn, Close_step, Port_Close, kernel_close, kernel_call,
    Lock, Unlock. io. cbn.
  destruct c; cbn; [reflexivity|].
  destruct f as [|[x|] f]; cbn; try reflexivity;
    destruct (bool_decide (p ∈ l)); cbn; reflexivity.
Qed.

(** A call of [Err] that runs alone does what [Subscription_Err] does. *)
Lemma Err_by_statements (s : Subscription) (w : World) :
  mu s = false ->
  turns (replicate 3 (TurnErr 0))
    {| shared := s; loop_at := LoopDone; Close_at := []; Err_at := [ErrLock] |} w
  = let '(s', e, w') := Subscription_Err s w in
    ({| shared := s'; loop_at := LoopDone; Close_at := []; Err_at := [ErrDone e] |}, w').
Proof.
  intros Hmu. destruct s as [p m e c]. cbn in Hmu. subst m.
  unfold Subscription_Err, Lock, Unlock.
  cbn [replicate turns]. unfold turn, Err_step, Lock, Unlock. io. cbn. reflexivity.
Qed.

(** A turn of the loop that runs alone does what [notify_turn] does: two
    statements for a packet, after which the loop waits again, and the
    statements of [handlePortErr] and the closing of the sink for a
    failure, after which it has returned. *)
Lemma notify_turn_by_statements (s : Subscription) (outcome : Z * Z + Go.error) (w : World) :
  mu s = false ->
  turns (replicate (match outcome with inl _ => 2 | inr _ => 6 end) (TurnLoop outcome))
    {| shared := s; loop_at := LoopNext; Close_at := []; Err_at := [] |} w
  = let '(s', going, w') := notify_turn s outcome w in
    ({| shared := s'; loop_at := if going then LoopNext else LoopDone;
        Close_at := []; Err_at := [] |}, w').
Proof.
  intros Hmu. destruct s as [p m e c]. cbn in Hmu. subst m.
  unfold notify_turn, handlePortErr, NextMessage, jobapi_calls.GetQueuedCompletionStatus,
    Lock, Unlock.
  destruct outcome as [[mType pid] | e0]; cbn [replicate turns];
    unfold turn, Loop_step, NextMessage, jobapi_calls.GetQueuedCompletionStatus, Lock, Unlock;
    io; cbn -[Go.errors_Is]; [reflexivity|].
  destruct (Go.errors_Is (Some (Go.SyscallError "GetQueuedCompletionStatus" e0))
              jobapi.ErrAbandoned && c); cbn -[Go.errors_Is]; reflexivity.
Qed.

(** ** Processes, threads and the completion port *)

(** X19: [Assign] and [Contains] open the process, issue their one call on
    its handle and close the handle, in this order and whether or not the
    call fails; when the process cannot be opened nothing else is issued
    and the error of [OpenProcess] is returned as it is.  [Assign] opens
    with PROCESS_ALL_ACCESS, [Contains] with
    PROCESS_QUERY_LIMITED_INFORMATION.  A failed call gives the last error
    wrapped in the name of the call; [Contains] returns what the kernel
    wrote to [found] and false when the process could not be opened. *)
Theorem process_handle_is_closed (job : JobObject) (pid : Z) (opened : Z + Go.error)
    (answer : Z * Go.error) (found : bool) :
  let '(r, calls) := JobObject_Assign job pid opened answer in
  let '((f, e), calls') := JobObject_Contains job pid opened answer found in
  match opened with
  | inr e0 =>
      r = Some e0 /\ calls = [CallOpenProcess 2035711 false (to_uint32 pid) opened] /\
      f = false /\ e = Some e0 /\ calls' = [CallOpenProcess 4096 false (to_uint32 pid) opened]
  | inl h =>
      calls = [CallOpenProcess 2035711 false (to_uint32 pid) opened;
               CallAssignProcessToJobObject (Handle job) h; CallCloseHandle h] /\
      r = (if fst answer =? 0
           then Some (Go.SyscallError "AssignProcessToJobObject" (snd answer)) else None) /\
      calls' = [CallOpenProcess 4096 false (to_uint32 pid) opened;
                CallIsProcessInJob h (Handle job); CallCloseHandle h] /\
      f = found /\
      e = (if fst answer =? 0
           then Some (Go.SyscallError "IsProcessInJob" (snd answer)) else None)
  end.
Proof.
  unfold JobObject_Assign, JobObject_Contains, withProcessHandle.
  destruct opened as [h | e0]; cbn; repeat split; reflexivity.
Qed.

(** X20: [CreatePort] and [Notify].  When the port cannot be created
    nothing else is issued and the zero port is returned with the error.
    When the port cannot be associated with the job the port handle is
    closed, the last call issued, and [CreatePort] returns that handle, now
    closed, with the error, in which the last error of the kernel is
    wrapped twice in the name of the call and still found by [errors.Is];
    [Notify] returns no subscription.  Otherwise the handle is left open
    and [Notify] returns a subscription on it with the mutex free, the flag
    off, no error and the loop started. *)
Theorem CreatePort_closes_on_failure (job : JobObject) (created : Z + Go.error)
    (answer : Z * Go.error) :
  let '((p, err), calls) := CreatePort job created answer in
  let create := CallCreateIoCompletionPort Go.InvalidHandle 0 0 1 created in
  match created with
  | inr e0 =>
      p = 0 /\ err = Some e0 /\ calls = [create] /\
      Notify job created answer = ((None, Some e0), calls)
  | inl handle =>
      let associate := CallSetInformationJobObject (Handle job) 7 (Handle job) handle in
      p = handle /\
      if fst answer =? 0 then
        let e := Go.SyscallError "SetInformationJobObject"
                   (Go.SyscallError "SetInformationJobObject" (snd answer)) in
        err = Some e /\ Go.errors_Is err (snd answer) = true /\
        calls = [create; associate; CallCloseHandle handle] /\
        Notify job created answer = ((None, Some e), calls)
      else
        err = None /\ calls = [create; associate] /\
        Notify job created answer
        = ((Some {| sub := {| Port := handle; mu := false; err := None; closed := false |};
                    looping := true; closes := [] |}, None), calls)
  end.
Proof.
  unfold Notify, CreatePort, AssociateCompletionPort.
  destruct created as [handle | e0]; [|cbn; repeat split; reflexivity].
  destruct (fst answer =? 0) eqn:Ha; cbn -[Go.errors_Is]; rewrite ?Ha;
    cbn -[Go.errors_Is]; repeat split; try reflexivity.
  cbn. destruct (decide _) as [_|Hne]; [reflexivity|].
  destruct (decide _) as [_|Hne2]; [reflexivity|].
  destruct (snd answer); cbn; destruct (decide _); try reflexivity; congruence.
Qed.

Lemma next_thread_scan (pid s : Z) (nexts : list (winapi.ThreadEntry32 + Go.error))
    (threads : Z -> (Z + Go.error) * (Z + Go.error)) :
  next_thread pid s nexts threads
  = match list_find (fun x => stops_at pid x = true) nexts with
    | None =>
        (Some (Errorf "no threads found"),
         replicate (S (length nexts)) (CallThread32Next s))
    | Some (i, inr e) =>
        (if decide (e = winapi.ERROR_NO_MORE_FILES) then Some (Errorf "no threads found")
         else Some (Errorf_w "Thread32Next" e),
         replicate (S i) (CallThread32Next s))
    | Some (i, inl e) =>
        let '(r, calls) := ResumeThread (winapi.ThreadID e)
                             (fst (threads (winapi.ThreadID e)))
                             (snd (threads (winapi.ThreadID e))) in
        (r, replicate (S i) (CallThread32Next s) ++ calls)
    end.
Proof.
  induction nexts as [|x nexts IH]; [reflexivity|].
  cbn [next_thread list_find]. destruct x as [e | e].
  - destruct (decide (stops_at pid (inl e) = true)) as [Hm | Hm]; cbn [stops_at] in Hm.
    + rewrite Hm. cbn.
      destruct (ResumeThread _ _ _) as [r calls]. reflexivity.
    + apply not_true_is_false in Hm. rewrite Hm, IH.
      destruct (list_find _ nexts) as [[i [e' | e']]|]; cbn; try reflexivity.
      destruct (ResumeThread _ _ _) as [r calls]. reflexivity.
  - destruct (decide (stops_at pid (inr e) = true)) as [_|Hn];
      [reflexivity | exfalso; apply Hn; reflexivity].
Qed.

(** X21: [ResumeProcess], once the snapshot is taken and [Thread32First]
    has returned an entry, does not look at that entry: it goes through the
    answers of [Thread32Next] and stops at the first that is an error or an
    entry of the process with a thread id.  Only that thread is resumed,
    through [ResumeThread], which closes the thread handle it opened; an
    error other than ERROR_NO_MORE_FILES is returned wrapped; when the
    enumeration ends without such an entry the result is the error
    "no threads found", also when the entry of [Thread32First] was a thread
    of the process.  The snapshot handle is closed last on each of these
    paths. *)
Theorem ResumeProcess_scans_after_first (pid s : Z) (e0 : winapi.ThreadEntry32)
    (nexts : list (winapi.ThreadEntry32 + Go.error))
    (threads : Z -> (Z + Go.error) * (Z + Go.error)) :
  let '(r, calls) := ResumeProcess pid (inl s) (inl e0) nexts threads in
  let before := [CallCreateToolhelp32Snapshot 4 (to_uint32 pid) (inl s); CallThread32First s] in
  let next := CallThread32Next s in
  match list_find (fun x => stops_at pid x = true) nexts with
  | None =>
      r = Some (Errorf "no threads found") /\
      calls = before ++ replicate (S (length nexts)) next ++ [CallCloseHandle s]
  | Some (i, inr e) =>
      r = (if decide (e = winapi.ERROR_NO_MORE_FILES) then Some (Errorf "no threads found")
           else Some (Errorf_w "Thread32Next" e)) /\
      calls = before ++ replicate (S i) next ++ [CallCloseHandle s]
  | Some (i, inl e) =>
      let tid := winapi.ThreadID e in
      winapi.OwnerProcessID e = pid /\ tid <> 0 /\
      match fst (threads tid) with
      | inr x =>
          r = Some (Errorf_w "OpenThread" x) /\
          calls = before ++ replicate (S i) next
                  ++ [CallOpenThread 2 false tid (fst (threads tid)); CallCloseHandle s]
      | inl h =>
          r = match snd (threads tid) with
              | inr x => Some (Errorf_w "ResumeThread" x)
              | inl _ => None
              end /\
          calls = before ++ replicate (S i) next
                  ++ [CallOpenThread 2 false tid (fst (threads tid)); CallResumeThread h; CallCloseHandle h;
                      CallCloseHandle s]
      end
  end /\
  forall e0', ResumeProcess pid (inl s) (inl e0') nexts threads = (r, calls).
Proof.
  unfold ResumeProcess. rewrite next_thread_scan.
  destruct (list_find _ nexts) as [[i [e | e]]|] eqn:Hf.
  - apply list_find_Some in Hf. destruct Hf as (_ & Hstop & _).
    cbn [stops_at] in Hstop. apply andb_true_iff in Hstop. destruct Hstop as [Ho Ht].
    apply Z.eqb_eq in Ho. apply negb_true_iff in Ht. apply Z.eqb_neq in Ht.
    unfold ResumeThread.
    destruct (fst (threads (winapi.ThreadID e))) as [h | x]; cbn zeta.
    + split; [|intros; reflexivity]. split; [exact Ho|]. split; [exact Ht|].
      split; [reflexivity|]. cbn [app]. rewrite <- !app_assoc. reflexivity.
    + split; [|intros; reflexivity]. split; [exact Ho|]. split; [exact Ht|].
      split; [reflexivity|]. cbn [app]. rewrite <- !app_assoc. reflexivity.
  - split; [|intros; reflexivity]. split; reflexivity.
  - split; [|intros; reflexivity]. split; reflexivity.
Qed.


Lemma handles_app (held : list Z) (calls calls' : list Call) :
  handles held (calls ++ calls')
  = match handles held calls with
    | Some held' => handles held' calls'
    | None => None
    end.
Proof.
  revert held. induction calls as [|c calls IH]; intros held; [reflexivity|].
  cbn [app handles]. destruct (used c) as [h|].
  - destruct (bool_decide (h ∈ held)); [apply IH | reflexivity].
  - apply IH.
Qed.

Lemma handles_ResumeThread (held : list Z) (tid : Z) (opened resumed : Z + Go.error) :
  handles held (snd (ResumeThread tid opened resumed)) = Some held.
Proof.
  unfold ResumeThread. destruct opened as [h | e]; [|reflexivity].
  cbn. rewrite !bool_decide_eq_true_2 by (left; reflexivity).
  destruct (decide (h = h)); [reflexivity | congruence].
Qed.

Lemma handles_next_thread (held : list Z) (pid s : Z)
    (nexts : list (winapi.ThreadEntry32 + Go.error))
    (threads : Z -> (Z + Go.error) * (Z + Go.error)) :
  s ∈ held ->
  handles held (snd (next_thread pid s nexts threads)) = Some held.
Proof.
  intros Hs. induction nexts as [|x nexts IH]; cbn [next_thread].
  - cbn. rewrite bool_decide_eq_true_2 by exact Hs. reflexivity.
  - destruct x as [e | e].
    + destruct (_ && _).
      * pose proof (handles_ResumeThread held (winapi.ThreadID e)
                      (fst (threads (winapi.ThreadID e)))
                      (snd (threads (winapi.ThreadID e)))) as HR.
        destruct (ResumeThread _ _ _) as [r calls]. cbn [snd] in *.
        cbn [handles used made]. rewrite bool_decide_eq_true_2 by exact Hs. exact HR.
      * destruct (next_thread _ _ _ _) as [r calls]. cbn [snd] in *.
        cbn [handles used made]. rewrite bool_decide_eq_true_2 by exact Hs. exact IH.
    + cbn. rewrite bool_decide_eq_true_2 by exact Hs. reflexivity.
Qed.

(** X24: no handle is leaked, used before it is made or after it is
    closed, or closed twice.  Whatever the kernel answers, [Assign],
    [Contains], [ResumeThread] and [ResumeProcess] work only on handles
    they hold and hold none when they return; [CreatePort] holds the port
    it returns exactly when it returns no error, and none otherwise. *)
Theorem no_handle_leak (job : JobObject) (pid tid : Z) (opened resumed created snapshot : Z + Go.error)
    (answer : Z * Go.error) (found : bool) (first : winapi.ThreadEntry32 + Go.error)
    (nexts : list (winapi.ThreadEntry32 + Go.error))
    (threads : Z -> (Z + Go.error) * (Z + Go.error)) :
  handles [] (snd (JobObject_Assign job pid opened answer)) = Some [] /\
  handles [] (snd (JobObject_Contains job pid opened answer found)) = Some [] /\
  handles [] (snd (ResumeThread tid opened resumed)) = Some [] /\
  handles [] (snd (ResumeProcess pid snapshot first nexts threads)) = Some [] /\
  let '((port, err), calls) := CreatePort job created answer in
  handles [] calls = Some (match err with None => [port] | Some _ => [] end).
Proof.
  split; [|split; [|split; [|split]]].
  - unfold JobObject_Assign, withProcessHandle. destruct opened as [h | e]; [|reflexivity].
    cbn. rewrite !bool_decide_eq_true_2 by (left; reflexivity).
    destruct (decide (h = h)); [reflexivity | congruence].
  - unfold JobObject_Contains, withProcessHandle. destruct opened as [h | e]; [|reflexivity].
    cbn. rewrite !bool_decide_eq_true_2 by (left; reflexivity).
    destruct (decide (h = h)); [reflexivity | congruence].
  - apply handles_ResumeThread.
  - unfold ResumeProcess. destruct snapshot as [s | e]; [|reflexivity].
    destruct first as [e0 | e].
    + pose proof (handles_next_thread [s] pid s nexts threads ltac:(left)) as HN.
      destruct (next_thread _ _ _ _) as [r calls]. cbn [snd] in *.
      cbn [handles used made]. rewrite bool_decide_eq_true_2 by (left; reflexivity).
      rewrite handles_app, HN. cbn.
      rewrite bool_decide_eq_true_2 by (left; reflexivity).
      destruct (decide (s = s)); [reflexivity | congruence].
    + cbn. rewrite !bool_decide_eq_true_2 by (left; reflexivity).
      destruct (decide (s = s)); [reflexivity | congruence].
  - unfold CreatePort, AssociateCompletionPort. destruct created as [h | e]; [|reflexivity].
    destruct (fst answer =? 0); cbn; rewrite !bool_decide_eq_true_2 by (left; reflexivity);
      [destruct (decide (h = h)); [reflexivity | congruence] | reflexivity].
Qed.

(** ** The theorems with a hypothesis, at sample data *)

(** X1 for the desktop restriction and the slot of the extended limits. *)
Lemma merge_stays_in_its_block_witness :
  is_net LimitDesktop = false /\
  jobapi.JobObjectExtendedLimitInformation <> resolveRequiredInfoClass LimitDesktop /\
  infoPtr (Info (Cases.merged true LimitDesktop Sample.job))
          jobapi.JobObjectExtendedLimitInformation
  = infoPtr (Info Sample.job) jobapi.JobObjectExtendedLimitInformation /\
  Name (Cases.merged true LimitDesktop Sample.job) = Name Sample.job /\
  Handle (Cases.merged true LimitDesktop Sample.job) = Handle Sample.job.
Proof.
  split; [reflexivity|]. split; [discriminate|].
  apply (merge_stays_in_its_block Cases.net_set Cases.net_reset Cases.dscp_set Cases.dscp_reset
           true LimitDesktop Sample.job jobapi.JobObjectExtendedLimitInformation);
    [reflexivity | discriminate].
Defined.

(** X2 for the affinity mask 3. *)
Lemma IsSet_follows_set_and_reset_witness :
  exported (WithAffinity 3) = true /\
  is_net (WithAffinity 3) = false /\
  Sample.IsSet (WithAffinity 3) (Sample.Limit_set (WithAffinity 3) Sample.job) = true /\
  Sample.IsSet (WithAffinity 3) (Sample.Limit_reset (WithAffinity 3) Sample.job) = false.
Proof.
  split; [reflexivity|]. split; [reflexivity|].
  apply (IsSet_follows_set_and_reset
           (Sample.net_flag 2 true) (Sample.net_flag 2 false)
           (Sample.net_flag 4 true) (Sample.net_flag 4 false)
           (fun _ b => 0 <? Z.land (jobapi.NetControlFlags b) 2)
           (fun _ b => 0 <? Z.land (jobapi.NetControlFlags b) 4)
           (WithAffinity 3) Sample.job); reflexivity.
Defined.

(** X4 for a duration of 1234567 nanoseconds: 12345 ticks. *)
Lemma time_limit_in_ticks_witness :
  - 2 ^ 63 <= 1234567 < 2 ^ 63 /\
  let job1 := Sample.Limit_set (WithJobTimeLimit 1234567) Sample.job in
  let job2 := Sample.Limit_set (WithProcessTimeLimit 1234567) Sample.job in
  jobapi.PerJobUserTimeLimit (BasicLimits_of job1) = 12345 /\
  jobapi.PerProcessUserTimeLimit (BasicLimits_of job2) = 12345 /\
  jobTimeLimit_LimitValue job1 = 1234500 /\
  processTimeLimit_LimitValue job2 = 1234500 /\
  Cases.Limit_Value (WithJobTimeLimit 1234567) job1 = VDuration 1234500 /\
  Cases.Limit_Value (WithProcessTimeLimit 1234567) job2 = VDuration 1234500 /\
  (jobTimeLimit_LimitValue job1 = 1234567 <-> Z.rem 1234567 100 = 0).
Proof.
  split; [lia|].
  apply (time_limit_in_ticks
           (Sample.net_flag 2 true) (Sample.net_flag 4 true)
           (fun _ b => VUint64 (jobapi.MaxBandwidth b)) (fun _ b => VByte (jobapi.DscpTag b))
           1234567 Sample.job).
  lia.
Defined.

(** X6 for two flag limits of two blocks. *)
Lemma flag_limits_order_free_witness :
  Forall (fun L => is_flag_limit L = true) [LimitDesktop; LimitBreakawayOK] /\
  [LimitDesktop; LimitBreakawayOK] ≡ₚ [LimitBreakawayOK; LimitDesktop] /\
  Cases.merge_all true [LimitDesktop; LimitBreakawayOK] Sample.job
  = Cases.merge_all true [LimitBreakawayOK; LimitDesktop] Sample.job /\
  (forall L, L ∈ [LimitDesktop; LimitBreakawayOK] ->
     Cases.merged true L (Cases.merged true L Sample.job) = Cases.merged true L Sample.job).
Proof.
  assert (Hall : Forall (fun L => is_flag_limit L = true) [LimitDesktop; LimitBreakawayOK]).
  { repeat constructor. }
  assert (Hp : [LimitDesktop; LimitBreakawayOK] ≡ₚ [LimitBreakawayOK; LimitDesktop]).
  { apply perm_swap. }
  split; [exact Hall|]. split; [exact Hp|].
  exact (flag_limits_order_free Cases.net_set Cases.net_reset Cases.dscp_set Cases.dscp_reset
           true [LimitDesktop; LimitBreakawayOK] [LimitBreakawayOK; LimitDesktop]
           Sample.job Hall Hp).
Defined.

(** X7 for a rate that names a weight and a min/max pair: the weight wins. *)
Lemma cpu_rate_precedence_witness :
  0 <= Min Cases.rate_mixed < 65536 /\ 0 <= Max Cases.rate_mixed < 65536 /\
  let job' := cpuLimit_set Cases.rate_mixed Sample.job in
  cpuLimit_LimitValue LimitCPU job' = {| Min := 0; Max := 0; Weight := 7; HardCap := 0 |} /\
  cpuLimit_IsSet LimitCPU job' = true /\
  (HardCap Cases.rate_mixed <= 0 -> Weight Cases.rate_mixed <= 0 -> 0 < Max Cases.rate_mixed ->
   jobapi.Value (CPURateControl (Info job')) = Min Cases.rate_mixed + 65536 * Max Cases.rate_mixed) /\
  (HardCap Cases.rate_mixed <= 0 -> Weight Cases.rate_mixed <= 0 -> Max Cases.rate_mixed <= 0 ->
   CPURateControl (Info job')
   = {| jobapi.ControlFlags := 9;
        jobapi.Value := jobapi.Value (CPURateControl (Info Sample.job)) |}).
Proof.
  split; [cbn; lia|]. split; [cbn; lia|].
  apply (cpu_rate_precedence Cases.rate_mixed Sample.job); cbn; lia.
Defined.

(** X8 for the block that holds the pair (500, 1000). *)
Lemma cpu_rate_read_then_set_witness :
  0 <= jobapi.Value (CPURateControl (Info Cases.job_minmax)) < 2 ^ 32 /\
  (jobapi.ControlFlags (CPURateControl (Info Cases.job_minmax)) = 25 ->
   cpuLimit_LimitValue LimitCPU Cases.job_minmax
   = {| Min := 500; Max := 1000; Weight := 0; HardCap := 0 |}) /\
  ((jobapi.ControlFlags (CPURateControl (Info Cases.job_minmax)) = 13 /\
    0 < jobapi.Value (CPURateControl (Info Cases.job_minmax))) \/
   (jobapi.ControlFlags (CPURateControl (Info Cases.job_minmax)) = 11 /\
    0 < jobapi.Value (CPURateControl (Info Cases.job_minmax))) \/
   (jobapi.ControlFlags (CPURateControl (Info Cases.job_minmax)) = 25 /\
    65536 <= jobapi.Value (CPURateControl (Info Cases.job_minmax))) ->
   cpuLimit_set (cpuLimit_LimitValue LimitCPU Cases.job_minmax) Cases.job_minmax
   = Cases.job_minmax).
Proof.
  split; [cbn; lia|].
  apply (cpu_rate_read_then_set Cases.job_minmax). cbn. lia.
Defined.

(** X9 for a flag, a value and a restriction, on a stale cache and a
    kernel that already holds limits. *)
Lemma applyLimit_read_modify_write_witness :
  (forall s, Sample.reversed s ≡ₚ elements s) /\
  let limits := [LimitBreakawayOK; WithAffinity 3; LimitHandles] in
  let '(job', e, w') := Cases.applyLimit true limits Sample.job_stale Sample.world_limited in
  e = None ->
  kernel w' = Info (Cases.merge_all true limits
                      (with_Info Sample.job_stale (kernel Sample.world_limited))) /\
  (forall c, c ∈ targets limits -> infoPtr (Info job') c = infoPtr (kernel w') c) /\
  (forall c, c ∉ targets limits ->
     infoPtr (Info job') c = infoPtr (Info Sample.job_stale) c /\
     infoPtr (kernel w') c = infoPtr (kernel Sample.world_limited) c) /\
  Handle job' = Handle Sample.job_stale /\ Name job' = Name Sample.job_stale /\
  live w' = live Sample.world_limited.
Proof.
  split; [exact reversed_perm|].
  exact (applyLimit_read_modify_write
           Cases.net_set Cases.net_reset Cases.dscp_set Cases.dscp_reset
           Sample.reversed reversed_perm true
           [LimitBreakawayOK; WithAffinity 3; LimitHandles]
           Sample.job_stale Sample.world_limited).
Defined.

(** X10 for two limits of one block applied together and apart. *)
Lemma applyLimit_in_one_call_or_two_witness :
  (forall s, Sample.reversed s ≡ₚ elements s) /\
  let '(job1, e1, w1) := Cases.applyLimit true [LimitBreakawayOK] Sample.job Sample.world in
  let '(job2, e2, w2) := Cases.applyLimit true [WithAffinity 3; LimitDesktop] job1 w1 in
  let '(job', e', w') :=
    Cases.applyLimit true ([LimitBreakawayOK] ++ [WithAffinity 3; LimitDesktop])
      Sample.job Sample.world in
  e1 = None -> e2 = None -> e' = None ->
  kernel w2 = kernel w' /\ job2 = job'.
Proof.
  split; [exact reversed_perm|].
  exact (applyLimit_in_one_call_or_two
           Cases.net_set Cases.net_reset Cases.dscp_set Cases.dscp_reset
           Sample.reversed reversed_perm true
           [LimitBreakawayOK] [WithAffinity 3; LimitDesktop] Sample.job Sample.world).
Defined.

(** X22 for the hard cap of 5%. *)
Lemma HasLimits_after_SetLimit_witness :
  (forall s, Sample.reversed s ≡ₚ elements s) /\
  exported (WithCPUHardCapLimit 500) = true /\
  is_net (WithCPUHardCapLimit 500) = false /\
  0 <= jobapi.LimitFlags (jobapi.BasicLimitInformation (ExtendedLimits (kernel Sample.world))) /\
  0 <= jobapi.UIRestrictionsClass (UIRestrictions (kernel Sample.world)) /\
  forall job1 w1 job2 limited w2,
    Sample.SetLimit [WithCPUHardCapLimit 500] Sample.job Sample.world = (job1, None, w1) ->
    HasLimits job1 w1 = (job2, limited, None, w2) ->
    limited = true.
Proof.
  split; [exact reversed_perm|]. split; [reflexivity|]. split; [reflexivity|].
  split; [cbn; lia|]. split; [cbn; lia|].
  apply (HasLimits_after_SetLimit
           (Sample.net_flag 2 true) (Sample.net_flag 2 false)
           (Sample.net_flag 4 true) (Sample.net_flag 4 false)
           Sample.reversed reversed_perm (WithCPUHardCapLimit 500) Sample.job Sample.world);
    first [reflexivity | cbn; lia].
Defined.

(** X23 for the limit of three active processes. *)
Lemma limit_reads_back_witness :
  (forall s, Sample.reversed s ≡ₚ elements s) /\
  exported (WithActiveProcessLimit 3) = true /\
  is_net (WithActiveProcessLimit 3) = false /\
  let L := WithActiveProcessLimit 3 in
  let seed := with_Info Sample.job (kernel Sample.world) in
  (forall job1 w1 job2 w2,
     Sample.SetLimit [L] Sample.job Sample.world = (job1, None, w1) ->
     QueryLimits job1 w1 = (job2, None, w2) ->
     Sample.IsSet L job1 = true /\ Sample.IsSet L job2 = true /\
     infoPtr (Info job2) (resolveRequiredInfoClass L)
     = infoPtr (Info (Sample.Limit_set L seed)) (resolveRequiredInfoClass L) /\
     Cases.Limit_Value L job2 = Cases.Limit_Value L (Sample.Limit_set L seed)) /\
  (forall job1 w1 job2 w2,
     Sample.ResetLimit [L] Sample.job Sample.world = (job1, None, w1) ->
     QueryLimits job1 w1 = (job2, None, w2) ->
     Sample.IsSet L job1 = false /\ Sample.IsSet L job2 = false).
Proof.
  split; [exact reversed_perm|]. split; [reflexivity|]. split; [reflexivity|].
  apply (limit_reads_back
           (Sample.net_flag 2 true) (Sample.net_flag 2 false)
           (Sample.net_flag 4 true) (Sample.net_flag 4 false)
           (fun _ b => 0 <? Z.land (jobapi.NetControlFlags b) 2)
           (fun _ b => 0 <? Z.land (jobapi.NetControlFlags b) 4)
           (fun _ b => VUint64 (jobapi.MaxBandwidth b)) (fun _ b => VByte (jobapi.DscpTag b))
           Sample.reversed reversed_perm (WithActiveProcessLimit 3) Sample.job Sample.world);
    reflexivity.
Defined.

(** ** More runs on sample data *)

(** A stale cache does not reach the kernel: the job's cache says the
    desktop restriction is on, the kernel holds the desktop restriction and
    a hard cap; setting the handles restriction leaves both restrictions
    in the kernel, and the CPU block as it was. *)
Example SetLimit_merges_into_kernel_blocks :
  let '(job', e, w') := Cases.applyLimit true [LimitHandles] Sample.job Sample.world_limited in
  e = None /\
  jobapi.UIRestrictionsClass (UIRestrictions (kernel w')) = 65 /\
  UIRestrictions (Info job') = UIRestrictions (kernel w') /\
  CPURateControl (kernel w') = {| jobapi.ControlFlags := 5; jobapi.Value := 500 |} /\
  CPURateControl (Info job') = jobapi.zero_CPU.
Proof. vm_compute. repeat split; reflexivity. Qed.

(** A limit set and seen by [HasLimits], then read back. *)
Example SetLimit_then_HasLimits :
  let '(job1, e1, w1) := Sample.SetLimit [WithActiveProcessLimit 3] Sample.job Sample.world in
  let '(job2, limited, e2, w2) := HasLimits job1 w1 in
  e1 = None /\ e2 = None /\ limited = true /\
  Sample.IsSet (WithActiveProcessLimit 3) job2 = true /\
  Cases.Limit_Value (WithActiveProcessLimit 3) job2 = VUint32 3.
Proof. vm_compute. repeat split; reflexivity. Qed.

(** A write-back that fails after another went through: the first block
    stays written. *)
Example SetLimit_half_applied :
  let w := {| kernel := zero_JobInfo; live := [7]; next := 8%positive;
              faults := [None; None; None; Some (Go.Errno 5)]; trace := [] |} in
  let '(job', e, w') := Sample.SetLimit [LimitBreakawayOK; LimitDesktop] Sample.job w in
  e = Some (Go.SyscallError "SetInformationJobObject" (Go.Errno 5)) /\
  jobapi.UIRestrictionsClass (UIRestrictions (kernel w')) = 64 /\
  jobapi.LimitFlags (jobapi.BasicLimitInformation (ExtendedLimits (kernel w'))) = 0 /\
  jobapi.LimitFlags (jobapi.BasicLimitInformation (ExtendedLimits (Info job'))) = 2048.
Proof. vm_compute. repeat split; reflexivity. Qed.

(** The abandoned wait after a [Close] leaves no error; without a [Close]
    before it, as when the port handle is closed from elsewhere, it is the
    terminal error. *)
Example Err_after_Close_and_without :
  let abandoned := ActDequeue (inr jobapi.ErrAbandoned) in
  err (sub (fst (run [ActClose; abandoned] (started 7) Sample.world))) = None /\
  err (sub (fst (run [abandoned; ActClose] (started 7) Sample.world)))
  = Some (Go.SyscallError "GetQueuedCompletionStatus" jobapi.ErrAbandoned).
Proof. vm_compute. split; reflexivity. Qed.

(** A process whose one thread is the entry of [Thread32First]: the thread
    is not found. *)
Example ResumeProcess_misses_the_first_thread :
  ResumeProcess 42 (inl 9) (inl {| winapi.OwnerProcessID := 42; winapi.ThreadID := 77 |})
    [inl {| winapi.OwnerProcessID := 4; winapi.ThreadID := 8 |}]
    (fun _ => (inl 11, inl 1))
  = (Some (Errorf "no threads found"),
     [CallCreateToolhelp32Snapshot 4 42 (inl 9); CallThread32First 9; CallThread32Next 9;
      CallThread32Next 9; CallCloseHandle 9]).
Proof. reflexivity. Qed.

(** The second thread of the process is resumed when the first is the
    entry of [Thread32First]. *)
Example ResumeProcess_resumes_a_later_thread :
  ResumeProcess 42 (inl 9) (inl {| winapi.OwnerProcessID := 42; winapi.ThreadID := 77 |})
    [inl {| winapi.OwnerProcessID := 4; winapi.ThreadID := 8 |};
     inl {| winapi.OwnerProcessID := 42; winapi.ThreadID := 78 |}]
    (fun _ => (inl 11, inl 1))
  = (None,
     [CallCreateToolhelp32Snapshot 4 42 (inl 9); CallThread32First 9; CallThread32Next 9;
      CallThread32Next 9; CallOpenThread 2 false 78 (inl 11); CallResumeThread 11;
      CallCloseHandle 11; CallCloseHandle 9]).
Proof. reflexivity. Qed.

(** The wait on the port abandoned between the closing of the handle and
    the setting of the flag: the loop waits for the mutex, finds the flag
    on when it gets it, and records no error. *)
Example wait_abandoned_before_the_flag :
  let dequeue := TurnLoop (inr jobapi.ErrAbandoned) in
  let '(g, w') :=
    turns [TurnClose 0; TurnClose 0; TurnClose 0; dequeue; dequeue;
           TurnClose 0; TurnClose 0; dequeue; dequeue; dequeue; dequeue]
      (go_started 7 1 0) Sample.world in
  since Sample.world w'
  = [EvLock; EvCloseHandle 7 None; EvGetQueuedCompletionStatus 7 (Some jobapi.ErrAbandoned);
     EvSetClosed; EvUnlock; EvLock; EvUnlock; EvCloseChan] /\
  g = {| shared := {| Port := 7; mu := false; err := None; closed := true |};
         loop_at := LoopDone; Close_at := [CloseDone None]; Err_at := [] |}.
Proof. vm_compute. split; reflexivity. Qed.

(** The same wait abandoned with no [Close] before the loop takes the
    mutex: the error is recorded, and a [Close] that comes after does not
    take it back. *)
Example wait_abandoned_without_Close :
  let dequeue := TurnLoop (inr jobapi.ErrAbandoned) in
  let '(g, w') :=
    turns [dequeue; dequeue; dequeue; TurnClose 0; dequeue; dequeue; dequeue;
           TurnClose 0; TurnClose 0; TurnClose 0; TurnClose 0; TurnClose 0]
      (go_started 7 1 0) Sample.world in
  since Sample.world w'
  = [EvGetQueuedCompletionStatus 7 (Some jobapi.ErrAbandoned); EvLock;
     EvSetErr (Some (Go.SyscallError "GetQueuedCompletionStatus" jobapi.ErrAbandoned));
     EvUnlock; EvCloseChan;
     EvLock; EvCloseHandle 7 None; EvSetClosed; EvUnlock] /\
  g = {| shared := {| Port := 7; mu := false;
                      err := Some (Go.SyscallError "GetQueuedCompletionStatus"
                                     jobapi.ErrAbandoned);
                      closed := true |};
         loop_at := LoopDone; Close_at := [CloseDone None]; Err_at := [] |}.
Proof. vm_compute. split; reflexivity. Qed.
